(** * Stable marriage: the Gale-Shapley engine of [src/src/App.jsx]

    A shallow embedding of the classes [StableMarriageAlgorithm] and
    [SatisfactionAnalyzer], followed by the properties of the deferred
    acceptance loop: termination, perfect matching, stability as decided by
    [verifyStability], proposer optimality, and the behaviour of the metrics.

    Modelling conventions.
    - Participant identifiers and array indices are [nat].  A JavaScript value
      that is either a number or [undefined] is an [option nat].
    - [indexOf] and everything compared with its result is a [Z], since
      [indexOf] answers [-1] for an absent element.
    - A [Map] is the list of its entries in insertion order, a [Set] the list
      of its members in insertion order: the loop picks [Array.from(free)[0]]
      and [verifyStability] takes the first entry found, so order matters.
    - An exception ends the computation with [Throw].
    - The [while] loop is iterated with fuel; the theorems give a fuel that is
      enough on every valid instance. *)

From Stdlib Require Import ZArith QArith Qabs Qround Lia Lqa.
From stdpp Require Import base tactics option numbers list.

Close Scope Q_scope.
Open Scope nat_scope.
#[local] Set Warnings "-clear-no-such-hyp".

(** ** JavaScript data *)

(** A number that is an identifier or an index, or [undefined]. *)
Abbreviation value := (option nat) (only parsing).
Abbreviation undefined := (@None nat) (only parsing).

(** How a piece of code ends. [NoCursor] marks the one place where the model
    stops instead of following JavaScript further: [proposals.get(p)] on a
    proposer that was never given a cursor (JavaScript would go on with
    [undefined] and [NaN]).  Lemmas [sp_while_cursor] and [ep_while_cursor]
    show that no run of either loop gets there, whatever the instance. *)
Inductive abrupt := TypeError | NoCursor.

Inductive completion (A : Type) : Type :=
  | Normal (a : A)
  | Throw (e : abrupt).
Arguments Normal {A} a.
Arguments Throw {A} e.

(** Sequencing: an exception skips the rest. *)
Global Instance completion_bind : MBind completion := λ A B k c,
  match c with
  | Normal a => k a
  | Throw e => Throw e
  end.

(** [a[i]] where [a] itself may be [undefined]: reading a property of
    [undefined] throws. *)
Definition property {A} (o : option A) : completion A :=
  match o with
  | Some a => Normal a
  | None => Throw TypeError
  end.

(** [for (let i = lo; i < lo + count; i++) body] over an accumulator. *)
Fixpoint for_loop {A} (body : nat → A → completion A) (lo count : nat) (acc : A)
    : completion A :=
  match count with
  | 0 => Normal acc
  | S count' => acc' ← body lo acc ; for_loop body (S lo) count' acc'
  end.

(** [Array.prototype.indexOf] on an array of numbers: the first position of
    [x], or [-1]; [undefined] is never found. *)
Definition indexOf (l : list nat) (x : value) : Z :=
  match list_find (λ y, x = Some y) l with
  | Some (i, _) => Z.of_nat i
  | None => (-1)%Z
  end.

(** [Map]: entries in insertion order; [set] on a present key replaces the
    value in place, on a new key appends. *)
Module JsMap.
Section ops.
Context {K V : Type} `{EqDecision K}.

Fixpoint get (m : list (K * V)) (k : K) : option V :=
  match m with
  | [] => None
  | (k', v) :: m' => if decide (k' = k) then Some v else get m' k
  end.

Definition has (m : list (K * V)) (k : K) : bool :=
  match get m k with Some _ => true | None => false end.

Fixpoint set (k : K) (v : V) (m : list (K * V)) : list (K * V) :=
  match m with
  | [] => [(k, v)]
  | (k', v') :: m' =>
      if decide (k' = k) then (k, v) :: m' else (k', v') :: set k v m'
  end.

Definition keys (m : list (K * V)) : list K := m.*1.
Definition values (m : list (K * V)) : list V := m.*2.
End ops.

(** [Array.from(m.entries()).find(([_, e]) => e === x)?.[0]] *)
Definition find_key (m : list (value * value)) (x : value) : value :=
  match list_find (λ kv : value * value, kv.2 = x) m with
  | Some (_, kv) => kv.1
  | None => None
  end.
End JsMap.

(** [Set]: members in insertion order. *)
Module JsSet.
Section ops.
Context {A : Type} `{EqDecision A}.

Definition add (x : A) (s : list A) : list A :=
  if decide (x ∈ s) then s else s ++ [x].

Definition delete (x : A) (s : list A) : list A :=
  filter (λ y, y ≠ x) s.

(** [new Set(array)] *)
Definition of_array (l : list A) : list A :=
  foldl (λ s x, add x s) [] l.
End ops.
End JsSet.

(** A slot of the array [proposalCounts]: a count, [NaN], or an empty slot
    that reads as [undefined] (a hole left by a write past the end, which the
    copy [[...this.proposalCounts]] turns into [undefined]). *)
Inductive slot := Count (k : nat) | NotANumber | Hole.

(** [a[i]++] on an array of counts.  Past the end JavaScript reads
    [undefined], computes [NaN] and extends the array, leaving holes. *)
Definition increment (a : list slot) (i : nat) : list slot :=
  match a !! i with
  | Some (Count k) => <[i := Count (S k)]> a
  | Some _ => <[i := NotANumber]> a
  | None => a ++ replicate (i - length a) Hole ++ [NotANumber]
  end.

(** ** class StableMarriageAlgorithm *)

Module StableMarriageAlgorithm.

Record t := {
  students : list nat;
  establishments : list nat;
  studentPrefs : list (list nat);
  establishmentPrefs : list (list nat);
  n : nat;
  proposalCounts : list slot
}.

(** [this.proposalCounts = c] *)
Definition set_proposalCounts (this : t) (c : list slot) : t :=
  {| students := this.(students); establishments := this.(establishments);
     studentPrefs := this.(studentPrefs);
     establishmentPrefs := this.(establishmentPrefs);
     n := this.(n); proposalCounts := c |}.

(** The constructor stores its arguments and checks nothing.  Its result is a
    [completion] so that "the constructor throws" can be stated at all. *)
Definition constructor (students establishments : list nat)
    (studentPrefs establishmentPrefs : list (list nat)) : completion t :=
  Normal {| students := students; establishments := establishments;
            studentPrefs := studentPrefs;
            establishmentPrefs := establishmentPrefs;
            n := length students;
            proposalCounts := replicate (length students) (Count 0) |}.

(** The three local variables of a [solve] loop. In [solveStudentsPropose]
    [engaged] maps an establishment to a student, in
    [solveEstablishmentsPropose] a student to an establishment. *)
Record loop_state := {
  engaged : list (value * nat);
  free : list nat;
  proposals : list (nat * nat)
}.

(** [xs.forEach(x => proposals.set(x, 0))] *)
Definition zero_cursors (xs : list nat) : list (nat * nat) :=
  foldl (λ m x, JsMap.set x 0 m) [] xs.

Definition initial (proposers : list nat) : loop_state :=
  {| engaged := []; free := JsSet.of_array proposers;
     proposals := zero_cursors proposers |}.

(** One turn of the [while] loop of [solveStudentsPropose], entered with
    [student = Array.from(free)[0]].  It returns [this] as the turn leaves it
    ([this.proposalCounts[student]++]). *)
Definition sp_body (this : t) (st : loop_state) (student : nat)
    : t * completion loop_state :=
  match JsMap.get st.(proposals) student with
  | None => (this, Throw NoCursor)
  | Some proposalIndex =>
    if decide (this.(n) ≤ proposalIndex) then
      (this, Normal {| engaged := st.(engaged);
                       free := JsSet.delete student st.(free);
                       proposals := st.(proposals) |})
    else
      match this.(studentPrefs) !! student with
      | None => (this, Throw TypeError)
      | Some prefs =>
        let establishment : value := prefs !! proposalIndex in
        let this := set_proposalCounts this
                      (increment this.(proposalCounts) student) in
        let proposals := JsMap.set student (proposalIndex + 1) st.(proposals) in
        match JsMap.get st.(engaged) establishment with
        | None =>
          (this, Normal {| engaged := JsMap.set establishment student st.(engaged);
                           free := JsSet.delete student st.(free);
                           proposals := proposals |})
        | Some currentStudent =>
          match establishment ≫= (this.(establishmentPrefs) !!.) with
          | None => (this, Throw TypeError)
          | Some ranking =>
            let currentRank := indexOf ranking (Some currentStudent) in
            let newRank := indexOf ranking (Some student) in
            if decide (newRank < currentRank)%Z then
              (this, Normal {| engaged := JsMap.set establishment student st.(engaged);
                               free := JsSet.add currentStudent
                                         (JsSet.delete student st.(free));
                               proposals := proposals |})
            else
              (this, Normal {| engaged := st.(engaged); free := st.(free);
                               proposals := proposals |})
          end
        end
      end
  end.

(** [while (free.size > 0) { ... }]; [None] when the fuel runs out. *)
Fixpoint sp_while (fuel : nat) (this : t) (st : loop_state)
    : option (t * completion loop_state) :=
  match fuel with
  | 0 => None
  | S fuel' =>
    match st.(free) with
    | [] => Some (this, Normal st)
    | student :: _ =>
      match sp_body this st student with
      | (this', Normal st') => sp_while fuel' this' st'
      | (this', Throw e) => Some (this', Throw e)
      end
    end
  end.

(** What [solve] returns. [matching] maps a student to an establishment.
    [counts] is the array copy [[...this.proposalCounts]] of
    [solveStudentsPropose]; [cursors] is the [proposals] map that
    [solveEstablishmentsPropose] returns under the same property name. *)
Record sp_result := {
  sp_matching : list (value * value);
  sp_proposalCounts : list slot
}.

Record ep_result := {
  ep_matching : list (value * value);
  ep_proposalCounts : list (nat * nat)
}.

(** [engaged.forEach((student, establishment) => matching.set(student, establishment))] *)
Definition invert (engaged : list (value * nat)) : list (value * value) :=
  foldl (λ matching '(establishment, student),
           JsMap.set (Some student) establishment matching) [] engaged.

Definition solveStudentsPropose (fuel : nat) (this : t)
    : option (t * completion sp_result) :=
  match sp_while fuel this (initial this.(students)) with
  | None => None
  | Some (this', Normal st) =>
      Some (this', Normal {| sp_matching := invert st.(engaged);
                             sp_proposalCounts := this'.(proposalCounts) |})
  | Some (this', Throw e) => Some (this', Throw e)
  end.

(** One turn of the [while] loop of [solveEstablishmentsPropose]. It leaves
    [this] alone. *)
Definition ep_body (this : t) (st : loop_state) (establishment : nat)
    : completion loop_state :=
  match JsMap.get st.(proposals) establishment with
  | None => Throw NoCursor
  | Some proposalIndex =>
    if decide (this.(n) ≤ proposalIndex) then
      Normal {| engaged := st.(engaged);
                free := JsSet.delete establishment st.(free);
                proposals := st.(proposals) |}
    else
      match this.(establishmentPrefs) !! establishment with
      | None => Throw TypeError
      | Some prefs =>
        let student : value := prefs !! proposalIndex in
        let proposals := JsMap.set establishment (proposalIndex + 1) st.(proposals) in
        match JsMap.get st.(engaged) student with
        | None =>
          Normal {| engaged := JsMap.set student establishment st.(engaged);
                    free := JsSet.delete establishment st.(free);
                    proposals := proposals |}
        | Some currentEstablishment =>
          match student ≫= (this.(studentPrefs) !!.) with
          | None => Throw TypeError
          | Some ranking =>
            let currentRank := indexOf ranking (Some currentEstablishment) in
            let newRank := indexOf ranking (Some establishment) in
            if decide (newRank < currentRank)%Z then
              Normal {| engaged := JsMap.set student establishment st.(engaged);
                        free := JsSet.add currentEstablishment
                                  (JsSet.delete establishment st.(free));
                        proposals := proposals |}
            else
              Normal {| engaged := st.(engaged); free := st.(free);
                        proposals := proposals |}
          end
        end
      end
  end.

Fixpoint ep_while (fuel : nat) (this : t) (st : loop_state)
    : option (completion loop_state) :=
  match fuel with
  | 0 => None
  | S fuel' =>
    match st.(free) with
    | [] => Some (Normal st)
    | establishment :: _ =>
      match ep_body this st establishment with
      | Normal st' => ep_while fuel' this st'
      | Throw e => Some (Throw e)
      end
    end
  end.

(** The returned [matching] is the [engaged] map itself, student to
    establishment. *)
Definition solveEstablishmentsPropose (fuel : nat) (this : t)
    : option (completion ep_result) :=
  match ep_while fuel this (initial this.(establishments)) with
  | None => None
  | Some (Normal st) =>
      Some (Normal {| ep_matching := prod_map id Some <$> st.(engaged);
                      ep_proposalCounts := st.(proposals) |})
  | Some (Throw e) => Some (Throw e)
  end.

(** [{ student: s, establishment: preferredE }] *)
Record blocking_pair := { student : nat; establishment : value }.

Record verdict := { stable : bool; blockingPairs : list blocking_pair }.

(** The body of the inner [for] of [verifyStability]. *)
Definition check_preferred (this : t) (matching : list (value * value))
    (prefs : list nat) (s prefRank : nat) (blockingPairs : list blocking_pair)
    : completion (list blocking_pair) :=
  let preferredE : value := prefs !! prefRank in
  match JsMap.find_key matching preferredE with
  | None => Normal blockingPairs
  | Some matchedS =>
    ranking ← property (preferredE ≫= (this.(establishmentPrefs) !!.)) ;
    let currentRankE := indexOf ranking (Some matchedS) in
    let newRankE := indexOf ranking (Some s) in
    if decide (newRankE < currentRankE)%Z then
      Normal (blockingPairs ++ [{| student := s; establishment := preferredE |}])
    else Normal blockingPairs
  end.

(** The body of the outer [for] of [verifyStability]. *)
Definition check_student (this : t) (matching : list (value * value))
    (s : nat) (blockingPairs : list blocking_pair)
    : completion (list blocking_pair) :=
  let currentE : value := mjoin (JsMap.get matching (Some s)) in
  prefs ← property (this.(studentPrefs) !! s) ;
  let currentRankS := indexOf prefs currentE in
  for_loop (check_preferred this matching prefs s) 0 (Z.to_nat currentRankS)
    blockingPairs.

Definition verifyStability (this : t) (matching : list (value * value))
    : completion verdict :=
  blockingPairs ← for_loop (check_student this matching) 0 this.(n) [] ;
  Normal {| stable := bool_decide (length blockingPairs = 0);
            blockingPairs := blockingPairs |}.

End StableMarriageAlgorithm.

(** ** JavaScript numbers in the metrics

    The metrics divide, so they leave the integers.  A number is modelled as
    an exact rational in lowest terms, or one of the three special values
    that a division by zero produces.  Rounding is not modelled, and neither
    is the sign of zero: the only divisors are [n] and [n - 1], which are
    never [-0]. *)
Inductive number := Finite (q : Q) | Infinity | NegInfinity | NaN.

Module Number.
Definition of_Z (z : Z) : number := Finite (inject_Z z).

Definition opp (a : number) : number :=
  match a with
  | Finite q => Finite (Qred (- q))
  | Infinity => NegInfinity
  | NegInfinity => Infinity
  | NaN => NaN
  end.

Definition add (a b : number) : number :=
  match a, b with
  | NaN, _ | _, NaN => NaN
  | Finite p, Finite q => Finite (Qred (p + q))
  | Infinity, NegInfinity | NegInfinity, Infinity => NaN
  | Infinity, _ | _, Infinity => Infinity
  | NegInfinity, _ | _, NegInfinity => NegInfinity
  end.

Definition sub (a b : number) : number := add a (opp b).

(** The sign of a number that is not [NaN]: [Lt], [Eq] (zero) or [Gt]. *)
Definition sign (a : number) : option comparison :=
  match a with
  | Finite q => Some (Qcompare q 0)
  | Infinity => Some Gt
  | NegInfinity => Some Lt
  | NaN => None
  end.

Definition signed_infinity (s t : comparison) : number :=
  match s, t with
  | Eq, _ | _, Eq => NaN
  | Gt, Gt | Lt, Lt => Infinity
  | _, _ => NegInfinity
  end.

Definition mul (a b : number) : number :=
  match a, b with
  | Finite p, Finite q => Finite (Qred (p * q))
  | _, _ =>
    match sign a, sign b with
    | Some s, Some t => signed_infinity s t
    | _, _ => NaN
    end
  end.

Definition div (a b : number) : number :=
  match a, b with
  | NaN, _ | _, NaN => NaN
  | Finite p, Finite q =>
    match Qcompare q 0, Qcompare p 0 with
    | Eq, Eq => NaN
    | Eq, Gt => Infinity
    | Eq, Lt => NegInfinity
    | _, _ => Finite (Qred (p / q))
    end
  | Finite _, _ => Finite 0
  | _, Finite q =>
    match a, Qcompare q 0 with
    | Infinity, Lt | NegInfinity, (Eq | Gt) => NegInfinity
    | _, _ => Infinity
    end
  | _, _ => NaN
  end.

(** [Math.abs] *)
Definition abs (a : number) : number :=
  match a with
  | Finite q => Finite (Qred (Qabs q))
  | Infinity | NegInfinity => Infinity
  | NaN => NaN
  end.
End Number.

(** ** class SatisfactionAnalyzer *)

Module SatisfactionAnalyzer.

Record t := {
  matching : list (value * value);
  studentPrefs : list (list nat);
  establishmentPrefs : list (list nat);
  n : nat
}.

Definition constructor (matching : list (value * value))
    (studentPrefs establishmentPrefs : list (list nat)) : t :=
  {| matching := matching; studentPrefs := studentPrefs;
     establishmentPrefs := establishmentPrefs; n := length studentPrefs |}.

(** [isStudent ? matching.get(i)
               : Array.from(matching.entries()).find(([_, e]) => e === i)?.[0]] *)
Definition partner_of (matching : list (value * value)) (isStudent : bool)
    (i : nat) : value :=
  if isStudent then mjoin (JsMap.get matching (Some i))
  else JsMap.find_key matching (Some i).

(** [prefs[i].indexOf(partner)] for the partner of [i]. *)
Definition rank_of (prefs : list (list nat)) (matching : list (value * value))
    (isStudent : bool) (i : nat) : completion Z :=
  let partner := partner_of matching isStudent i in
  ranking ← property (prefs !! i) ;
  Normal (indexOf ranking partner).

Definition averageRank (this : t) (prefs : list (list nat))
    (matching : list (value * value)) (isStudent : bool) : completion number :=
  totalRank ← for_loop (λ i totalRank,
      rank ← rank_of prefs matching isStudent i ;
      Normal (totalRank + rank)%Z) 0 this.(n) 0%Z ;
  Normal (Number.div (Number.of_Z totalRank) (Number.of_Z (Z.of_nat this.(n)))).

Definition topKPercentage (this : t) (prefs : list (list nat))
    (matching : list (value * value)) (k : Z) (isStudent : bool)
    : completion number :=
  count ← for_loop (λ i count,
      rank ← rank_of prefs matching isStudent i ;
      Normal (if decide (rank < k)%Z then (count + 1)%Z else count))
    0 this.(n) 0%Z ;
  Normal (Number.mul (Number.div (Number.of_Z count) (Number.of_Z (Z.of_nat this.(n))))
            (Number.of_Z 100)).

(** [100 * (1 - rank / (this.n - 1))] *)
Definition score (this : t) (rank : Z) : number :=
  Number.mul (Number.of_Z 100)
    (Number.sub (Number.of_Z 1)
       (Number.div (Number.of_Z rank) (Number.of_Z (Z.of_nat this.(n) - 1)))).

Definition satisfactionScore (this : t) (prefs : list (list nat))
    (matching : list (value * value)) (isStudent : bool) : completion number :=
  totalScore ← for_loop (λ i totalScore,
      rank ← rank_of prefs matching isStudent i ;
      Normal (Number.add totalScore (score this rank)))
    0 this.(n) (Number.of_Z 0) ;
  Normal (Number.div totalScore (Number.of_Z (Z.of_nat this.(n)))).

Definition egalitarianCost (this : t) (matching : list (value * value))
    : completion Z :=
  for_loop (λ s cost,
      let e : value := mjoin (JsMap.get matching (Some s)) in
      studentRanking ← property (this.(studentPrefs) !! s) ;
      let studentRank := indexOf studentRanking e in
      estabRanking ← property (e ≫= (this.(establishmentPrefs) !!.)) ;
      let estabRank := indexOf estabRanking (Some s) in
      Normal (cost + (studentRank + estabRank))%Z)
    0 this.(n) 0%Z.

Definition sexEquality (this : t) (matching : list (value * value))
    : completion number :=
  studentSat ← satisfactionScore this this.(studentPrefs) matching true ;
  estabSat ← satisfactionScore this this.(establishmentPrefs) matching false ;
  Normal (Number.abs (Number.sub studentSat estabSat)).

(** The report of [fullAnalysis]. *)
Module Report.
Record side := {
  avgRank : number; top1 : number; top3 : number; satisfaction : number
}.
Record overall_metrics := { egalitarianCost : Z; sexEquality : number }.
Record t := { students : side; establishments : side; overall : overall_metrics }.
End Report.

Definition side_report (this : t) (prefs : list (list nat))
    (matching : list (value * value)) (isStudent : bool)
    : completion Report.side :=
  avgRank ← averageRank this prefs matching isStudent ;
  top1 ← topKPercentage this prefs matching 1 isStudent ;
  top3 ← topKPercentage this prefs matching 3 isStudent ;
  satisfaction ← satisfactionScore this prefs matching isStudent ;
  Normal {| Report.avgRank := avgRank; Report.top1 := top1;
            Report.top3 := top3; Report.satisfaction := satisfaction |}.

Definition fullAnalysis (this : t) (matching : list (value * value))
    : completion Report.t :=
  students ← side_report this this.(studentPrefs) matching true ;
  establishments ← side_report this this.(establishmentPrefs) matching false ;
  cost ← egalitarianCost this matching ;
  equality ← sexEquality this matching ;
  Normal {| Report.students := students;
            Report.establishments := establishments;
            Report.overall := {| Report.egalitarianCost := cost;
                                 Report.sexEquality := equality |} |}.

End SatisfactionAnalyzer.


(** ** Valid instances, perfect matchings, the invariant of the loop *)

Module SMA := StableMarriageAlgorithm.

(** A preference list that is a strict total order over the [n] participants
    of the other side: every identifier below [n], once. *)
Definition total_order (n : nat) (prefs : list nat) : Prop := prefs ≡ₚ seq 0 n.

(** Two sides of [n] participants, numbered from [0], and one total order per
    participant. *)
Definition valid (this : SMA.t) : Prop :=
  SMA.students this ≡ₚ seq 0 (SMA.n this) ∧
  SMA.establishments this ≡ₚ seq 0 (SMA.n this) ∧
  length (SMA.studentPrefs this) = SMA.n this ∧
  Forall (total_order (SMA.n this)) (SMA.studentPrefs this) ∧
  length (SMA.establishmentPrefs this) = SMA.n this ∧
  Forall (total_order (SMA.n this)) (SMA.establishmentPrefs this).

Global Instance valid_dec this : Decision (valid this).
Proof. unfold valid, total_order. apply _. Defined.

(** A preference list that the constructor ought to refuse: wrong length, a
    repeated entry, or a participant left out. *)
Definition malformed (n : nat) (prefs : list nat) : Prop :=
  length prefs ≠ n ∨ ¬ NoDup prefs ∨ ∃ x, x < n ∧ x ∉ prefs.

(** The same instance with the two sides exchanged. *)
Definition mirror (this : SMA.t) : SMA.t :=
  {| SMA.students := SMA.establishments this;
     SMA.establishments := SMA.students this;
     SMA.studentPrefs := SMA.establishmentPrefs this;
     SMA.establishmentPrefs := SMA.studentPrefs this;
     SMA.n := SMA.n this;
     SMA.proposalCounts := SMA.proposalCounts this |}.

(** A matching in which every student is a key exactly once and every
    establishment a value exactly once. *)
Definition perfect (n : nat) (matching : list (value * value)) : Prop :=
  matching.*1 ≡ₚ Some <$> seq 0 n ∧ matching.*2 ≡ₚ Some <$> seq 0 n.

Global Instance perfect_dec n matching : Decision (perfect n matching).
Proof. unfold perfect. apply _. Defined.

(** [(k, v) ↦ (v, k)] on the entries of [engaged]. *)
Definition flip (kv : value * nat) : value * value := (Some kv.2, kv.1).

(** The states a run of a loop goes through. *)
Inductive sp_reachable (this0 : SMA.t) : SMA.t → SMA.loop_state → Prop :=
  | sp_start : sp_reachable this0 this0 (SMA.initial (SMA.students this0))
  | sp_turn this st student rest this' st' :
      sp_reachable this0 this st →
      SMA.free st = student :: rest →
      SMA.sp_body this st student = (this', Normal st') →
      sp_reachable this0 this' st'.

Inductive ep_reachable (this : SMA.t) : SMA.loop_state → Prop :=
  | ep_start : ep_reachable this (SMA.initial (SMA.establishments this))
  | ep_turn st establishment rest st' :
      ep_reachable this st →
      SMA.free st = establishment :: rest →
      SMA.ep_body this st establishment = Normal st' →
      ep_reachable this st'.

(** The next turn of the loop takes the branch of the exhausted proposer:
    the first free proposer has its cursor at [n] or beyond. *)
Definition exhausted (this : SMA.t) (st : SMA.loop_state) : Prop :=
  ∃ proposer rest proposalIndex,
    SMA.free st = proposer :: rest ∧
    JsMap.get (SMA.proposals st) proposer = Some proposalIndex ∧
    SMA.n this ≤ proposalIndex.

(** The theory is developed on the establishments-propose loop: proposers are
    establishments, receivers are students.  The students-propose loop is the
    same loop on the mirrored instance. *)

(** [establishmentPrefs[p][i]] *)
Definition choice (this : SMA.t) (p i : nat) : value :=
  SMA.establishmentPrefs this !! p ≫= (.!! i).

(** [studentPrefs[r].indexOf(q)] *)
Definition rank (this : SMA.t) (r q : nat) : Z :=
  match SMA.studentPrefs this !! r with
  | Some ranking => indexOf ranking (Some q)
  | None => (-1)%Z
  end.

Definition cursor (st : SMA.loop_state) (p : nat) : option nat :=
  JsMap.get (SMA.proposals st) p.

Definition holder (st : SMA.loop_state) (r : nat) : option nat :=
  JsMap.get (SMA.engaged st) (Some r).

(** What every turn of the loop keeps true on a valid instance. *)
Record Inv (this : SMA.t) (st : SMA.loop_state) : Prop := {
  inv_free_NoDup : NoDup (SMA.free st);
  inv_free_lt : ∀ p, p ∈ SMA.free st → p < SMA.n this;
  inv_cursor : ∀ p, p < SMA.n this → ∃ c, cursor st p = Some c ∧ c ≤ SMA.n this;
  inv_keys_NoDup : NoDup (SMA.engaged st).*1;
  inv_keys : JsMap.get (SMA.engaged st) None = None;
  inv_engaged : ∀ r q, holder st r = Some q →
    q < SMA.n this ∧ (q ∉ SMA.free st) ∧
    ∃ c, cursor st q = Some (S c) ∧ choice this q c = Some r;
  inv_cover : ∀ p, p < SMA.n this →
    p ∈ SMA.free st ∨ ∃ r, holder st r = Some p;
  inv_rejected : ∀ p c i r, cursor st p = Some c → i < c →
    choice this p i = Some r →
    ∃ q, holder st r = Some q ∧ (rank this r q ≤ rank this r p)%Z
}.

(** The state after a proposal of [p], whose cursor is at [c], to [r]. *)
Definition proposed (this : SMA.t) (st : SMA.loop_state) (p c r : nat)
    : SMA.loop_state :=
  let proposals := JsMap.set p (c + 1) (SMA.proposals st) in
  match holder st r with
  | None =>
      {| SMA.engaged := JsMap.set (Some r) p (SMA.engaged st);
         SMA.free := JsSet.delete p (SMA.free st);
         SMA.proposals := proposals |}
  | Some q =>
      if decide (rank this r p < rank this r q)%Z then
        {| SMA.engaged := JsMap.set (Some r) p (SMA.engaged st);
           SMA.free := JsSet.add q (JsSet.delete p (SMA.free st));
           SMA.proposals := proposals |}
      else
        {| SMA.engaged := SMA.engaged st; SMA.free := SMA.free st;
           SMA.proposals := proposals |}
  end.

(** No proposer has been turned down or dropped by its partner in the
    matching [M], given as a relation between proposers and receivers. *)
Definition never_refused (this : SMA.t) (M : nat → nat → Prop)
    (st : SMA.loop_state) : Prop :=
  ∀ p c i r, cursor st p = Some c → i < c → choice this p i = Some r →
    M p r → holder st r = Some p.

(** The array [proposalCounts] follows the cursors of the students-propose
    loop: student [s] stands at [base s] plus its cursor. *)
Definition counts_follow (base : nat → nat) (n : nat) (counts : list slot)
    (st : SMA.loop_state) : Prop :=
  length counts = n ∧
  ∀ s c, s < n → cursor st s = Some c → counts !! s = Some (Count (base s + c)).

(** The cursors of the [n] proposers, as an array. *)
Definition cursors (n : nat) (st : SMA.loop_state) : list nat :=
  (λ p, default 0 (cursor st p)) <$> seq 0 n.

(** The receiver that proposer [p] proposed to last, [prefs[p][made - 1]],
    when it has made [made] proposals. *)
Definition last_proposal (prefs : list (list nat)) (made : option nat) (p : nat)
    : value :=
  match made with
  | Some (S c) => prefs !! p ≫= (.!! c)
  | _ => None
  end.

(** [counts[s]] when it is a count. *)
Definition count_at (counts : list slot) (s : nat) : option nat :=
  match counts !! s with
  | Some (Count k) => Some k
  | _ => None
  end.

(** Every entry of [matching] sends a proposer to the receiver of its last
    proposal. [made p] is the number of proposals of [p]. *)
Definition keyed_by_proposer (prefs : list (list nat)) (made : nat → option nat)
    (matching : list (value * value)) : Prop :=
  ∀ k v, (k, v) ∈ matching →
    ∃ p, k = Some p ∧ is_Some v ∧ v = last_proposal prefs (made p) p.

(** Every entry of [matching] sends a receiver to the proposer whose last
    proposal it was. *)
Definition keyed_by_receiver (prefs : list (list nat)) (made : nat → option nat)
    (matching : list (value * value)) : Prop :=
  ∀ k v, (k, v) ∈ matching →
    ∃ p, v = Some p ∧ is_Some k ∧ k = last_proposal prefs (made p) p.

(** Everybody who is free or held has a cursor: what keeps the loops away
    from [NoCursor], on any instance. *)
Definition has_cursors (st : SMA.loop_state) : Prop :=
  (∀ p, p ∈ SMA.free st → is_Some (cursor st p)) ∧
  (∀ k q, (k, q) ∈ SMA.engaged st → is_Some (cursor st q)).

(** The verdict of [verifyStability] on a stable matching. *)
Definition stable_verdict : completion SMA.verdict :=
  Normal {| SMA.stable := true; SMA.blockingPairs := [] |}.

(** ** Instances used as examples *)

(** [new StableMarriageAlgorithm(students, establishments, studentPrefs,
    establishmentPrefs)], unwrapped: the constructor always completes. *)
Definition instance (students establishments : list nat)
    (studentPrefs establishmentPrefs : list (list nat)) : SMA.t :=
  match SMA.constructor students establishments studentPrefs establishmentPrefs with
  | Normal this => this
  | Throw _ => {| SMA.students := []; SMA.establishments := [];
                  SMA.studentPrefs := []; SMA.establishmentPrefs := [];
                  SMA.n := 0; SMA.proposalCounts := [] |}
  end.

(** Two students who both prefer establishment 0, two establishments that
    both prefer student 1. *)
Definition two_by_two : SMA.t :=
  instance [0; 1] [0; 1] [[0; 1]; [0; 1]] [[1; 0]; [1; 0]].

(** Three a side; every establishment gets its first choice, and the
    matching is a cycle: student 0 with establishment 2, 1 with 0, 2 with 1. *)
Definition three_cycle : SMA.t :=
  instance [0; 1; 2] [0; 1; 2]
    [[0; 1; 2]; [1; 2; 0]; [2; 0; 1]] [[1; 2; 0]; [2; 0; 1]; [0; 1; 2]].

(** One a side. *)
Definition one_by_one : SMA.t := instance [0] [0] [[0]] [[0]].

(** Student 0 lists establishment 0 twice and leaves establishment 1 out. *)
Definition repeated_entry : SMA.t :=
  instance [0; 1] [0; 1] [[0; 0]; [0; 1]] [[0; 1]; [0; 1]].

(** The number of proposals still possible: it bounds the turns left. *)
Definition slack (n : nat) (proposals : list (nat * nat)) : nat :=
  sum_list ((λ kv, n - kv.2) <$> proposals).

(** ** Preference generation: [shuffle], [generateRandomPreferences]

    [Math.random()] is a source of numbers: its [k]-th call returns [rnd k],
    and the state is the number of calls made so far.  The numbers are exact
    rationals, as in the metrics. *)

(** The contract of [Math.random]: every number is at least 0 and below 1. *)
Definition unit_interval (rnd : nat → Q) : Prop := ∀ k, (0 <= rnd k < 1)%Q.






(** What [generateRandomPreferences] returns. *)
Module Generated.
Record t := {
  students : list nat;
  establishments : list nat;
  studentPrefs : list (list nat);
  establishmentPrefs : list (list nat)
}.
End Generated.


(** ** The component [App]: [runExperiment] and the size field *)

(** The object given to [setResults]. *)
Module StudentsRun.
Record t := {
  analysis : SatisfactionAnalyzer.Report.t;
  stability : SMA.verdict;
  proposals : list slot
}.
End StudentsRun.

Module EstablishmentsRun.
Record t := {
  analysis : SatisfactionAnalyzer.Report.t;
  stability : SMA.verdict
}.
End EstablishmentsRun.

Module Results.
Record t := {
  studentsPropose : StudentsRun.t;
  establishmentsPropose : EstablishmentsRun.t
}.
End Results.



(** ** Blocking pairs, as [verifyStability] tests them *)

(** Student [s] ranks establishment [e] ahead of [matching.get(s)], some
    student [matchedS] is found with [e], and [e] ranks [s] ahead of
    [matchedS]. *)
Definition blocking (this : SMA.t) (matching : list (value * value))
    (s e : nat) : Prop :=
  ∃ prefs ranking matchedS,
    SMA.studentPrefs this !! s = Some prefs ∧
    SMA.establishmentPrefs this !! e = Some ranking ∧
    (0 ≤ indexOf prefs (Some e) <
       indexOf prefs (mjoin (JsMap.get matching (Some s))))%Z ∧
    JsMap.find_key matching (Some e) = Some matchedS ∧
    (indexOf ranking (Some s) < indexOf ranking (Some matchedS))%Z.

(** What bounds the turns of a loop on any instance: the proposals still
    possible and the proposers still free. *)
Definition turns_left (n : nat) (st : SMA.loop_state) : nat :=
  slack n (SMA.proposals st) + length (SMA.free st).

(** [Σ f(i)] for [i] from [lo] to [lo + count - 1]. *)
Definition Zsum (f : nat → Z) (lo count : nat) : Z :=
  foldr Z.add 0%Z (f <$> seq lo count).

(** The rank that the metrics read for participant [i], [0] if reading it
    throws. *)
Definition rank_at (prefs : list (list nat)) (matching : list (value * value))
    (isStudent : bool) (i : nat) : Z :=
  match SatisfactionAnalyzer.rank_of prefs matching isStudent i with
  | Normal r => r
  | Throw _ => 0%Z
  end.

(** [establishmentPrefs[e].indexOf(s)] for an entry [s ↦ e] of a matching. *)
Definition entry_rank (establishmentPrefs : list (list nat))
    (entry : value * value) : Z :=
  match entry.2 ≫= (establishmentPrefs !!.) with
  | Some ranking => indexOf ranking entry.1
  | None => 0%Z
  end.

(** * Properties *)

(** ** Maps, sets and [indexOf] *)

Section JsMap_facts.
Context {K V : Type} `{EqDecision K}.
Implicit Types (m : list (K * V)) (k : K) (v : V).

Lemma get_set m k v k' :
  JsMap.get (JsMap.set k v m) k' = if decide (k = k') then Some v else JsMap.get m k'.
Proof.
  induction m as [|[k0 v0] m IH]; simpl.
  - repeat case_decide; congruence.
  - destruct (decide (k0 = k)) as [->|Hne]; simpl.
    + repeat case_decide; congruence.
    + rewrite IH. repeat case_decide; congruence.
Qed.

Lemma get_set_eq m k v : JsMap.get (JsMap.set k v m) k = Some v.
Proof. rewrite get_set. by case_decide. Qed.

Lemma get_set_ne m k v k' : k ≠ k' → JsMap.get (JsMap.set k v m) k' = JsMap.get m k'.
Proof. intros. rewrite get_set. by case_decide. Qed.

Lemma get_Some_elem_of m k v : JsMap.get m k = Some v → (k, v) ∈ m.
Proof.
  induction m as [|[k0 v0] m IH]; simpl; [done|].
  case_decide as Hk; intros Hg.
  - injection Hg as <-. subst k0. left.
  - right. auto.
Qed.

Lemma get_None_keys m k : JsMap.get m k = None ↔ k ∉ m.*1.
Proof.
  induction m as [|[k0 v0] m IH]; csimpl.
  - split; [intros _; apply not_elem_of_nil | done].
  - rewrite not_elem_of_cons. case_decide; subst.
    + split; [done | intros [? _]; done].
    + rewrite IH. naive_solver.
Qed.

Lemma elem_of_get m k v : NoDup m.*1 → (k, v) ∈ m → JsMap.get m k = Some v.
Proof.
  induction m as [|[k0 v0] m IH]; csimpl; intros Hnd Hin.
  - by apply elem_of_nil in Hin.
  - apply NoDup_cons in Hnd as [Hk0 Hnd].
    apply elem_of_cons in Hin as [Heq|Hin]; simplify_eq.
    + by case_decide.
    + case_decide; [|by auto]. subst. destruct Hk0.
      apply list_elem_of_fmap. by exists (k, v).
Qed.

Lemma keys_set m k v :
  (JsMap.set k v m).*1 = if decide (k ∈ m.*1) then m.*1 else m.*1 ++ [k].
Proof.
  induction m as [|[k0 v0] m IH]; csimpl.
  - done.
  - destruct (decide (k0 = k)) as [->|Hne]; csimpl.
    + rewrite decide_True; [done | left].
    + rewrite IH. destruct (decide (k ∈ m.*1)) as [Hin|Hnin].
      * rewrite decide_True; [done | by right].
      * rewrite decide_False; [done|]. rewrite not_elem_of_cons. auto.
Qed.

Lemma NoDup_keys_set m k v : NoDup m.*1 → NoDup (JsMap.set k v m).*1.
Proof.
  intros Hnd. rewrite keys_set. case_decide; [done|].
  apply NoDup_app. split_and!; [done | | apply NoDup_singleton].
  intros x Hx ->%list_elem_of_singleton. done.
Qed.
End JsMap_facts.

Section JsSet_facts.
Context {A : Type} `{EqDecision A}.
Implicit Types (s l : list A) (x y : A).

Lemma elem_of_add s x y : y ∈ JsSet.add x s ↔ y = x ∨ y ∈ s.
Proof.
  unfold JsSet.add. case_decide.
  - naive_solver.
  - rewrite elem_of_app, list_elem_of_singleton. naive_solver.
Qed.

Lemma elem_of_delete s x y : y ∈ JsSet.delete x s ↔ y ∈ s ∧ y ≠ x.
Proof. unfold JsSet.delete. rewrite list_elem_of_filter. naive_solver. Qed.

Lemma NoDup_add s x : NoDup s → NoDup (JsSet.add x s).
Proof.
  intros Hnd. unfold JsSet.add. case_decide; [done|].
  apply NoDup_app. split_and!; [done | | apply NoDup_singleton].
  intros z Hz ->%list_elem_of_singleton. done.
Qed.

Lemma NoDup_delete s x : NoDup s → NoDup (JsSet.delete x s).
Proof. apply NoDup_filter. Qed.

Lemma length_delete s x : length (JsSet.delete x s) ≤ length s.
Proof. apply length_filter. Qed.

Lemma of_array_app_NoDup s l :
  NoDup (s ++ l) → foldl (λ s x, JsSet.add x s) s l = s ++ l.
Proof.
  revert s. induction l as [|x l IH]; intros s Hnd; simpl.
  - by rewrite app_nil_r.
  - unfold JsSet.add at 2. rewrite decide_False.
    + rewrite IH; rewrite <- app_assoc; done.
    + apply NoDup_app in Hnd as (_ & Hdisj & _). intros Hin.
      apply (Hdisj x Hin). left.
Qed.

Lemma of_array_NoDup l : NoDup l → JsSet.of_array l = l.
Proof. intros. by apply (of_array_app_NoDup []). Qed.
End JsSet_facts.

Section indexOf_facts.
Implicit Types (l : list nat) (x : nat).

Lemma indexOf_undefined l : indexOf l None = (-1)%Z.
Proof.
  unfold indexOf. destruct (list_find _ l) as [[i y]|] eqn:Hf; [|done].
  apply list_find_Some in Hf as (_ & ? & _). done.
Qed.

Lemma indexOf_bounds l v : (-1 ≤ indexOf l v < Z.of_nat (length l))%Z.
Proof.
  unfold indexOf. destruct (list_find _ l) as [[i y]|] eqn:Hf; [|lia].
  apply list_find_Some in Hf as (Hi%lookup_lt_Some & _). lia.
Qed.

Lemma indexOf_Some l x i :
  indexOf l (Some x) = Z.of_nat i ↔ l !! i = Some x ∧ ∀ j, j < i → l !! j ≠ Some x.
Proof.
  unfold indexOf. destruct (list_find _ l) as [[i' y]|] eqn:Hf.
  - apply list_find_Some in Hf as (Hi & Hy & Hmin).
    assert (y = x) as -> by congruence. split.
    + intros ->%Nat2Z.inj. split; [done|]. intros j Hj Hl.
      by apply (Hmin j x Hl Hj).
    + intros [Hl Hfirst]. f_equal.
      destruct (Nat.lt_trichotomy i i') as [Hlt|[->|Hlt]]; [|done|].
      * by destruct (Hmin i x Hl Hlt).
      * by destruct (Hfirst i' Hlt).
  - split; [lia|]. intros [Hl _].
    eapply list_find_None, Forall_lookup in Hf; [|exact Hl]. done.
Qed.

Lemma indexOf_lookup l x i : NoDup l → l !! i = Some x → indexOf l (Some x) = Z.of_nat i.
Proof.
  intros Hnd Hl. apply indexOf_Some. split; [done|]. intros j Hj Hl'.
  pose proof (NoDup_lookup _ _ _ _ Hnd Hl Hl'). lia.
Qed.

Lemma indexOf_absent l v : (∀ x, v = Some x → x ∉ l) → indexOf l v = (-1)%Z.
Proof.
  intros Hv. unfold indexOf.
  destruct (list_find _ l) as [[i y]|] eqn:Hf; [|done].
  apply list_find_Some in Hf as (Hl & -> & _).
  destruct (Hv y eq_refl). by eapply list_elem_of_lookup_2.
Qed.

Lemma indexOf_nonneg l v :
  (0 ≤ indexOf l v)%Z → ∃ x, v = Some x ∧ l !! Z.to_nat (indexOf l v) = Some x.
Proof.
  unfold indexOf. destruct (list_find _ l) as [[i y]|] eqn:Hf; [|lia].
  apply list_find_Some in Hf as (Hl & -> & _). intros _.
  exists y. by rewrite Nat2Z.id.
Qed.
End indexOf_facts.

(** ** No run reaches [NoCursor] *)

Lemma elem_of_set {K V} `{EqDecision K} (m : list (K * V)) k v kv :
  kv ∈ JsMap.set k v m → kv = (k, v) ∨ kv ∈ m.
Proof.
  induction m as [|[k0 v0] m IH]; simpl.
  - intros ->%list_elem_of_singleton. by left.
  - case_decide; rewrite !elem_of_cons; naive_solver.
Qed.

Lemma elem_of_of_array (s xs : list nat) x :
  x ∈ foldl (λ s x, JsSet.add x s) s xs ↔ x ∈ s ∨ x ∈ xs.
Proof.
  revert s. induction xs as [|y xs IH]; intros s; simpl.
  - rewrite elem_of_nil. naive_solver.
  - rewrite IH, elem_of_add, elem_of_cons. naive_solver.
Qed.

Lemma zero_cursors_is_Some (m : list (nat * nat)) (xs : list nat) x :
  x ∈ xs ∨ is_Some (JsMap.get m x) →
  is_Some (JsMap.get (foldl (λ m x, JsMap.set x 0 m) m xs) x).
Proof.
  revert m. induction xs as [|y xs IH]; intros m; simpl.
  - rewrite elem_of_nil. naive_solver.
  - rewrite elem_of_cons. intros Hx. apply IH. rewrite get_set.
    case_decide; naive_solver.
Qed.

Lemma has_cursors_initial xs : has_cursors (SMA.initial xs).
Proof.
  split; simpl.
  - intros p [Hp|Hp]%elem_of_of_array; [by apply elem_of_nil in Hp|].
    apply zero_cursors_is_Some. by left.
  - intros k q Hin. by apply elem_of_nil in Hin.
Qed.

Lemma ep_body_has_cursors this st p st' :
  has_cursors st → p ∈ SMA.free st → SMA.ep_body this st p = Normal st' →
  has_cursors st'.
Proof.
  intros [Hfree Heng] Hp. unfold SMA.ep_body.
  assert (∀ c x, is_Some (cursor st x) →
    is_Some (JsMap.get (JsMap.set p c (SMA.proposals st)) x)) as Hset.
  { intros c x Hx. rewrite get_set. by case_decide. }
  repeat case_match; try done; intros [= <-]; split; unfold cursor; simpl.
  - intros x [Hx _]%elem_of_delete. by apply Hfree.
  - done.
  - intros x [->|[Hx _]%elem_of_delete]%elem_of_add; apply Hset; [|by auto].
    eapply Heng. by eapply get_Some_elem_of.
  - intros k q [[= -> ->]|Hin]%elem_of_set; apply Hset; [by auto|by eauto].
  - intros x Hx. by apply Hset, Hfree.
  - intros k q Hin. by eapply Hset, Heng.
  - intros x [Hx _]%elem_of_delete. by apply Hset, Hfree.
  - intros k q [[= -> ->]|Hin]%elem_of_set; apply Hset; [by auto|by eauto].
Qed.

(** The establishments-propose loop never ends on [NoCursor]. *)
Lemma ep_while_cursor this fuel st :
  has_cursors st → SMA.ep_while fuel this st ≠ Some (Throw NoCursor).
Proof.
  revert st. induction fuel as [|fuel IH]; intros st Hst; simpl; [done|].
  destruct (SMA.free st) as [|p rest] eqn:Hfree; [done|].
  assert (p ∈ SMA.free st) as Hp by (rewrite Hfree; left).
  destruct (SMA.ep_body this st p) as [st'|e] eqn:Hbody.
  - apply IH. by eapply ep_body_has_cursors.
  - intros [= ->]. unfold SMA.ep_body in Hbody.
    destruct Hst as [Hcur _]. destruct (Hcur p Hp) as [c Hc].
    unfold cursor in Hc. rewrite Hc in Hbody.
    repeat case_match; done.
Qed.

(** ** Preference lists of a valid instance *)

Section total_order_facts.
Context (n : nat) (l : list nat) (Hl : total_order n l).

Lemma total_order_NoDup : NoDup l.
Proof. unfold total_order in Hl. rewrite Hl. apply NoDup_seq. Qed.

Lemma total_order_length : length l = n.
Proof. unfold total_order in Hl. by rewrite Hl, length_seq. Qed.

Lemma total_order_elem_of x : x ∈ l ↔ x < n.
Proof. unfold total_order in Hl. rewrite Hl, elem_of_seq. lia. Qed.

Lemma total_order_lookup i : i < n → ∃ x, l !! i = Some x ∧ x < n.
Proof.
  intros Hi. destruct (lookup_lt_is_Some_2 l i) as [x Hx].
  - by rewrite total_order_length.
  - exists x. split; [done|]. apply total_order_elem_of.
    by eapply list_elem_of_lookup_2.
Qed.

Lemma total_order_lookup_lt i x : l !! i = Some x → i < n ∧ x < n.
Proof.
  intros Hx. split.
  - rewrite <- total_order_length. by eapply lookup_lt_Some.
  - apply total_order_elem_of. by eapply list_elem_of_lookup_2.
Qed.

Lemma total_order_position x : x < n → ∃ i, i < n ∧ l !! i = Some x.
Proof.
  intros Hx%total_order_elem_of. apply list_elem_of_lookup in Hx as [i Hi].
  exists i. split; [|done]. by destruct (total_order_lookup_lt i x Hi).
Qed.

Lemma total_order_indexOf i x : l !! i = Some x → indexOf l (Some x) = Z.of_nat i.
Proof. apply indexOf_lookup, total_order_NoDup. Qed.

Lemma total_order_indexOf_inj x y :
  x < n → indexOf l (Some x) = indexOf l (Some y) → x = y.
Proof.
  intros [i [_ Hi]]%total_order_position Heq.
  rewrite (total_order_indexOf i x Hi) in Heq. symmetry in Heq.
  apply indexOf_Some in Heq as [Hy _]. congruence.
Qed.
End total_order_facts.

(** ** Cursors *)

Lemma set_fresh {K V} `{EqDecision K} (m : list (K * V)) k v :
  k ∉ m.*1 → JsMap.set k v m = m ++ [(k, v)].
Proof.
  induction m as [|[k0 v0] m IH]; csimpl; [done|].
  rewrite not_elem_of_cons. intros [Hne Hnin].
  rewrite decide_False by done. by rewrite IH.
Qed.

Lemma zero_cursors_app (m : list (nat * nat)) (xs : list nat) :
  NoDup (m.*1 ++ xs) →
  foldl (λ m x, JsMap.set x 0 m) m xs = m ++ ((λ x, (x, 0)) <$> xs).
Proof.
  revert m. induction xs as [|x xs IH]; intros m Hnd; csimpl.
  - by rewrite app_nil_r.
  - rewrite set_fresh.
    + rewrite IH; rewrite ?fmap_app, <- ?app_assoc; done.
    + apply NoDup_app in Hnd as (_ & Hdisj & _). intros Hin.
      apply (Hdisj x Hin). left.
Qed.

Lemma zero_cursors_NoDup (xs : list nat) :
  NoDup xs → SMA.zero_cursors xs = (λ x, (x, 0)) <$> xs.
Proof. intros. by apply (zero_cursors_app []). Qed.

Lemma get_zero_cursors (xs : list nat) x c :
  NoDup xs → JsMap.get (SMA.zero_cursors xs) x = Some c → c = 0.
Proof.
  intros Hnd. rewrite zero_cursors_NoDup by done.
  intros Hg%get_Some_elem_of. apply list_elem_of_fmap in Hg as (y & Heq & _).
  congruence.
Qed.

Lemma get_zero_cursors_elem_of (xs : list nat) x :
  NoDup xs → x ∈ xs → JsMap.get (SMA.zero_cursors xs) x = Some 0.
Proof.
  intros Hnd Hx. rewrite zero_cursors_NoDup by done. apply elem_of_get.
  - rewrite <- list_fmap_compose. by rewrite list_fmap_id.
  - apply list_elem_of_fmap. by exists x.
Qed.

Lemma slack_zero_cursors n (xs : list nat) :
  NoDup xs → slack n (SMA.zero_cursors xs) = length xs * n.
Proof.
  intros Hnd. rewrite zero_cursors_NoDup by done. unfold slack.
  induction xs as [|x xs IH]; csimpl; [done|].
  apply NoDup_cons in Hnd as [_ Hnd]. rewrite IH by done. lia.
Qed.

Lemma slack_set n (m : list (nat * nat)) k c :
  JsMap.get m k = Some c → c < n →
  slack n (JsMap.set k (c + 1) m) + 1 = slack n m.
Proof.
  unfold slack. induction m as [|[k0 c0] m IH]; csimpl; [done|].
  case_decide; csimpl.
  - intros [= ->] Hc. lia.
  - intros Hg Hc. specialize (IH Hg Hc). lia.
Qed.

(** ** The invariant of the establishments-propose loop *)

Section loop_facts.
Context (this : SMA.t) (Hvalid : valid this).
Implicit Types (st : SMA.loop_state) (p q r c i : nat).

Lemma valid_proposer_prefs p :
  p < SMA.n this →
  ∃ l, SMA.establishmentPrefs this !! p = Some l ∧ total_order (SMA.n this) l.
Proof.
  destruct Hvalid as (_ & _ & _ & _ & Hlen & Hall). intros Hp.
  destruct (lookup_lt_is_Some_2 (SMA.establishmentPrefs this) p) as [l Hl]; [lia|].
  exists l. split; [done|]. by eapply Forall_lookup_1.
Qed.

Lemma valid_receiver_prefs r :
  r < SMA.n this →
  ∃ l, SMA.studentPrefs this !! r = Some l ∧ total_order (SMA.n this) l.
Proof.
  destruct Hvalid as (_ & _ & Hlen & Hall & _). intros Hr.
  destruct (lookup_lt_is_Some_2 (SMA.studentPrefs this) r) as [l Hl]; [lia|].
  exists l. split; [done|]. by eapply Forall_lookup_1.
Qed.

Lemma choice_Some p i r :
  choice this p i = Some r → p < SMA.n this ∧ i < SMA.n this ∧ r < SMA.n this.
Proof.
  unfold choice. destruct (SMA.establishmentPrefs this !! p) as [l|] eqn:Hl; [|done].
  simpl. intros Hi.
  assert (p < SMA.n this) as Hp.
  { destruct Hvalid as (_ & _ & _ & _ & Hlen & _). rewrite <- Hlen.
    by eapply lookup_lt_Some. }
  destruct (valid_proposer_prefs p Hp) as (l' & Hl' & Hord).
  assert (l' = l) as -> by congruence.
  destruct (total_order_lookup_lt _ _ Hord _ _ Hi). done.
Qed.

Lemma choice_defined p i :
  p < SMA.n this → i < SMA.n this → ∃ r, choice this p i = Some r ∧ r < SMA.n this.
Proof.
  intros (l & Hl & Hord)%valid_proposer_prefs Hi. unfold choice. rewrite Hl. simpl.
  by apply (total_order_lookup _ _ Hord).
Qed.

Lemma choice_inj p i j r :
  choice this p i = Some r → choice this p j = Some r → i = j.
Proof.
  intros Hi Hj. destruct (choice_Some _ _ _ Hi) as (Hp & _).
  destruct (valid_proposer_prefs p Hp) as (l & Hl & Hord).
  unfold choice in *. rewrite Hl in Hi, Hj. simpl in *.
  eapply NoDup_lookup; [by eapply total_order_NoDup | done..].
Qed.

Lemma choice_surj p r :
  p < SMA.n this → r < SMA.n this → ∃ i, i < SMA.n this ∧ choice this p i = Some r.
Proof.
  intros (l & Hl & Hord)%valid_proposer_prefs Hr. unfold choice. rewrite Hl. simpl.
  by apply (total_order_position _ _ Hord).
Qed.

Lemma rank_inj r q q' :
  r < SMA.n this → q < SMA.n this → rank this r q = rank this r q' → q = q'.
Proof.
  intros (l & Hl & Hord)%valid_receiver_prefs Hq. unfold rank. rewrite Hl.
  by apply (total_order_indexOf_inj _ _ Hord).
Qed.

Lemma cursor_proposed st p c r x :
  cursor (proposed this st p c r) x =
    if decide (p = x) then Some (c + 1) else cursor st x.
Proof.
  unfold proposed, cursor.
  destruct (holder st r); [case_decide|]; simpl; apply get_set.
Qed.

Lemma engaged_inj st r r' q :
  Inv this st → holder st r = Some q → holder st r' = Some q → r = r'.
Proof.
  intros HI H1 H2.
  destruct (inv_engaged _ _ HI _ _ H1) as (_ & _ & c1 & Hc1 & Hch1).
  destruct (inv_engaged _ _ HI _ _ H2) as (_ & _ & c2 & Hc2 & Hch2).
  congruence.
Qed.

(** Pigeonhole: a free proposer has not yet proposed to everybody. *)
Lemma free_cursor_lt st p c :
  Inv this st → p ∈ SMA.free st → cursor st p = Some c → c < SMA.n this.
Proof.
  intros HI Hp Hc.
  assert (p < SMA.n this) as HpN by by apply HI.
  destruct (inv_cursor _ _ HI p HpN) as (c' & Hc' & Hle).
  assert (c' = c) as -> by congruence.
  destruct (decide (c < SMA.n this)) as [|Hge]; [done|]. exfalso.
  assert (∀ r, r < SMA.n this → ∃ q, holder st r = Some q) as Hall.
  { intros r Hr. destruct (choice_surj p r HpN Hr) as (i & Hi & Hch).
    destruct (inv_rejected _ _ HI p c i r Hc) as (q & Hq & _); [lia|done|eauto]. }
  set (f := λ r, default 0 (holder st r)).
  assert (NoDup (p :: (f <$> seq 0 (SMA.n this)))) as Hnd.
  { apply NoDup_cons. split.
    - intros (r & Hpr & Hr%elem_of_seq)%list_elem_of_fmap.
      destruct (Hall r) as [q Hq]; [lia|]. unfold f in Hpr. rewrite Hq in Hpr.
      simpl in Hpr. subst q.
      by destruct (inv_engaged _ _ HI r p Hq) as (_ & Hnf & _).
    - apply NoDup_fmap_2_strong; [|apply NoDup_seq].
      intros x y Hx%elem_of_seq Hy%elem_of_seq Hxy.
      destruct (Hall x) as [qx Hqx]; [lia|]. destruct (Hall y) as [qy Hqy]; [lia|].
      unfold f in Hxy. rewrite Hqx, Hqy in Hxy. simpl in Hxy. subst qy.
      by eapply engaged_inj. }
  assert (p :: (f <$> seq 0 (SMA.n this)) ⊆+ seq 0 (SMA.n this)) as Hsub.
  { apply NoDup_submseteq; [done|]. intros x [->|Hx]%elem_of_cons.
    - apply elem_of_seq. lia.
    - apply list_elem_of_fmap in Hx as (r & -> & Hr%elem_of_seq).
      destruct (Hall r) as [q Hq]; [lia|]. unfold f. rewrite Hq. simpl.
      destruct (inv_engaged _ _ HI r q Hq) as (Hlt & _). apply elem_of_seq. lia. }
  apply submseteq_length in Hsub. simpl in Hsub.
  rewrite length_fmap, length_seq in Hsub. lia.
Qed.

(** The proposal reaches a receiver that nobody holds. *)
Lemma Inv_engage st p c r :
  Inv this st → p ∈ SMA.free st → cursor st p = Some c →
  choice this p c = Some r → holder st r = None →
  Inv this {| SMA.engaged := JsMap.set (Some r) p (SMA.engaged st);
              SMA.free := JsSet.delete p (SMA.free st);
              SMA.proposals := JsMap.set p (c + 1) (SMA.proposals st) |}.
Proof.
  intros HI Hp Hc Hch Hr.
  destruct (choice_Some _ _ _ Hch) as (HpN & HcN & HrN).
  constructor; unfold cursor, holder in *; simpl.
  - apply NoDup_delete, HI.
  - intros x [Hx _]%elem_of_delete. by apply HI.
  - intros x Hx. rewrite get_set. case_decide.
    + exists (c + 1). split; [done|lia].
    + by apply HI.
  - apply NoDup_keys_set, HI.
  - rewrite get_set_ne; [apply HI | done].
  - intros x y. rewrite get_set. case_decide as Hx.
    + intros [= <-]. injection Hx as <-. split_and!; [done| |].
      * rewrite elem_of_delete. naive_solver.
      * exists c. by rewrite get_set_eq, Nat.add_1_r.
    + intros Hy.
      destruct (inv_engaged _ _ HI x y Hy) as (HyN & Hyf & c' & Hc' & Hch').
      split_and!; [done| |].
      * rewrite elem_of_delete. naive_solver.
      * exists c'. rewrite get_set_ne; [done|]. by intros ->.
  - intros x Hx. destruct (decide (x = p)) as [->|Hne].
    + right. exists r. by rewrite get_set_eq.
    + destruct (inv_cover _ _ HI x Hx) as [Hf | [r' Hr']].
      * left. by apply elem_of_delete.
      * right. exists r'. rewrite get_set_ne; [done|]. intros [= ->].
        unfold holder in *. congruence.
  - intros x c' i r'. rewrite get_set. case_decide as Hx.
    + subst x. intros [= <-] Hi Hch'. destruct (decide (i = c)) as [->|Hic].
      * assert (r' = r) as -> by congruence. exists p.
        rewrite get_set_eq. split; [done|lia].
      * destruct (inv_rejected _ _ HI p c i r' Hc) as (q & Hq & Hle); [lia|done|].
        exists q. rewrite get_set_ne; [done|]. intros [= ->].
        unfold holder in *. congruence.
    + intros Hc' Hi Hch'.
      destruct (inv_rejected _ _ HI x c' i r' Hc' Hi Hch') as (q & Hq & Hle).
      exists q. rewrite get_set_ne; [done|]. intros [= ->].
      unfold holder in *. congruence.
Qed.

(** The receiver trades its holder [q] for the better [p]. *)
Lemma Inv_trade st p c r q :
  Inv this st → p ∈ SMA.free st → cursor st p = Some c →
  choice this p c = Some r → holder st r = Some q →
  (rank this r p < rank this r q)%Z →
  Inv this {| SMA.engaged := JsMap.set (Some r) p (SMA.engaged st);
              SMA.free := JsSet.add q (JsSet.delete p (SMA.free st));
              SMA.proposals := JsMap.set p (c + 1) (SMA.proposals st) |}.
Proof.
  intros HI Hp Hc Hch Hr Hlt.
  destruct (choice_Some _ _ _ Hch) as (HpN & HcN & HrN).
  destruct (inv_engaged _ _ HI r q Hr) as (HqN & Hqf & cq & Hcq & Hchq).
  assert (p ≠ q) as Hpq by (by intros ->).
  constructor; unfold cursor, holder in *; simpl.
  - apply NoDup_add, NoDup_delete, HI.
  - intros x [->|[Hx _]%elem_of_delete]%elem_of_add; [done | by apply HI].
  - intros x Hx. rewrite get_set. case_decide.
    + exists (c + 1). split; [done|lia].
    + by apply HI.
  - apply NoDup_keys_set, HI.
  - rewrite get_set_ne; [apply HI | done].
  - intros x y. rewrite get_set. case_decide as Hx.
    + intros [= <-]. injection Hx as <-. split_and!; [done| |].
      * rewrite elem_of_add, elem_of_delete. naive_solver.
      * exists c. by rewrite get_set_eq, Nat.add_1_r.
    + intros Hy.
      destruct (inv_engaged _ _ HI x y Hy) as (HyN & Hyf & c' & Hc' & Hch').
      split_and!; [done| |].
      * rewrite elem_of_add, elem_of_delete. intros [->|[? _]]; [|done].
        apply Hx. f_equal. by eapply engaged_inj.
      * exists c'. rewrite get_set_ne; [done|]. by intros ->.
  - intros x Hx. destruct (decide (x = p)) as [->|Hne].
    + right. exists r. by rewrite get_set_eq.
    + destruct (decide (x = q)) as [->|Hnq].
      { left. apply elem_of_add. by left. }
      destruct (inv_cover _ _ HI x Hx) as [Hf | [r' Hr']].
      * left. apply elem_of_add. right. by apply elem_of_delete.
      * right. exists r'. rewrite get_set_ne; [done|]. intros [= ->].
        unfold holder in *. congruence.
  - assert (∀ x c' i r', JsMap.get (SMA.proposals st) x = Some c' → i < c' →
      choice this x i = Some r' →
      ∃ y, JsMap.get (JsMap.set (Some r) p (SMA.engaged st)) (Some r') = Some y ∧
           (rank this r' y ≤ rank this r' x)%Z) as Hold.
    { intros x c' i r' Hc' Hi Hch'.
      destruct (inv_rejected _ _ HI x c' i r' Hc' Hi Hch') as (y & Hy & Hle).
      rewrite get_set. case_decide as Hrr.
      - injection Hrr as <-. exists p. split; [done|].
        unfold holder in *. assert (y = q) as -> by congruence. lia.
      - by exists y. }
    intros x c' i r'. rewrite get_set. case_decide as Hx.
    + subst x. intros [= <-] Hi Hch'. destruct (decide (i = c)) as [->|Hic].
      * assert (r' = r) as -> by congruence. exists p.
        rewrite get_set_eq. split; [done|lia].
      * apply (Hold p c i r' Hc); [lia|done].
    + apply Hold.
Qed.

(** The receiver keeps its holder and turns [p] down. *)
Lemma Inv_reject st p c r q :
  Inv this st → p ∈ SMA.free st → cursor st p = Some c →
  choice this p c = Some r → holder st r = Some q →
  ¬ (rank this r p < rank this r q)%Z →
  Inv this {| SMA.engaged := SMA.engaged st; SMA.free := SMA.free st;
              SMA.proposals := JsMap.set p (c + 1) (SMA.proposals st) |}.
Proof.
  intros HI Hp Hc Hch Hr Hge.
  destruct (choice_Some _ _ _ Hch) as (HpN & HcN & HrN).
  constructor; unfold cursor, holder in *; simpl; try apply HI.
  - intros x Hx. rewrite get_set. case_decide.
    + exists (c + 1). split; [done|lia].
    + by apply HI.
  - intros x y Hy.
    destruct (inv_engaged _ _ HI x y Hy) as (HyN & Hyf & c' & Hc' & Hch').
    split_and!; [done..|]. exists c'. rewrite get_set_ne; [done|]. by intros ->.
  - intros x c' i r'. rewrite get_set. case_decide as Hx.
    + subst x. intros [= <-] Hi Hch'. destruct (decide (i = c)) as [->|Hic].
      * assert (r' = r) as -> by congruence. exists q. split; [done|lia].
      * apply (inv_rejected _ _ HI p c i r' Hc); [lia|done].
    + apply HI.
Qed.

Lemma Inv_proposed st p c r :
  Inv this st → p ∈ SMA.free st → cursor st p = Some c →
  choice this p c = Some r → Inv this (proposed this st p c r).
Proof.
  intros HI Hp Hc Hch. unfold proposed.
  destruct (holder st r) as [q|] eqn:Hr; [case_decide|].
  - by apply Inv_trade.
  - by eapply Inv_reject.
  - by apply Inv_engage.
Qed.

(** On a state that satisfies the invariant, a turn of the loop is a
    proposal: it neither throws nor finds the cursor at [n]. *)
Lemma ep_body_proposed st p rest :
  Inv this st → SMA.free st = p :: rest →
  ∃ c r, cursor st p = Some c ∧ c < SMA.n this ∧ choice this p c = Some r ∧
         SMA.ep_body this st p = Normal (proposed this st p c r).
Proof.
  intros HI Hfree.
  assert (p ∈ SMA.free st) as Hp by (rewrite Hfree; left).
  assert (p < SMA.n this) as HpN by by apply HI.
  destruct (inv_cursor _ _ HI p HpN) as (c & Hc & _).
  assert (c < SMA.n this) as HcN by by eapply free_cursor_lt.
  destruct (choice_defined p c HpN HcN) as (r & Hch & HrN).
  exists c, r. split_and!; [done..|].
  unfold SMA.ep_body, proposed. unfold cursor in Hc. rewrite Hc.
  rewrite decide_False by lia.
  unfold choice in Hch.
  destruct (SMA.establishmentPrefs this !! p) as [prefs|]; [|done].
  simpl in Hch. rewrite Hch. unfold holder.
  destruct (JsMap.get (SMA.engaged st) (Some r)) as [q|]; [|done].
  simpl. destruct (valid_receiver_prefs r HrN) as (ranking & Hranking & _).
  unfold rank. rewrite Hranking. simpl. by case_decide.
Qed.

Lemma slack_proposed st p c r :
  cursor st p = Some c → c < SMA.n this →
  slack (SMA.n this) (SMA.proposals (proposed this st p c r)) + 1 =
    slack (SMA.n this) (SMA.proposals st).
Proof.
  intros Hc HcN. unfold proposed.
  destruct (holder st r); [case_decide|]; simpl; by apply slack_set.
Qed.

Lemma Inv_initial : Inv this (SMA.initial (SMA.establishments this)).
Proof.
  destruct Hvalid as (_ & Hest & _).
  assert (NoDup (SMA.establishments this)) as Hnd.
  { rewrite Hest. apply NoDup_seq. }
  assert (∀ p, p ∈ SMA.establishments this ↔ p < SMA.n this) as Hin.
  { intros p. rewrite Hest, elem_of_seq. lia. }
  constructor; unfold cursor, holder, SMA.initial; simpl.
  - by rewrite of_array_NoDup.
  - intros p. rewrite of_array_NoDup by done. apply Hin.
  - intros p Hp%Hin. exists 0. split; [|lia]. by apply get_zero_cursors_elem_of.
  - apply NoDup_nil_2.
  - done.
  - done.
  - intros p Hp%Hin. left. by rewrite of_array_NoDup.
  - intros p c i r Hc%get_zero_cursors; [lia|done].
Qed.

Lemma slack_initial :
  slack (SMA.n this) (SMA.proposals (SMA.initial (SMA.establishments this)))
    = SMA.n this * SMA.n this.
Proof.
  destruct Hvalid as (_ & Hest & _). simpl.
  rewrite slack_zero_cursors by (rewrite Hest; apply NoDup_seq).
  by rewrite Hest, length_seq.
Qed.

(** The loop ends, without an exception, in a state where nobody is free;
    what the proposals preserve holds there. *)
Lemma ep_while_proposed (P : SMA.loop_state → Prop) :
  (∀ st p rest c r, Inv this st → P st → SMA.free st = p :: rest →
     cursor st p = Some c → choice this p c = Some r →
     P (proposed this st p c r)) →
  ∀ fuel st, Inv this st → P st →
    slack (SMA.n this) (SMA.proposals st) < fuel →
    ∃ st', SMA.ep_while fuel this st = Some (Normal st') ∧
           Inv this st' ∧ P st' ∧ SMA.free st' = [].
Proof.
  intros Hstep fuel. induction fuel as [|fuel IH]; intros st HI HP Hfuel; [lia|].
  simpl. destruct (SMA.free st) as [|p rest] eqn:Hfree.
  - by exists st.
  - destruct (ep_body_proposed st p rest HI Hfree) as (c & r & Hc & HcN & Hch & ->).
    assert (p ∈ SMA.free st) as Hp by (rewrite Hfree; left).
    apply IH.
    + by apply Inv_proposed.
    + by eapply Hstep.
    + pose proof (slack_proposed st p c r Hc HcN). lia.
Qed.

Lemma ep_reachable_Inv st : ep_reachable this st → Inv this st.
Proof.
  induction 1 as [|st p rest st' _ IH Hfree Hbody]; [apply Inv_initial|].
  destruct (ep_body_proposed st p rest IH Hfree) as (c & r & Hc & HcN & Hch & Heq).
  assert (st' = proposed this st p c r) as -> by congruence.
  apply Inv_proposed; [done| |done..]. rewrite Hfree. left.
Qed.

End loop_facts.

(** More fuel does not change what a loop returns. *)
Lemma ep_while_fuel this fuel fuel' st c :
  SMA.ep_while fuel this st = Some c → fuel ≤ fuel' →
  SMA.ep_while fuel' this st = Some c.
Proof.
  revert fuel' st. induction fuel as [|fuel IH]; intros fuel' st; simpl; [done|].
  intros Hw Hle. destruct fuel' as [|fuel']; [lia|]. simpl.
  destruct (SMA.free st) as [|p rest]; [done|].
  destruct (SMA.ep_body this st p); [|done]. apply IH; [done|lia].
Qed.

Lemma sp_while_fuel this fuel fuel' st c :
  SMA.sp_while fuel this st = Some c → fuel ≤ fuel' →
  SMA.sp_while fuel' this st = Some c.
Proof.
  revert this fuel' st. induction fuel as [|fuel IH]; intros this fuel' st; simpl;
    [done|].
  intros Hw Hle. destruct fuel' as [|fuel']; [lia|]. simpl.
  destruct (SMA.free st) as [|p rest]; [done|].
  destruct (SMA.sp_body this st p) as [this' [st'|e]]; [|done]. apply IH; [done|lia].
Qed.

(** ** The students-propose loop is the mirrored loop *)

Lemma valid_mirror this : valid this → valid (mirror this).
Proof. unfold valid. simpl. tauto. Qed.

Lemma sp_body_mirror this st student :
  (SMA.sp_body this st student).2 = SMA.ep_body (mirror this) st student.
Proof.
  unfold SMA.sp_body, SMA.ep_body. simpl.
  repeat (case_match; simpl; try done).
Qed.

(** A turn changes nothing of [this] but [proposalCounts]. *)
Lemma sp_body_this this st student :
  (SMA.sp_body this st student).1
    = SMA.set_proposalCounts this (SMA.proposalCounts (SMA.sp_body this st student).1).
Proof.
  unfold SMA.sp_body. destruct this.
  repeat (case_match; simpl; try done).
Qed.

Lemma ep_while_set_proposalCounts fuel this counts st :
  SMA.ep_while fuel (mirror (SMA.set_proposalCounts this counts)) st
    = SMA.ep_while fuel (mirror this) st.
Proof.
  revert st. induction fuel as [|fuel IH]; intros st; simpl; [done|].
  destruct (SMA.free st) as [|p rest]; [done|].
  change (SMA.ep_body (mirror (SMA.set_proposalCounts this counts)) st p)
    with (SMA.ep_body (mirror this) st p).
  destruct (SMA.ep_body (mirror this) st p); [apply IH | done].
Qed.

Lemma sp_while_mirror fuel this st :
  snd <$> SMA.sp_while fuel this st = SMA.ep_while fuel (mirror this) st.
Proof.
  revert this st. induction fuel as [|fuel IH]; intros this st; simpl; [done|].
  destruct (SMA.free st) as [|student rest]; [done|].
  rewrite <- sp_body_mirror. pose proof (sp_body_this this st student) as Hthis.
  destruct (SMA.sp_body this st student) as [this' [st'|e]]; simpl in *; [|done].
  rewrite IH, Hthis. apply ep_while_set_proposalCounts.
Qed.

(** Neither does the students-propose loop. *)
Lemma sp_while_cursor this fuel st this' :
  has_cursors st → SMA.sp_while fuel this st ≠ Some (this', Throw NoCursor).
Proof.
  intros Hst Hsp. apply (ep_while_cursor (mirror this) fuel st Hst).
  by rewrite <- sp_while_mirror, Hsp.
Qed.

Lemma sp_while_this fuel this st this' c :
  SMA.sp_while fuel this st = Some (this', c) →
  this' = SMA.set_proposalCounts this (SMA.proposalCounts this').
Proof.
  revert this st. induction fuel as [|fuel IH]; intros this st; simpl; [done|].
  destruct (SMA.free st) as [|student rest].
  - intros [= <- <-]. by destruct this.
  - pose proof (sp_body_this this st student) as Hthis.
    destruct (SMA.sp_body this st student) as [this1 [st1|e]]; simpl in *.
    + intros Hw%IH. rewrite Hw, Hthis. done.
    + intros [= <- <-]. done.
Qed.

(** ** The state the loop ends in *)

Section final_state.
Context (this : SMA.t) (Hvalid : valid this).
Context (st : SMA.loop_state) (HI : Inv this st) (Hfree : SMA.free st = []).

Lemma final_entry k q :
  (k, q) ∈ SMA.engaged st →
  ∃ r c, k = Some r ∧ r < SMA.n this ∧ q < SMA.n this ∧ holder st r = Some q ∧
         cursor st q = Some (S c) ∧ choice this q c = Some r.
Proof.
  intros Hin. apply elem_of_get in Hin; [|apply HI].
  destruct k as [r|]; [|by rewrite (inv_keys _ _ HI) in Hin].
  destruct (inv_engaged _ _ HI r q Hin) as (HqN & _ & c & Hc & Hch).
  exists r, c. split_and!; try done. by destruct (choice_Some _ Hvalid _ _ _ Hch) as (_ & _ & ?).
Qed.

Lemma final_engaged p :
  p < SMA.n this →
  ∃ r c, holder st r = Some p ∧ cursor st p = Some (S c) ∧ choice this p c = Some r.
Proof.
  intros Hp. destruct (inv_cover _ _ HI p Hp) as [Hf|[r Hr]].
  - rewrite Hfree in Hf. by apply elem_of_nil in Hf.
  - destruct (inv_engaged _ _ HI r p Hr) as (_ & _ & c & Hc & Hch). by exists r, c.
Qed.

Lemma final_values : (SMA.engaged st).*2 ≡ₚ seq 0 (SMA.n this).
Proof.
  apply NoDup_Permutation; [|apply NoDup_seq|].
  - apply NoDup_fmap_2_strong; [|by eapply NoDup_fmap_1, HI].
    intros [k1 q1] [k2 q2] H1 H2 Heq. simpl in Heq. subst q2.
    destruct (final_entry _ _ H1) as (r1 & c1 & -> & _ & _ & Hr1 & _).
    destruct (final_entry _ _ H2) as (r2 & c2 & -> & _ & _ & Hr2 & _).
    do 2 f_equal. by eapply engaged_inj.
  - intros q. rewrite elem_of_seq, list_elem_of_fmap. split.
    + intros ([k q'] & -> & Hin). simpl.
      destruct (final_entry _ _ Hin) as (r & c & _ & _ & ? & _). lia.
    + intros [_ Hq]. destruct (final_engaged q Hq) as (r & c & Hr & _).
      exists (Some r, q). split; [done|]. by apply get_Some_elem_of.
Qed.

Lemma final_keys : (SMA.engaged st).*1 ≡ₚ Some <$> seq 0 (SMA.n this).
Proof.
  apply submseteq_length_Permutation.
  - apply NoDup_submseteq; [apply HI|]. intros k.
    rewrite !list_elem_of_fmap. intros ([k' q] & -> & Hin). simpl.
    destruct (final_entry _ _ Hin) as (r & c & -> & Hr & _).
    exists r. split; [done|]. apply elem_of_seq. lia.
  - rewrite !length_fmap. rewrite <- (length_fmap snd), final_values. done.
Qed.

Lemma final_holder r : r < SMA.n this → ∃ q, holder st r = Some q.
Proof.
  intros Hr. assert (Some r ∈ (SMA.engaged st).*1) as Hin.
  { rewrite final_keys. apply list_elem_of_fmap. exists r. split; [done|].
    apply elem_of_seq. lia. }
  unfold holder. destruct (JsMap.get (SMA.engaged st) (Some r)) as [q|] eqn:Hg; [eauto|].
  by apply get_None_keys in Hg.
Qed.

End final_state.

(** ** Matchings *)

Lemma NoDup_fmap_elem_inj {A B} (f : A → B) (l : list A) x y :
  NoDup (f <$> l) → x ∈ l → y ∈ l → f x = f y → x = y.
Proof.
  intros Hnd [i Hi]%list_elem_of_lookup [j Hj]%list_elem_of_lookup Heq.
  assert (i = j) as ->; [|congruence].
  eapply NoDup_lookup; [exact Hnd | |].
  - rewrite list_lookup_fmap, Hi. done.
  - rewrite list_lookup_fmap, Hj. simpl. by rewrite Heq.
Qed.

Lemma find_key_elem_of (m : list (value * value)) k v :
  NoDup m.*2 → (k, v) ∈ m → JsMap.find_key m v = k.
Proof.
  intros Hnd Hin. unfold JsMap.find_key.
  destruct (list_find _ m) as [[i kv]|] eqn:Hf.
  - apply list_find_Some in Hf as (Hi & Hv & _).
    apply list_elem_of_lookup_2 in Hi.
    by rewrite (NoDup_fmap_elem_inj snd m kv (k, v) Hnd Hi Hin Hv).
  - eapply list_find_None, Forall_forall in Hf; [|exact Hin]. done.
Qed.

Lemma find_key_Some (m : list (value * value)) v k :
  JsMap.find_key m v = Some k → (Some k, v) ∈ m.
Proof.
  unfold JsMap.find_key. destruct (list_find _ m) as [[i [k' v']]|] eqn:Hf; [|done].
  apply list_find_Some in Hf as (Hi & Hv & _). simpl in *. intros ->. subst v'.
  by eapply list_elem_of_lookup_2.
Qed.

Lemma invert_app (matching : list (value * value)) (engaged : list (value * nat)) :
  NoDup (matching.*1 ++ (Some <$> engaged.*2)) →
  foldl (λ matching '(establishment, student),
           JsMap.set (Some student) establishment matching) matching engaged
    = matching ++ (flip <$> engaged).
Proof.
  revert matching. induction engaged as [|[e s] engaged IH]; intros m Hnd; csimpl.
  - by rewrite app_nil_r.
  - rewrite set_fresh.
    + rewrite IH; rewrite ?fmap_app, <- ?app_assoc; done.
    + apply NoDup_app in Hnd as (_ & Hdisj & _). intros Hin.
      apply (Hdisj _ Hin). left.
Qed.

Lemma invert_NoDup (engaged : list (value * nat)) :
  NoDup engaged.*2 → SMA.invert engaged = flip <$> engaged.
Proof.
  intros Hnd. apply (invert_app []). simpl.
  apply NoDup_fmap_2; [apply _ | done].
Qed.

Lemma get_prod_map {K V W} `{EqDecision K} (f : V → W) (m : list (K * V)) k :
  JsMap.get (prod_map id f <$> m) k = f <$> JsMap.get m k.
Proof.
  induction m as [|[k0 v0] m IH]; csimpl; [done|]. by case_decide.
Qed.

Section perfect_facts.
Context (n : nat) (M : list (value * value)) (HM : perfect n M).

Lemma perfect_NoDup_keys : NoDup M.*1.
Proof.
  destruct HM as [-> _]. apply NoDup_fmap_2; [apply _ | apply NoDup_seq].
Qed.

Lemma perfect_NoDup_values : NoDup M.*2.
Proof.
  destruct HM as [_ ->]. apply NoDup_fmap_2; [apply _ | apply NoDup_seq].
Qed.

Lemma perfect_entry k v :
  (k, v) ∈ M → ∃ s e, k = Some s ∧ v = Some e ∧ s < n ∧ e < n.
Proof.
  intros Hin. destruct HM as [Hk Hv].
  assert (k ∈ M.*1) as Hink by (apply list_elem_of_fmap; by exists (k, v)).
  assert (v ∈ M.*2) as Hinv by (apply list_elem_of_fmap; by exists (k, v)).
  rewrite Hk in Hink. rewrite Hv in Hinv.
  apply list_elem_of_fmap in Hink as (s & -> & Hs%elem_of_seq).
  apply list_elem_of_fmap in Hinv as (e & -> & He%elem_of_seq).
  exists s, e. split_and!; [done..|lia|lia].
Qed.

Lemma perfect_student s : s < n → ∃ e, e < n ∧ (Some s, Some e) ∈ M.
Proof.
  intros Hs. destruct HM as [Hk _].
  assert (Some s ∈ M.*1) as Hin.
  { rewrite Hk. apply list_elem_of_fmap. exists s. split; [done|].
    apply elem_of_seq. lia. }
  apply list_elem_of_fmap in Hin as ([k v] & Heq & Hin). simpl in Heq. subst k.
  destruct (perfect_entry _ _ Hin) as (s' & e & _ & -> & _ & He). by exists e.
Qed.

Lemma perfect_establishment e : e < n → ∃ s, s < n ∧ (Some s, Some e) ∈ M.
Proof.
  intros He. destruct HM as [_ Hv].
  assert (Some e ∈ M.*2) as Hin.
  { rewrite Hv. apply list_elem_of_fmap. exists e. split; [done|].
    apply elem_of_seq. lia. }
  apply list_elem_of_fmap in Hin as ([k v] & Heq & Hin). simpl in Heq. subst v.
  destruct (perfect_entry _ _ Hin) as (s & e' & -> & _ & Hs & _). by exists s.
Qed.

Lemma perfect_get s e : (Some s, Some e) ∈ M → mjoin (JsMap.get M (Some s)) = Some e.
Proof. intros Hin. by rewrite (elem_of_get M _ _ perfect_NoDup_keys Hin). Qed.

Lemma perfect_find_key s e : (Some s, Some e) ∈ M → JsMap.find_key M (Some e) = Some s.
Proof. apply find_key_elem_of, perfect_NoDup_values. Qed.

Lemma perfect_same_student s e e' :
  (Some s, Some e) ∈ M → (Some s, Some e') ∈ M → e = e'.
Proof.
  intros H1 H2.
  pose proof (NoDup_fmap_elem_inj fst M _ _ perfect_NoDup_keys H1 H2 eq_refl). congruence.
Qed.

Lemma perfect_same_establishment s s' e :
  (Some s, Some e) ∈ M → (Some s', Some e) ∈ M → s = s'.
Proof.
  intros H1 H2.
  pose proof (NoDup_fmap_elem_inj snd M _ _ perfect_NoDup_values H1 H2 eq_refl). congruence.
Qed.
End perfect_facts.

(** ** What [solve] returns on a valid instance *)

Section solve_facts.
Context (this : SMA.t) (Hvalid : valid this).

Lemma solveEstablishmentsPropose_final (P : SMA.loop_state → Prop) fuel :
  P (SMA.initial (SMA.establishments this)) →
  (∀ st p rest c r, Inv this st → P st → SMA.free st = p :: rest →
     cursor st p = Some c → choice this p c = Some r →
     P (proposed this st p c r)) →
  SMA.n this * SMA.n this < fuel →
  ∃ st, Inv this st ∧ SMA.free st = [] ∧ P st ∧
    SMA.solveEstablishmentsPropose fuel this
      = Some (Normal {| SMA.ep_matching := prod_map id Some <$> SMA.engaged st;
                        SMA.ep_proposalCounts := SMA.proposals st |}).
Proof.
  intros Hinit Hstep Hfuel.
  destruct (ep_while_proposed this Hvalid P Hstep fuel
              (SMA.initial (SMA.establishments this)))
    as (st & Hw & HI & HP & Hfree).
  - by apply Inv_initial.
  - done.
  - by rewrite slack_initial.
  - exists st. split_and!; [done..|].
    unfold SMA.solveEstablishmentsPropose. by rewrite Hw.
Qed.

End solve_facts.

Lemma solveStudentsPropose_final this (P : SMA.loop_state → Prop) fuel :
  valid this →
  P (SMA.initial (SMA.students this)) →
  (∀ st p rest c r, Inv (mirror this) st → P st → SMA.free st = p :: rest →
     cursor st p = Some c → choice (mirror this) p c = Some r →
     P (proposed (mirror this) st p c r)) →
  SMA.n this * SMA.n this < fuel →
  ∃ this' st, Inv (mirror this) st ∧ SMA.free st = [] ∧ P st ∧
    this' = SMA.set_proposalCounts this (SMA.proposalCounts this') ∧
    SMA.sp_while fuel this (SMA.initial (SMA.students this))
      = Some (this', Normal st) ∧
    SMA.solveStudentsPropose fuel this
      = Some (this', Normal {| SMA.sp_matching := flip <$> SMA.engaged st;
                               SMA.sp_proposalCounts := SMA.proposalCounts this' |}).
Proof.
  intros Hvalid%valid_mirror Hinit Hstep Hfuel.
  destruct (ep_while_proposed (mirror this) Hvalid P Hstep fuel
              (SMA.initial (SMA.students this)))
    as (st & Hw & HI & HP & Hfree).
  - by apply (Inv_initial (mirror this)).
  - done.
  - pose proof (slack_initial (mirror this) Hvalid) as Hs. simpl in *. lia.
  - rewrite <- sp_while_mirror in Hw.
    destruct (SMA.sp_while fuel this (SMA.initial (SMA.students this)))
      as [[this' c]|] eqn:Hsp; [|done].
    simpl in Hw. injection Hw as ->.
    exists this', st. split_and!; [done..| by eapply sp_while_this | done |].
    unfold SMA.solveStudentsPropose. rewrite Hsp.
    rewrite invert_NoDup; [done|].
    rewrite (final_values (mirror this) Hvalid st HI Hfree). apply NoDup_seq.
Qed.

Lemma perfect_ep_matching this st :
  valid this → Inv this st → SMA.free st = [] →
  perfect (SMA.n this) (prod_map id Some <$> SMA.engaged st).
Proof.
  intros Hvalid HI Hfree. split.
  - rewrite <- list_fmap_compose.
    rewrite (list_fmap_ext _ fst (SMA.engaged st)) by (by intros ? []).
    by apply final_keys.
  - rewrite <- list_fmap_compose.
    rewrite (list_fmap_ext _ (Some ∘ snd) (SMA.engaged st)) by (by intros ? []).
    rewrite list_fmap_compose. by rewrite final_values.
Qed.

Lemma perfect_sp_matching this st :
  valid this → Inv this st → SMA.free st = [] →
  perfect (SMA.n this) (flip <$> SMA.engaged st).
Proof.
  intros Hvalid HI Hfree. split.
  - rewrite <- list_fmap_compose.
    rewrite (list_fmap_ext _ (Some ∘ snd) (SMA.engaged st)) by (by intros ? []).
    rewrite list_fmap_compose. by rewrite final_values.
  - rewrite <- list_fmap_compose.
    rewrite (list_fmap_ext _ fst (SMA.engaged st)) by (by intros ? []).
    by apply final_keys.
Qed.

(** ** [verifyStability] *)

Lemma for_loop_unchanged {A} (body : nat → A → completion A) lo count acc :
  (∀ i, lo ≤ i < lo + count → body i acc = Normal acc) →
  for_loop body lo count acc = Normal acc.
Proof.
  revert lo. induction count as [|count IH]; intros lo Hbody; simpl; [done|].
  rewrite Hbody by lia. simpl. apply IH. intros i Hi. apply Hbody. lia.
Qed.

(** The verdict is "stable" as soon as no inner turn adds a pair. *)
Lemma verifyStability_stable this matching :
  (∀ s, s < SMA.n this →
     ∃ prefs, SMA.studentPrefs this !! s = Some prefs ∧
       ∀ prefRank,
         (Z.of_nat prefRank < indexOf prefs (mjoin (JsMap.get matching (Some s))))%Z →
         SMA.check_preferred this matching prefs s prefRank [] = Normal []) →
  SMA.verifyStability this matching = stable_verdict.
Proof.
  intros Hall. unfold SMA.verifyStability.
  rewrite for_loop_unchanged; [done|]. intros s Hs.
  destruct (Hall s) as (prefs & Hprefs & Hinner); [lia|].
  unfold SMA.check_student. rewrite Hprefs. simpl.
  apply for_loop_unchanged. intros i Hi. apply Hinner. lia.
Qed.

Lemma choice_indexOf this p i r l :
  valid this → choice this p i = Some r →
  SMA.establishmentPrefs this !! p = Some l → indexOf l (Some r) = Z.of_nat i.
Proof.
  intros Hvalid Hch Hl. destruct (choice_Some _ Hvalid _ _ _ Hch) as (Hp & _).
  destruct (valid_proposer_prefs _ Hvalid p Hp) as (l' & Hl' & Hord).
  assert (l' = l) as -> by congruence.
  unfold choice in Hch. rewrite Hl in Hch. by apply (total_order_indexOf _ _ Hord).
Qed.

Lemma rank_lookup this r q i l :
  valid this → SMA.studentPrefs this !! r = Some l → l !! i = Some q →
  rank this r q = Z.of_nat i.
Proof.
  intros Hvalid Hl Hi. assert (r < SMA.n this) as Hr.
  { destruct Hvalid as (_ & _ & <- & _). by eapply lookup_lt_Some. }
  destruct (valid_receiver_prefs _ Hvalid r Hr) as (l' & Hl' & Hord).
  assert (l' = l) as -> by congruence.
  unfold rank. rewrite Hl. by apply (total_order_indexOf _ _ Hord).
Qed.

(** The matching of the establishments-propose loop passes the check:
    [this] is the instance, students receive. *)
Lemma ep_final_stable this st :
  valid this → Inv this st → SMA.free st = [] →
  SMA.verifyStability this (prod_map id Some <$> SMA.engaged st) = stable_verdict.
Proof.
  intros Hvalid HI Hfree.
  pose proof (perfect_ep_matching this st Hvalid HI Hfree) as HM.
  apply verifyStability_stable. intros s Hs.
  destruct (valid_receiver_prefs _ Hvalid s Hs) as (prefs & Hprefs & Hord).
  exists prefs. split; [done|]. intros prefRank.
  rewrite get_prod_map.
  destruct (final_holder this Hvalid st HI Hfree s Hs) as (e & He).
  unfold holder in He. rewrite He. simpl. intros Hrank.
  pose proof (indexOf_bounds prefs (Some e)) as Hb.
  rewrite (total_order_length _ _ Hord) in Hb.
  destruct (total_order_lookup _ _ Hord prefRank) as (e' & He' & He'N); [lia|].
  unfold SMA.check_preferred. rewrite He'.
  destruct (final_engaged this st HI Hfree e' He'N) as (s' & c' & Hs' & Hc' & Hch').
  assert ((Some s', Some e') ∈ prod_map id Some <$> SMA.engaged st) as Hin.
  { apply list_elem_of_fmap. exists (Some s', e'). split; [done|].
    by apply get_Some_elem_of. }
  rewrite (perfect_find_key _ _ HM _ _ Hin). simpl.
  destruct (valid_proposer_prefs _ Hvalid e' He'N) as (ranking & Hranking & Hord').
  rewrite Hranking. simpl.
  rewrite decide_False; [done|].
  rewrite (choice_indexOf this e' c' s' ranking Hvalid Hch' Hranking).
  destruct (total_order_position _ _ Hord' s Hs) as (j & Hj & Hjs).
  rewrite (total_order_indexOf _ _ Hord' j s Hjs). intros Hlt.
  destruct (inv_rejected _ _ HI e' (S c') j s Hc') as (q & Hq & Hle); [lia| |].
  { unfold choice. by rewrite Hranking. }
  unfold holder in Hq. assert (q = e) as -> by congruence.
  rewrite (rank_lookup this s e' prefRank prefs Hvalid Hprefs He') in Hle.
  unfold rank in Hle. rewrite Hprefs in Hle. lia.
Qed.

(** The matching of the students-propose loop passes the check: the loop ran
    on the mirrored instance [mirror this], students propose. *)
Lemma sp_final_stable this st :
  valid this → Inv (mirror this) st → SMA.free st = [] →
  SMA.verifyStability this (flip <$> SMA.engaged st) = stable_verdict.
Proof.
  intros Hvalid HI Hfree. pose proof (valid_mirror _ Hvalid) as Hvalid'.
  pose proof (perfect_sp_matching (mirror this) st Hvalid' HI Hfree) as HM.
  simpl in HM.
  apply verifyStability_stable. intros s Hs.
  destruct (valid_proposer_prefs _ Hvalid' s Hs) as (prefs & Hprefs & Hord).
  exists prefs. split; [done|]. intros prefRank.
  destruct (final_engaged (mirror this) st HI Hfree s Hs) as (e & c & He & Hc & Hch).
  assert ((Some s, Some e) ∈ flip <$> SMA.engaged st) as Hin.
  { apply list_elem_of_fmap. exists (Some e, s). split; [done|].
    by apply get_Some_elem_of. }
  rewrite (perfect_get _ _ HM _ _ Hin).
  rewrite (choice_indexOf (mirror this) s c e prefs Hvalid' Hch Hprefs).
  intros Hrank.
  destruct (choice_defined _ Hvalid' s prefRank Hs) as (e' & Hch' & He'N).
  { destruct (choice_Some _ Hvalid' _ _ _ Hch). lia. }
  unfold SMA.check_preferred.
  pose proof Hch' as Hlook. unfold choice in Hlook. rewrite Hprefs in Hlook.
  simpl in Hlook. rewrite Hlook.
  destruct (inv_rejected _ _ HI s (S c) prefRank e' Hc) as (q & Hq & Hle); [lia|done|].
  assert ((Some q, Some e') ∈ flip <$> SMA.engaged st) as Hin'.
  { apply list_elem_of_fmap. exists (Some e', q). split; [done|].
    by apply get_Some_elem_of. }
  rewrite (perfect_find_key _ _ HM _ _ Hin'). simpl.
  destruct (valid_receiver_prefs _ Hvalid' e' He'N) as (ranking & Hranking & _).
  simpl in Hranking. rewrite Hranking. simpl.
  unfold rank in Hle. simpl in Hle. rewrite Hranking in Hle.
  rewrite decide_False; [done|lia].
Qed.

(** ** Proposer optimality *)

Section optimality.
Context (this : SMA.t) (Hvalid : valid this).
Context (M : nat → nat → Prop).
Context (Hrange : ∀ p r, M p r → r < SMA.n this).
Context (Htotal : ∀ p, p < SMA.n this → ∃ r, M p r).
Context (Hfun : ∀ p p' r, M p r → M p' r → p = p').
Context (Hstable : ∀ p r p' r', M p r' → M p' r →
  (rank (mirror this) p r < rank (mirror this) p r')%Z →
  (rank this r p < rank this r p')%Z → False).

Lemma proposer_rank p i r :
  choice this p i = Some r → rank (mirror this) p r = Z.of_nat i.
Proof.
  intros Hch. destruct (choice_Some _ Hvalid _ _ _ Hch) as (Hp & _).
  destruct (valid_proposer_prefs _ Hvalid p Hp) as (l & Hl & _).
  unfold rank. simpl. rewrite Hl. by eapply choice_indexOf.
Qed.

(** A receiver that holds [q] while [q]'s partner in [M] is still ahead of
    [q]: if the receiver likes [q] more than its own partner in [M], the two
    block [M]. *)
Lemma partner_ahead st q cq r p :
  Inv this st → never_refused this M st →
  holder st r = Some q → cursor st q = Some (S cq) → choice this q cq = Some r →
  M p r → (rank this r q < rank this r p)%Z → False.
Proof.
  intros HI HO Hr Hcq Hchq HM Hlt.
  destruct (inv_engaged _ _ HI r q Hr) as (HqN & _).
  destruct (Htotal q HqN) as [r'' HM''].
  assert (r'' ≠ r) as Hne.
  { intros ->. assert (q = p) as -> by by eapply Hfun. lia. }
  destruct (choice_surj _ Hvalid q r'' HqN (Hrange _ _ HM'')) as (j & _ & Hj).
  destruct (decide (j < S cq)) as [Hjc|Hjc].
  - pose proof (HO q (S cq) j r'' Hcq Hjc Hj HM'') as Hh.
    apply Hne. by eapply engaged_inj.
  - apply (Hstable q r p r'' HM'' HM); [|done].
    rewrite (proposer_rank q cq r Hchq), (proposer_rank q j r'' Hj). lia.
Qed.

Lemma never_refused_proposed st p rest c r :
  Inv this st → never_refused this M st → SMA.free st = p :: rest →
  cursor st p = Some c → choice this p c = Some r →
  never_refused this M (proposed this st p c r).
Proof.
  intros HI HO Hfree Hc Hch.
  assert (p ∈ SMA.free st) as Hp by (rewrite Hfree; left).
  destruct (choice_Some _ Hvalid _ _ _ Hch) as (HpN & HcN & HrN).
  assert (∀ r', holder st r' ≠ Some p) as Hnohold.
  { intros r' Hr'. by destruct (inv_engaged _ _ HI r' p Hr') as (_ & ? & _). }
  assert (∀ i r', i < c → choice this p i = Some r' → ¬ M p r') as Hearlier.
  { intros i r' Hi Hch' HM. by apply (Hnohold r'), (HO p c i r'). }
  intros x c' i r'. unfold proposed, holder, cursor in *.
  destruct (JsMap.get (SMA.engaged st) (Some r)) as [q|] eqn:Hr;
    [destruct (decide (rank this r p < rank this r q)%Z) as [Hlt|Hge]|];
    simpl; rewrite get_set.
  - (* trade *)
    destruct (inv_engaged _ _ HI r q Hr) as (HqN & Hqf & cq & Hcq & Hchq).
    assert (¬ M q r) as Hnot.
    { intros HMq. destruct (Htotal p HpN) as [r0 HM0].
      destruct (choice_surj _ Hvalid p r0 HpN (Hrange _ _ HM0)) as (j & _ & Hj).
      destruct (decide (j < c)) as [Hjc|Hjc]; [by apply (Hearlier j r0)|].
      destruct (decide (j = c)) as [->|Hne].
      { assert (r0 = r) as -> by congruence.
        assert (p = q) as -> by by eapply Hfun. done. }
      apply (Hstable p r q r0 HM0 HMq); [|done].
      rewrite (proposer_rank p c r Hch), (proposer_rank p j r0 Hj). lia. }
    case_decide as Hx.
    + subst x. intros [= <-] Hi Hch' HM'. destruct (decide (i = c)) as [->|Hic].
      * assert (r' = r) as -> by congruence. by rewrite get_set_eq.
      * destruct (Hearlier i r'); [lia|done..].
    + intros Hc' Hi Hch' HM'. pose proof (HO x c' i r' Hc' Hi Hch' HM') as Hh.
      unfold holder in Hh.
      rewrite get_set_ne; [done|]. intros [= ->].
      assert (x = q) as -> by congruence. done.
  - (* reject *)
    destruct (inv_engaged _ _ HI r q Hr) as (HqN & Hqf & cq & Hcq & Hchq).
    case_decide as Hx.
    + subst x. intros [= <-] Hi Hch' HM'. destruct (decide (i = c)) as [->|Hic].
      * assert (r' = r) as -> by congruence. exfalso.
        assert (p ≠ q) as Hpq by (by intros ->).
        apply (partner_ahead st q cq r p HI HO Hr Hcq Hchq HM').
        assert (rank this r q ≠ rank this r p); [|lia].
        intros Heq. apply Hpq. symmetry.
        exact (rank_inj this Hvalid r q p HrN HqN Heq).
      * destruct (Hearlier i r'); [lia|done..].
    + apply HO.
  - (* engage *)
    case_decide as Hx.
    + subst x. intros [= <-] Hi Hch' HM'. destruct (decide (i = c)) as [->|Hic].
      * assert (r' = r) as -> by congruence. by rewrite get_set_eq.
      * destruct (Hearlier i r'); [lia|done..].
    + intros Hc' Hi Hch' HM'. pose proof (HO x c' i r' Hc' Hi Hch' HM') as Hh.
      unfold holder in Hh.
      rewrite get_set_ne; [done|]. intros [= ->]. congruence.
Qed.

Lemma never_refused_initial xs : NoDup xs → never_refused this M (SMA.initial xs).
Proof. intros Hnd p c i r Hc%get_zero_cursors; [lia|done]. Qed.

(** At the end every proposer holds a receiver it likes at least as much as
    its partner in [M]. *)
Lemma never_refused_final st p c r r0 :
  Inv this st → never_refused this M st →
  holder st r = Some p → cursor st p = Some (S c) → choice this p c = Some r →
  M p r0 → (rank (mirror this) p r ≤ rank (mirror this) p r0)%Z.
Proof.
  intros HI HO Hr Hc Hch HM.
  destruct (choice_Some _ Hvalid _ _ _ Hch) as (HpN & _).
  destruct (choice_surj _ Hvalid p r0 HpN (Hrange _ _ HM)) as (j & _ & Hj).
  rewrite (proposer_rank p c r Hch), (proposer_rank p j r0 Hj).
  destruct (decide (j < c)) as [Hjc|Hjc]; [|lia].
  pose proof (HO p (S c) j r0 Hc ltac:(lia) Hj HM) as Hh.
  assert (r0 = r) as -> by by eapply engaged_inj.
  pose proof (choice_inj _ Hvalid _ _ _ _ Hch Hj). lia.
Qed.

End optimality.

(** ** What a "stable" verdict means *)

Lemma for_loop_length {B} (body : nat → list B → completion (list B)) lo count acc acc' :
  (∀ i a a', body i a = Normal a' → length a ≤ length a') →
  for_loop body lo count acc = Normal acc' → length acc ≤ length acc'.
Proof.
  intros Hmono. revert lo acc. induction count as [|count IH]; intros lo acc; simpl.
  - by intros [= ->].
  - destruct (body lo acc) as [a|] eqn:Hb; simpl; [|done].
    intros Hrest%IH. apply Hmono in Hb. lia.
Qed.

Lemma for_loop_nil_inv {B} (body : nat → list B → completion (list B)) lo count :
  (∀ i a a', body i a = Normal a' → length a ≤ length a') →
  for_loop body lo count [] = Normal [] →
  ∀ i, lo ≤ i < lo + count → body i [] = Normal [].
Proof.
  intros Hmono. revert lo. induction count as [|count IH]; intros lo; simpl; [lia|].
  destruct (body lo []) as [a|] eqn:Hb; simpl; [|done]. intros Hrest.
  assert (a = []) as ->.
  { apply for_loop_length in Hrest; [|done]. by destruct a; [|simpl in Hrest; lia]. }
  intros i Hi. destruct (decide (i = lo)) as [->|]; [done|].
  apply (IH (S lo)); [done|lia].
Qed.

Lemma check_preferred_length this matching prefs s i a a' :
  SMA.check_preferred this matching prefs s i a = Normal a' → length a ≤ length a'.
Proof.
  unfold SMA.check_preferred. destruct (JsMap.find_key _ _); [|by intros [= ->]].
  destruct (property _); simpl; [|done].
  case_decide; intros [= <-]; [rewrite length_app; simpl|]; lia.
Qed.

Lemma check_student_length this matching s a a' :
  SMA.check_student this matching s a = Normal a' → length a ≤ length a'.
Proof.
  unfold SMA.check_student. destruct (property _); simpl; [|done].
  apply for_loop_length. intros ???. apply check_preferred_length.
Qed.

(** A perfect matching that [verifyStability] accepts has no blocking pair:
    no student [s] and establishment [e], matched to [e'] and [s'], that
    prefer each other to their partners. *)
Lemma verifyStability_no_blocking this matching s e s' e' :
  valid this → perfect (SMA.n this) matching →
  SMA.verifyStability this matching = stable_verdict →
  (Some s, Some e') ∈ matching → (Some s', Some e) ∈ matching →
  (rank this s e < rank this s e')%Z →
  (rank (mirror this) e s < rank (mirror this) e s')%Z → False.
Proof.
  intros Hvalid HM Hverdict Hs He Hsrank Herank.
  destruct (perfect_entry _ _ HM _ _ Hs) as (? & ? & [= <-] & [= <-] & HsN & He'N).
  destruct (perfect_entry _ _ HM _ _ He) as (? & ? & [= <-] & [= <-] & Hs'N & HeN).
  unfold SMA.verifyStability, stable_verdict in Hverdict.
  destruct (for_loop _ _ _ _) as [bps|] eqn:Hloop; simpl in Hverdict; [|done].
  injection Hverdict as _ ->.
  pose proof (for_loop_nil_inv _ _ _ (check_student_length this matching) Hloop s
                ltac:(lia)) as Hstudent.
  unfold SMA.check_student in Hstudent.
  destruct (valid_receiver_prefs _ Hvalid s HsN) as (prefs & Hprefs & Hord).
  rewrite Hprefs in Hstudent. simpl in Hstudent.
  rewrite (perfect_get _ _ HM _ _ Hs) in Hstudent.
  unfold rank in Hsrank. rewrite Hprefs in Hsrank.
  destruct (total_order_position _ _ Hord e HeN) as (i & Hi & Hie).
  rewrite (total_order_indexOf _ _ Hord i e Hie) in Hsrank.
  pose proof (for_loop_nil_inv _ _ _
                (check_preferred_length this matching prefs s) Hstudent i
                ltac:(lia)) as Hinner.
  unfold SMA.check_preferred in Hinner. rewrite Hie in Hinner.
  rewrite (perfect_find_key _ _ HM _ _ He) in Hinner. simpl in Hinner.
  destruct (valid_proposer_prefs _ Hvalid e HeN) as (ranking & Hranking & _).
  rewrite Hranking in Hinner. simpl in Hinner.
  unfold rank in Herank. simpl in Herank. rewrite Hranking in Herank.
  by rewrite decide_True in Hinner by done.
Qed.

(** ** [proposalCounts] *)

Lemma sp_body_proposed this cs st p rest :
  valid this → Inv (mirror this) st → SMA.free st = p :: rest →
  ∃ c r, cursor st p = Some c ∧ c < SMA.n this ∧
    choice (mirror this) p c = Some r ∧
    SMA.sp_body (SMA.set_proposalCounts this cs) st p
      = (SMA.set_proposalCounts this (increment cs p),
         Normal (proposed (mirror this) st p c r)).
Proof.
  intros Hvalid%valid_mirror HI Hfree.
  destruct (ep_body_proposed (mirror this) Hvalid st p rest HI Hfree)
    as (c & r & Hc & HcN & Hch & Hbody).
  exists c, r. split_and!; [done..|].
  change (SMA.ep_body (mirror this) st p)
    with (SMA.ep_body (mirror (SMA.set_proposalCounts this cs)) st p) in Hbody.
  rewrite <- sp_body_mirror in Hbody.
  rewrite (surjective_pairing (SMA.sp_body _ st p)), Hbody. f_equal.
  unfold SMA.sp_body. unfold cursor in Hc. rewrite Hc.
  rewrite decide_False by (simpl in *; lia).
  unfold choice in Hch. simpl in *.
  destruct (SMA.studentPrefs this !! p); [|done].
  repeat (case_match; simpl; try done).
Qed.

Lemma counts_follow_proposed base this cs st p c r :
  counts_follow base (SMA.n this) cs st → cursor st p = Some c → p < SMA.n this →
  counts_follow base (SMA.n this) (increment cs p) (proposed (mirror this) st p c r).
Proof.
  intros [Hlen Hcs] Hc Hp. pose proof (Hcs p c Hp Hc) as Hcount.
  unfold increment. rewrite Hcount. split; [by rewrite length_insert|].
  intros s c'. rewrite cursor_proposed. case_decide as Hs.
  - subst s. intros _ [= <-]. rewrite list_lookup_insert_eq by lia.
    do 2 f_equal. lia.
  - intros Hs' Hc'. rewrite list_lookup_insert_ne by done. by apply Hcs.
Qed.

Lemma sp_while_counts base this fuel :
  valid this →
  ∀ cs st this' st', Inv (mirror this) st → counts_follow base (SMA.n this) cs st →
    SMA.sp_while fuel (SMA.set_proposalCounts this cs) st = Some (this', Normal st') →
    counts_follow base (SMA.n this) (SMA.proposalCounts this') st'.
Proof.
  intros Hvalid. induction fuel as [|fuel IH]; intros cs st this' st' HI Hcs; simpl;
    [done|].
  destruct (SMA.free st) as [|p rest] eqn:Hfree.
  - by intros [= <- <-].
  - destruct (sp_body_proposed this cs st p rest Hvalid HI Hfree)
      as (c & r & Hc & HcN & Hch & ->).
    assert (p ∈ SMA.free st) as Hp by (rewrite Hfree; left).
    assert (p < SMA.n this) as HpN by by apply (inv_free_lt _ _ HI).
    apply IH.
    + apply Inv_proposed; [by apply valid_mirror|done..].
    + by apply counts_follow_proposed.
Qed.

Lemma counts_follow_cursors n counts st :
  counts_follow (λ _, 0) n counts st →
  (∀ p, p < n → is_Some (cursor st p)) →
  counts = Count <$> cursors n st.
Proof.
  intros [Hlen Hcs] Hall. apply list_eq. intros s. unfold cursors.
  destruct (decide (s < n)) as [Hs|Hs].
  - destruct (Hall s Hs) as [c Hc]. rewrite (Hcs s c Hs Hc).
    rewrite list_lookup_fmap, list_lookup_fmap, lookup_seq_lt by done.
    simpl. by rewrite Hc.
  - rewrite !lookup_ge_None_2; [done| |lia].
    rewrite !length_fmap, length_seq. lia.
Qed.

Lemma counts_follow_double n st :
  (∀ p, p < n → is_Some (cursor st p)) →
  ∀ counts,
    counts_follow (λ s, default 0 (cursor st s)) n counts st →
    counts = Count <$> ((λ k, 2 * k) <$> cursors n st).
Proof.
  intros Hall counts [Hlen Hcs]. apply list_eq. intros s. unfold cursors.
  destruct (decide (s < n)) as [Hs|Hs].
  - destruct (Hall s Hs) as [c Hc]. rewrite (Hcs s c Hs Hc).
    rewrite !list_lookup_fmap, lookup_seq_lt by done.
    simpl. rewrite Hc. simpl. do 2 f_equal. lia.
  - rewrite !lookup_ge_None_2; [done| |lia].
    rewrite !length_fmap, length_seq. lia.
Qed.

(** [solveStudentsPropose] on an engine whose counts are all zero, as the
    constructor leaves them. *)
Lemma solveStudentsPropose_fresh this fuel :
  valid this →
  SMA.proposalCounts this = replicate (SMA.n this) (Count 0) →
  SMA.n this * SMA.n this < fuel →
  ∃ st, Inv (mirror this) st ∧ SMA.free st = [] ∧
    SMA.ep_while fuel (mirror this) (SMA.initial (SMA.students this))
      = Some (Normal st) ∧
    SMA.solveStudentsPropose fuel this
      = Some (SMA.set_proposalCounts this (Count <$> cursors (SMA.n this) st),
              Normal {| SMA.sp_matching := flip <$> SMA.engaged st;
                        SMA.sp_proposalCounts := Count <$> cursors (SMA.n this) st |}).
Proof.
  intros Hvalid Hfresh Hfuel.
  destruct (solveStudentsPropose_final this (λ _, True) fuel)
    as (this' & st & HI & Hfree & _ & Hthis' & Hw & Hsolve); [done..|].
  exists st. split_and!; [done..| |].
  { by rewrite <- sp_while_mirror, Hw. }
  assert (SMA.proposalCounts this' = Count <$> cursors (SMA.n this) st) as Hcounts.
  { apply counts_follow_cursors.
    - apply (sp_while_counts (λ _, 0) this fuel Hvalid
               (replicate (SMA.n this) (Count 0)) (SMA.initial (SMA.students this)));
        [by apply (Inv_initial (mirror this)), valid_mirror | |].
      + split; [by rewrite length_replicate|]. intros s c Hs Hc.
        apply get_zero_cursors in Hc as ->.
        * by apply lookup_replicate_2.
        * destruct Hvalid as (-> & _). apply NoDup_seq.
      + rewrite <- Hfresh. by destruct this.
    - intros p Hp. destruct (inv_cursor _ _ HI p Hp) as (c & -> & _). done. }
  rewrite Hsolve, Hthis', Hcounts. done.
Qed.

(** ** Whose pairs [verifyStability] reports *)

Lemma for_loop_appends {B} (P : B → Prop)
    (body : nat → list B → completion (list B)) lo count acc acc' :
  (∀ i a a', body i a = Normal a' → ∃ new, a' = a ++ new ∧ Forall P new) →
  for_loop body lo count acc = Normal acc' →
  ∃ new, acc' = acc ++ new ∧ Forall P new.
Proof.
  intros Hbody. revert lo acc. induction count as [|count IH]; intros lo acc; simpl.
  - intros [= <-]. exists []. by rewrite app_nil_r.
  - destruct (body lo acc) as [a|] eqn:Hb; simpl; [|done].
    destruct (Hbody _ _ _ Hb) as (new1 & -> & H1).
    intros (new2 & -> & H2)%IH. exists (new1 ++ new2).
    rewrite app_assoc. split; [done|]. by apply Forall_app.
Qed.

Lemma check_preferred_appends this matching prefs s i a a' :
  SMA.check_preferred this matching prefs s i a = Normal a' →
  ∃ new, a' = a ++ new ∧ Forall (λ bp, SMA.student bp = s) new.
Proof.
  unfold SMA.check_preferred. destruct (JsMap.find_key _ _).
  - destruct (property _); simpl; [|done]. case_decide; intros [= <-].
    + eexists. split; [done|]. by apply Forall_singleton.
    + exists []. by rewrite app_nil_r.
  - intros [= <-]. exists []. by rewrite app_nil_r.
Qed.

(** The turn of an unmatched student adds nothing; the turn of any student
    adds pairs of that student only. *)
Lemma check_student_appends this matching s a a' :
  SMA.check_student this matching s a = Normal a' →
  ∃ new, a' = a ++ new ∧
    Forall (λ bp, mjoin (JsMap.get matching (Some (SMA.student bp))) ≠ None) new.
Proof.
  unfold SMA.check_student. destruct (property _) as [prefs|]; simpl; [|done].
  destruct (mjoin (JsMap.get matching (Some s))) as [e|] eqn:Hget.
  - intros (new & -> & Hnew)%(for_loop_appends (λ bp, SMA.student bp = s));
      [|intros ???; apply check_preferred_appends].
    exists new. split; [done|]. eapply Forall_impl; [exact Hnew|].
    simpl. intros bp ->. by rewrite Hget.
  - rewrite indexOf_undefined. simpl. intros [= <-].
    exists []. by rewrite app_nil_r.
Qed.

(** ** The satisfaction score with more than one participant a side *)





Lemma rank_of_range this M (isStudent : bool) i :
  valid this → perfect (SMA.n this) M → i < SMA.n this →
  ∃ r,
    SatisfactionAnalyzer.rank_of
      (if isStudent then SMA.studentPrefs this else SMA.establishmentPrefs this)
      M isStudent i = Normal r ∧
    (0 ≤ r ≤ Z.of_nat (SMA.n this) - 1)%Z.
Proof.
  intros Hvalid HM Hi.
  unfold SatisfactionAnalyzer.rank_of, SatisfactionAnalyzer.partner_of.
  destruct isStudent.
  - destruct (perfect_student _ _ HM i Hi) as (e & He & Hin).
    rewrite (perfect_get _ _ HM _ _ Hin).
    destruct (valid_receiver_prefs _ Hvalid i Hi) as (l & -> & Hord). simpl.
    destruct (total_order_position _ _ Hord e He) as (j & Hj & Hje).
    rewrite (total_order_indexOf _ _ Hord j e Hje). eexists. split; [done|lia].
  - destruct (perfect_establishment _ _ HM i Hi) as (s & Hs & Hin).
    rewrite (perfect_find_key _ _ HM _ _ Hin).
    destruct (valid_proposer_prefs _ Hvalid i Hi) as (l & -> & Hord). simpl.
    destruct (total_order_position _ _ Hord s Hs) as (j & Hj & Hjs).
    rewrite (total_order_indexOf _ _ Hord j s Hjs). eexists. split; [done|lia].
Qed.


(** * The claims *)

(** A decidable hypothesis at a concrete instance, by evaluation. *)
Ltac by_evaluation := apply (bool_decide_unpack _); vm_compute; exact I.

Lemma verifyStability_set_proposalCounts this counts matching :
  SMA.verifyStability (SMA.set_proposalCounts this counts) matching
    = SMA.verifyStability this matching.
Proof. reflexivity. Qed.

(** C2. On a valid instance [solve] ends, in either direction, without an
    exception, and what it returns is a perfect matching: every student is a
    key exactly once and every establishment a value exactly once.  Any fuel
    above [n * n] is enough. *)
Theorem solve_perfect_matching this fuel :
  valid this → SMA.n this * SMA.n this < fuel →
  (∃ this' result,
     SMA.solveStudentsPropose fuel this = Some (this', Normal result) ∧
     perfect (SMA.n this) (SMA.sp_matching result)) ∧
  (∃ result,
     SMA.solveEstablishmentsPropose fuel this = Some (Normal result) ∧
     perfect (SMA.n this) (SMA.ep_matching result)).
Proof.
  intros Hvalid Hfuel. split.
  - destruct (solveStudentsPropose_final this (λ _, True) fuel)
      as (this' & st & HI & Hfree & _ & _ & _ & Hsolve); [done..|].
    eexists _, _. split; [exact Hsolve|]. simpl.
    apply (perfect_sp_matching (mirror this)); [by apply valid_mirror|done..].
  - destruct (solveEstablishmentsPropose_final this Hvalid (λ _, True) fuel)
      as (st & HI & Hfree & _ & Hsolve); [done..|].
    eexists. split; [exact Hsolve|]. simpl. by apply perfect_ep_matching.
Qed.

Lemma solve_perfect_matching_witness :
  (∃ this' result,
     SMA.solveStudentsPropose 10 three_cycle = Some (this', Normal result) ∧
     perfect 3 (SMA.sp_matching result)) ∧
  (∃ result,
     SMA.solveEstablishmentsPropose 10 three_cycle = Some (Normal result) ∧
     perfect 3 (SMA.ep_matching result)).
Proof.
  apply (solve_perfect_matching three_cycle 10); [by_evaluation | simpl; lia].
Defined.

(** C1. On a valid instance, [verifyStability] applied to the matching that
    [solve] returns reports no blocking pair, in both directions. *)
Theorem solve_stable this fuel :
  valid this → SMA.n this * SMA.n this < fuel →
  (∃ this' result,
     SMA.solveStudentsPropose fuel this = Some (this', Normal result) ∧
     SMA.verifyStability this' (SMA.sp_matching result)
       = Normal {| SMA.stable := true; SMA.blockingPairs := [] |}) ∧
  (∃ result,
     SMA.solveEstablishmentsPropose fuel this = Some (Normal result) ∧
     SMA.verifyStability this (SMA.ep_matching result)
       = Normal {| SMA.stable := true; SMA.blockingPairs := [] |}).
Proof.
  intros Hvalid Hfuel. split.
  - destruct (solveStudentsPropose_final this (λ _, True) fuel)
      as (this' & st & HI & Hfree & _ & Hthis & _ & Hsolve); [done..|].
    eexists _, _. split; [exact Hsolve|]. simpl.
    rewrite Hthis, verifyStability_set_proposalCounts. by apply sp_final_stable.
  - destruct (solveEstablishmentsPropose_final this Hvalid (λ _, True) fuel)
      as (st & HI & Hfree & _ & Hsolve); [done..|].
    eexists. split; [exact Hsolve|]. simpl. by apply ep_final_stable.
Qed.

Lemma solve_stable_witness :
  (∃ this' result,
     SMA.solveStudentsPropose 5 two_by_two = Some (this', Normal result) ∧
     SMA.verifyStability this' (SMA.sp_matching result)
       = Normal {| SMA.stable := true; SMA.blockingPairs := [] |}) ∧
  (∃ result,
     SMA.solveEstablishmentsPropose 5 two_by_two = Some (Normal result) ∧
     SMA.verifyStability two_by_two (SMA.ep_matching result)
       = Normal {| SMA.stable := true; SMA.blockingPairs := [] |}).
Proof.
  apply (solve_stable two_by_two 5); [by_evaluation | simpl; lia].
Defined.

(** C3. Proposer optimality. On a valid instance, let [M'] be any perfect
    matching that [verifyStability] accepts.  Then every proposer ranks the
    partner [solve] gave it, with its side proposing, at least as well as its
    partner in [M']: students for [solveStudentsPropose], establishments for
    [solveEstablishmentsPropose].  The rank is [prefs[p].indexOf(partner)]. *)
Theorem proposer_optimal this fuel M' :
  valid this → SMA.n this * SMA.n this < fuel →
  perfect (SMA.n this) M' →
  SMA.verifyStability this M'
    = Normal {| SMA.stable := true; SMA.blockingPairs := [] |} →
  (∃ this' result,
     SMA.solveStudentsPropose fuel this = Some (this', Normal result) ∧
     ∀ s, s < SMA.n this → ∃ a b,
       SatisfactionAnalyzer.rank_of (SMA.studentPrefs this)
         (SMA.sp_matching result) true s = Normal a ∧
       SatisfactionAnalyzer.rank_of (SMA.studentPrefs this) M' true s = Normal b ∧
       (0 ≤ a ≤ b)%Z) ∧
  (∃ result,
     SMA.solveEstablishmentsPropose fuel this = Some (Normal result) ∧
     ∀ e, e < SMA.n this → ∃ a b,
       SatisfactionAnalyzer.rank_of (SMA.establishmentPrefs this)
         (SMA.ep_matching result) false e = Normal a ∧
       SatisfactionAnalyzer.rank_of (SMA.establishmentPrefs this) M' false e = Normal b ∧
       (0 ≤ a ≤ b)%Z).
Proof.
  intros Hvalid Hfuel HM' Hstable.
  pose proof (valid_mirror _ Hvalid) as Hvalid'. split.
  - set (M := λ p r : nat, (Some p, Some r) ∈ M').
    assert (∀ p r, M p r → r < SMA.n (mirror this)) as Hrange.
    { intros p r Hin. by destruct (perfect_entry _ _ HM' _ _ Hin)
        as (? & ? & _ & [= <-] & _ & ?). }
    assert (∀ p, p < SMA.n (mirror this) → ∃ r, M p r) as Htotal.
    { intros p Hp. destruct (perfect_student _ _ HM' p Hp) as (e & _ & He). by exists e. }
    assert (∀ p p' r, M p r → M p' r → p = p') as Hfun.
    { intros p p' r. apply (perfect_same_establishment _ _ HM'). }
    assert (∀ p r p' r', M p r' → M p' r →
      (rank (mirror (mirror this)) p r < rank (mirror (mirror this)) p r')%Z →
      (rank (mirror this) r p < rank (mirror this) r p')%Z → False) as Hblock.
    { intros p r p' r' Hp Hp'. by apply (verifyStability_no_blocking this M'). }
    destruct (solveStudentsPropose_final this (never_refused (mirror this) M) fuel)
      as (this' & st & HI & Hfree & HO & _ & _ & Hsolve); [done| | |done|].
    { apply never_refused_initial. destruct Hvalid as (-> & _). apply NoDup_seq. }
    { by apply never_refused_proposed. }
    eexists _, _. split; [exact Hsolve|]. simpl. intros s Hs.
    pose proof (perfect_sp_matching (mirror this) st Hvalid' HI Hfree) as HM.
    destruct (final_engaged (mirror this) st HI Hfree s Hs) as (e & c & He & Hc & Hch).
    destruct (valid_proposer_prefs _ Hvalid' s Hs) as (prefs & Hprefs & _).
    destruct (perfect_student _ _ HM' s Hs) as (e0 & _ & He0).
    assert ((Some s, Some e) ∈ flip <$> SMA.engaged st) as Hin.
    { apply list_elem_of_fmap. exists (Some e, s). split; [done|].
      by apply get_Some_elem_of. }
    unfold SatisfactionAnalyzer.rank_of, SatisfactionAnalyzer.partner_of.
    simpl in Hprefs. rewrite Hprefs. simpl.
    rewrite (perfect_get _ _ HM _ _ Hin), (perfect_get _ _ HM' _ _ He0).
    eexists _, _. split_and!; [done..| |].
    + rewrite (choice_indexOf (mirror this) s c e prefs Hvalid' Hch Hprefs). lia.
    + pose proof (never_refused_final (mirror this) Hvalid' M Hrange
                    st s c e e0 HI HO He Hc Hch He0) as Hle.
      unfold rank in Hle. simpl in Hle. by rewrite Hprefs in Hle.
  - set (M := λ p r : nat, (Some r, Some p) ∈ M').
    assert (∀ p r, M p r → r < SMA.n this) as Hrange.
    { intros p r Hin. by destruct (perfect_entry _ _ HM' _ _ Hin)
        as (? & ? & [= <-] & _ & ? & _). }
    assert (∀ p, p < SMA.n this → ∃ r, M p r) as Htotal.
    { intros p Hp. destruct (perfect_establishment _ _ HM' p Hp) as (r & _ & Hr).
      by exists r. }
    assert (∀ p p' r, M p r → M p' r → p = p') as Hfun.
    { intros p p' r. apply (perfect_same_student _ _ HM'). }
    assert (∀ p r p' r', M p r' → M p' r →
      (rank (mirror this) p r < rank (mirror this) p r')%Z →
      (rank this r p < rank this r p')%Z → False) as Hblock.
    { intros p r p' r' Hp Hp' H1 H2.
      by apply (verifyStability_no_blocking this M' r p r' p'). }
    destruct (solveEstablishmentsPropose_final this Hvalid (never_refused this M) fuel)
      as (st & HI & Hfree & HO & Hsolve); [| |done|].
    { apply never_refused_initial. destruct Hvalid as (_ & -> & _). apply NoDup_seq. }
    { by apply never_refused_proposed. }
    eexists. split; [exact Hsolve|]. simpl. intros e He.
    pose proof (perfect_ep_matching this st Hvalid HI Hfree) as HM.
    destruct (final_engaged this st HI Hfree e He) as (s & c & Hs & Hc & Hch).
    destruct (valid_proposer_prefs _ Hvalid e He) as (prefs & Hprefs & _).
    destruct (perfect_establishment _ _ HM' e He) as (s0 & _ & Hs0).
    assert ((Some s, Some e) ∈ prod_map id Some <$> SMA.engaged st) as Hin.
    { apply list_elem_of_fmap. exists (Some s, e). split; [done|].
      by apply get_Some_elem_of. }
    unfold SatisfactionAnalyzer.rank_of, SatisfactionAnalyzer.partner_of.
    rewrite Hprefs. simpl.
    rewrite (perfect_find_key _ _ HM _ _ Hin), (perfect_find_key _ _ HM' _ _ Hs0).
    eexists _, _. split_and!; [done..| |].
    + rewrite (choice_indexOf this e c s prefs Hvalid Hch Hprefs). lia.
    + pose proof (never_refused_final this Hvalid M Hrange
                    st e c s s0 HI HO Hs Hc Hch Hs0) as Hle.
      unfold rank in Hle. simpl in Hle. by rewrite Hprefs in Hle.
Qed.

Lemma proposer_optimal_witness :
  (∃ this' result,
     SMA.solveStudentsPropose 10 three_cycle = Some (this', Normal result) ∧
     ∀ s, s < 3 → ∃ a b,
       SatisfactionAnalyzer.rank_of (SMA.studentPrefs three_cycle)
         (SMA.sp_matching result) true s = Normal a ∧
       SatisfactionAnalyzer.rank_of (SMA.studentPrefs three_cycle)
         [(Some 1, Some 0); (Some 2, Some 1); (Some 0, Some 2)] true s = Normal b ∧
       (0 ≤ a ≤ b)%Z) ∧
  (∃ result,
     SMA.solveEstablishmentsPropose 10 three_cycle = Some (Normal result) ∧
     ∀ e, e < 3 → ∃ a b,
       SatisfactionAnalyzer.rank_of (SMA.establishmentPrefs three_cycle)
         (SMA.ep_matching result) false e = Normal a ∧
       SatisfactionAnalyzer.rank_of (SMA.establishmentPrefs three_cycle)
         [(Some 1, Some 0); (Some 2, Some 1); (Some 0, Some 2)] false e = Normal b ∧
       (0 ≤ a ≤ b)%Z).
Proof.
  apply (proposer_optimal three_cycle 10
           [(Some 1, Some 0); (Some 2, Some 1); (Some 0, Some 2)]).
  - by_evaluation.
  - simpl. lia.
  - by_evaluation.
  - reflexivity.
Defined.

Lemma sp_reachable_mirror this0 this st :
  sp_reachable this0 this st →
  this = SMA.set_proposalCounts this0 (SMA.proposalCounts this) ∧
  ep_reachable (mirror this0) st.
Proof.
  induction 1 as [|this st student rest this' st' _ [Hthis IH] Hfree Hbody].
  - split; [by destruct this0 | apply ep_start].
  - pose proof (sp_body_this this st student) as Hthis'.
    pose proof (sp_body_mirror this st student) as Hmirror.
    rewrite Hbody in Hthis', Hmirror. simpl in *. split.
    + rewrite Hthis', Hthis. done.
    + eapply ep_turn; [exact IH | exact Hfree |].
      rewrite Hmirror, Hthis. done.
Qed.

(** C8. On a valid instance no turn of either loop finds the first free
    proposer with its cursor at [n]: the branch of the exhausted proposer is
    never taken. *)
Theorem exhausted_unreachable this0 :
  valid this0 →
  (∀ this st, sp_reachable this0 this st → ¬ exhausted this st) ∧
  (∀ st, ep_reachable this0 st → ¬ exhausted this0 st).
Proof.
  intros Hvalid.
  assert (∀ this1 st, valid this1 → ep_reachable this1 st → ¬ exhausted this1 st)
    as Hep.
  { intros this1 st Hvalid1 HI%ep_reachable_Inv (p & rest & c & Hfree & Hc & Hge);
      [|done].
    assert (c < SMA.n this1); [|lia].
    eapply (free_cursor_lt this1 Hvalid1 st p); [done| |done].
    rewrite Hfree. left. }
  split; [|by auto].
  intros this st [Hthis Hreach]%sp_reachable_mirror Hex.
  apply (Hep (mirror this0) st); [by apply valid_mirror|done|].
  rewrite Hthis in Hex. exact Hex.
Qed.

Lemma exhausted_unreachable_witness :
  (∀ this st, sp_reachable two_by_two this st → ¬ exhausted this st) ∧
  (∀ st, ep_reachable two_by_two st → ¬ exhausted two_by_two st).
Proof. apply (exhausted_unreachable two_by_two). by_evaluation. Defined.

(** C9, as stated, fails: on the two-by-two instance a call of
    [solveStudentsPropose] changes the field [proposalCounts], and a second
    call returns other counts than the first. *)
Lemma solve_twice_differs :
  let matching := [(Some 1, Some 0); (Some 0, Some 1)] in
  let after_one := SMA.set_proposalCounts two_by_two [Count 2; Count 1] in
  let after_two := SMA.set_proposalCounts two_by_two [Count 4; Count 2] in
  let first := {| SMA.sp_matching := matching;
                  SMA.sp_proposalCounts := [Count 2; Count 1] |} in
  let second := {| SMA.sp_matching := matching;
                   SMA.sp_proposalCounts := [Count 4; Count 2] |} in
  SMA.solveStudentsPropose 5 two_by_two = Some (after_one, Normal first) ∧
  SMA.solveStudentsPropose 5 after_one = Some (after_two, Normal second) ∧
  after_one ≠ two_by_two ∧ second ≠ first.
Proof. split_and!; [reflexivity | reflexivity | discriminate | discriminate]. Qed.

(** C9, amended. [solveStudentsPropose] leaves the participants, the
    preference lists and [n] as they were and adds to [proposalCounts] the
    proposals each student made; it returns a copy of that array.  Two calls
    in a row on a freshly built valid instance return the same matching, and
    the counts of the second are twice those of the first. *)
Theorem solve_twice this fuel :
  valid this →
  SMA.proposalCounts this = replicate (SMA.n this) (Count 0) →
  SMA.n this * SMA.n this < fuel →
  ∃ made matching,
    length made = SMA.n this ∧
    let after_one := SMA.set_proposalCounts this (Count <$> made) in
    let after_two :=
      SMA.set_proposalCounts this (Count <$> ((λ k, 2 * k) <$> made)) in
    SMA.solveStudentsPropose fuel this
      = Some (after_one,
              Normal {| SMA.sp_matching := matching;
                        SMA.sp_proposalCounts := Count <$> made |}) ∧
    SMA.solveStudentsPropose fuel after_one
      = Some (after_two,
              Normal {| SMA.sp_matching := matching;
                        SMA.sp_proposalCounts := Count <$> ((λ k, 2 * k) <$> made) |}).
Proof.
  intros Hvalid Hfresh Hfuel.
  destruct (solveStudentsPropose_fresh this fuel Hvalid Hfresh Hfuel)
    as (st & HI & Hfree & Hm1 & Hsolve).
  exists (cursors (SMA.n this) st), (flip <$> SMA.engaged st).
  split; [unfold cursors; by rewrite length_fmap, length_seq|].
  simpl. split; [done|].
  set (after_one := SMA.set_proposalCounts this (Count <$> cursors (SMA.n this) st)).
  destruct (solveStudentsPropose_final after_one (λ _, True) fuel)
    as (this2 & st2 & HI2 & Hfree2 & _ & Hthis2 & Hw2 & Hsolve2); [done..|].
  assert (st2 = st) as ->.
  { pose proof (sp_while_mirror fuel after_one (SMA.initial (SMA.students this)))
      as Hm2.
    change (SMA.students after_one) with (SMA.students this) in Hw2.
    rewrite Hw2 in Hm2. unfold after_one in Hm2.
    rewrite ep_while_set_proposalCounts, Hm1 in Hm2. simpl in Hm2. congruence. }
  assert (SMA.proposalCounts this2
            = Count <$> ((λ k, 2 * k) <$> cursors (SMA.n this) st)) as Hcounts.
  { apply counts_follow_double.
    - intros p Hp. destruct (inv_cursor _ _ HI p Hp) as (c & -> & _). done.
    - apply (sp_while_counts _ this fuel Hvalid
               (Count <$> cursors (SMA.n this) st)
               (SMA.initial (SMA.students this))); [|  |exact Hw2].
      + by apply (Inv_initial (mirror this)), valid_mirror.
      + split; [unfold cursors; by rewrite !length_fmap, length_seq|].
        intros s c Hs Hc. apply get_zero_cursors in Hc as ->.
        * unfold cursors. rewrite !list_lookup_fmap, lookup_seq_lt by done.
          simpl. do 2 f_equal. lia.
        * destruct Hvalid as (-> & _). apply NoDup_seq. }
  rewrite Hsolve2, Hthis2, Hcounts. done.
Qed.

Lemma solve_twice_witness :
  ∃ made matching,
    length made = 2 ∧
    let after_one := SMA.set_proposalCounts two_by_two (Count <$> made) in
    let after_two :=
      SMA.set_proposalCounts two_by_two (Count <$> ((λ k, 2 * k) <$> made)) in
    SMA.solveStudentsPropose 5 two_by_two
      = Some (after_one,
              Normal {| SMA.sp_matching := matching;
                        SMA.sp_proposalCounts := Count <$> made |}) ∧
    SMA.solveStudentsPropose 5 after_one
      = Some (after_two,
              Normal {| SMA.sp_matching := matching;
                        SMA.sp_proposalCounts := Count <$> ((λ k, 2 * k) <$> made) |}).
Proof.
  apply (solve_twice two_by_two 5); [by_evaluation | reflexivity | simpl; lia].
Defined.

(** C7, as stated, fails for [solveEstablishmentsPropose]: on the
    three-cycle instance the entry [1 ↦ 0] of the returned map is not
    "establishment 1 with the student of its last proposal" (that student
    is 2). *)
Lemma ep_not_keyed_by_proposer :
  ∃ result,
    SMA.solveEstablishmentsPropose 10 three_cycle = Some (Normal result) ∧
    ¬ keyed_by_proposer (SMA.establishmentPrefs three_cycle)
        (JsMap.get (SMA.ep_proposalCounts result)) (SMA.ep_matching result).
Proof.
  eexists. split; [reflexivity|]. intros Hkeyed.
  destruct (Hkeyed (Some 1) (Some 0)) as (p & [= <-] & _ & Heq); [left|].
  vm_compute in Heq. discriminate.
Qed.

Lemma count_at_cursors n st s c :
  s < n → cursor st s = Some c → count_at (Count <$> cursors n st) s = Some c.
Proof.
  intros Hs Hc. unfold count_at, cursors.
  rewrite !list_lookup_fmap, lookup_seq_lt by done. simpl. by rewrite Hc.
Qed.

(** C7, amended. In both directions the returned map is keyed by student and
    its values are establishments.  For [solveStudentsPropose] that is
    proposer to receiver: [matching.get(s)] is the establishment student [s]
    proposed to last.  For [solveEstablishmentsPropose] it is receiver to
    proposer: an entry [s ↦ e] says that the last proposal of establishment
    [e] went to student [s]. *)
Theorem matching_keyed_by_student this fuel :
  valid this →
  SMA.proposalCounts this = replicate (SMA.n this) (Count 0) →
  SMA.n this * SMA.n this < fuel →
  (∃ this' result,
     SMA.solveStudentsPropose fuel this = Some (this', Normal result) ∧
     keyed_by_proposer (SMA.studentPrefs this)
       (count_at (SMA.sp_proposalCounts result)) (SMA.sp_matching result)) ∧
  (∃ result,
     SMA.solveEstablishmentsPropose fuel this = Some (Normal result) ∧
     keyed_by_receiver (SMA.establishmentPrefs this)
       (JsMap.get (SMA.ep_proposalCounts result)) (SMA.ep_matching result)).
Proof.
  intros Hvalid Hfresh Hfuel. split.
  - destruct (solveStudentsPropose_fresh this fuel Hvalid Hfresh Hfuel)
      as (st & HI & Hfree & _ & Hsolve).
    eexists _, _. split; [exact Hsolve|]. simpl. intros k v Hin.
    apply list_elem_of_fmap in Hin as ([ke s] & [= -> ->] & Hin). simpl.
    destruct (final_entry (mirror this) (valid_mirror _ Hvalid) st HI _ _ Hin)
      as (e & c & -> & _ & Hs & _ & Hc & Hch).
    exists s. split_and!; [done..|].
    rewrite (count_at_cursors (SMA.n this) st s (S c) Hs Hc). by rewrite <- Hch.
  - destruct (solveEstablishmentsPropose_final this Hvalid (λ _, True) fuel)
      as (st & HI & Hfree & _ & Hsolve); [done..|].
    eexists. split; [exact Hsolve|]. simpl. intros k v Hin.
    apply list_elem_of_fmap in Hin as ([ks e] & [= -> ->] & Hin). simpl.
    destruct (final_entry this Hvalid st HI _ _ Hin)
      as (s & c & -> & _ & He & _ & Hc & Hch).
    exists e. split_and!; [done..|].
    unfold cursor in Hc. rewrite Hc. by rewrite <- Hch.
Qed.

Lemma matching_keyed_by_student_witness :
  (∃ this' result,
     SMA.solveStudentsPropose 10 three_cycle = Some (this', Normal result) ∧
     keyed_by_proposer (SMA.studentPrefs three_cycle)
       (count_at (SMA.sp_proposalCounts result)) (SMA.sp_matching result)) ∧
  (∃ result,
     SMA.solveEstablishmentsPropose 10 three_cycle = Some (Normal result) ∧
     keyed_by_receiver (SMA.establishmentPrefs three_cycle)
       (JsMap.get (SMA.ep_proposalCounts result)) (SMA.ep_matching result)).
Proof.
  apply (matching_keyed_by_student three_cycle 10);
    [by_evaluation | reflexivity | simpl; lia].
Defined.

(** C10. A student [s] for whom [matching.get(s)] is [undefined] adds no
    blocking pair: its turn of the outer loop leaves the list as it is and no
    reported pair names it.  On the empty matching the verdict is "stable"
    with no pair, provided [studentPrefs] has its [n] lists. *)
Theorem verifyStability_unmatched this matching s :
  SMA.n this ≤ length (SMA.studentPrefs this) →
  s < SMA.n this →
  mjoin (JsMap.get matching (Some s)) = None →
  (∀ blockingPairs,
     SMA.check_student this matching s blockingPairs = Normal blockingPairs) ∧
  (∀ verdict bp,
     SMA.verifyStability this matching = Normal verdict →
     bp ∈ SMA.blockingPairs verdict → SMA.student bp ≠ s) ∧
  SMA.verifyStability this []
    = Normal {| SMA.stable := true; SMA.blockingPairs := [] |}.
Proof.
  intros Hlen Hs Hget. split_and!.
  - intros bps. unfold SMA.check_student.
    destruct (lookup_lt_is_Some_2 (SMA.studentPrefs this) s) as [prefs ->]; [lia|].
    simpl. by rewrite Hget, indexOf_undefined.
  - intros verdict bp. unfold SMA.verifyStability.
    destruct (for_loop _ _ _ _) as [bps|] eqn:Hloop; simpl; [|done].
    intros [= <-]. simpl.
    apply (for_loop_appends
             (λ bp, mjoin (JsMap.get matching (Some (SMA.student bp))) ≠ None))
      in Hloop as (new & -> & Hnew); [|intros ???; apply check_student_appends].
    simpl. intros Hbp Heq. eapply Forall_forall in Hnew; [|exact Hbp].
    by rewrite Heq in Hnew.
  - apply verifyStability_stable. intros s' Hs'.
    destruct (lookup_lt_is_Some_2 (SMA.studentPrefs this) s') as [prefs Hprefs]; [lia|].
    exists prefs. split; [done|]. intros prefRank. simpl.
    rewrite indexOf_undefined. lia.
Qed.

Lemma verifyStability_unmatched_witness :
  (∀ blockingPairs,
     SMA.check_student two_by_two [(Some 0, Some 1)] 1 blockingPairs
       = Normal blockingPairs) ∧
  (∀ verdict bp,
     SMA.verifyStability two_by_two [(Some 0, Some 1)] = Normal verdict →
     bp ∈ SMA.blockingPairs verdict → SMA.student bp ≠ 1) ∧
  SMA.verifyStability two_by_two []
    = Normal {| SMA.stable := true; SMA.blockingPairs := [] |}.
Proof.
  apply (verifyStability_unmatched two_by_two [(Some 0, Some 1)] 1);
    [simpl; lia | simpl; lia | reflexivity].
Defined.

(** C6, as stated, fails: the list [[0, 0]] of student 0 repeats establishment
    0 and leaves establishment 1 out, yet the constructor completes and
    [solveStudentsPropose] returns a matching without any exception. *)
Lemma constructor_accepts_malformed :
  malformed 2 [0; 0] ∧
  SMA.constructor [0; 1] [0; 1] [[0; 0]; [0; 1]] [[0; 1]; [0; 1]]
    = Normal repeated_entry ∧
  SMA.solveStudentsPropose 5 repeated_entry
    = Some (SMA.set_proposalCounts repeated_entry [Count 1; Count 2],
            Normal {| SMA.sp_matching := [(Some 0, Some 0); (Some 1, Some 1)];
                      SMA.sp_proposalCounts := [Count 1; Count 2] |}).
Proof.
  split_and!; [|reflexivity..]. right. left. by_evaluation.
Qed.

(** C6, amended. The constructor checks nothing: whatever the lists, it
    completes normally and stores them as given, with [n] the number of
    students and every proposal count at zero. *)
Theorem constructor_stores students establishments studentPrefs establishmentPrefs :
  ∃ this,
    SMA.constructor students establishments studentPrefs establishmentPrefs
      = Normal this ∧
    SMA.students this = students ∧
    SMA.establishments this = establishments ∧
    SMA.studentPrefs this = studentPrefs ∧
    SMA.establishmentPrefs this = establishmentPrefs ∧
    SMA.n this = length students ∧
    SMA.proposalCounts this = replicate (length students) (Count 0).
Proof. eexists. by split_and!. Qed.

(** C4, as stated, fails: on the two-by-two instance the students-propose
    run does not match student 0 with establishment 0, and the matching
    [{0 ↦ 0, 1 ↦ 1}] is not stable: student 1 and establishment 0 block it. *)
Lemma two_by_two_not_identity :
  (∃ this' result,
     SMA.solveStudentsPropose 5 two_by_two = Some (this', Normal result) ∧
     JsMap.get (SMA.sp_matching result) (Some 0) ≠ Some (Some 0)) ∧
  SMA.verifyStability two_by_two [(Some 0, Some 0); (Some 1, Some 1)]
    = Normal {| SMA.stable := false;
                SMA.blockingPairs :=
                  [{| SMA.student := 1; SMA.establishment := Some 0 |}] |}.
Proof. split; [|reflexivity]. eexists _, _. split; [reflexivity|]. discriminate. Qed.

(** C4, amended. On the two-by-two instance the students-propose run, with
    any fuel from 4 on, returns [{1 ↦ 0, 0 ↦ 1}] after 2 proposals of student
    0 and 1 of student 1; [verifyStability] finds it stable; [fullAnalysis]
    gives both sides average rank 1/2, top-1 share 50, top-3 share 100 and
    satisfaction 50, with egalitarian cost 2 and [sexEquality] 0. *)
Theorem two_by_two_scenario (extra : nat) :
  let matching := [(Some 1, Some 0); (Some 0, Some 1)] in
  let side := {| SatisfactionAnalyzer.Report.avgRank := Finite (1 # 2);
                 SatisfactionAnalyzer.Report.top1 := Finite (50 # 1);
                 SatisfactionAnalyzer.Report.top3 := Finite (100 # 1);
                 SatisfactionAnalyzer.Report.satisfaction := Finite (50 # 1) |} in
  SMA.solveStudentsPropose (4 + extra) two_by_two
    = Some (SMA.set_proposalCounts two_by_two [Count 2; Count 1],
            Normal {| SMA.sp_matching := matching;
                      SMA.sp_proposalCounts := [Count 2; Count 1] |}) ∧
  SMA.verifyStability two_by_two matching
    = Normal {| SMA.stable := true; SMA.blockingPairs := [] |} ∧
  SatisfactionAnalyzer.fullAnalysis
    (SatisfactionAnalyzer.constructor matching
       (SMA.studentPrefs two_by_two) (SMA.establishmentPrefs two_by_two))
    matching
    = Normal {| SatisfactionAnalyzer.Report.students := side;
                SatisfactionAnalyzer.Report.establishments := side;
                SatisfactionAnalyzer.Report.overall :=
                  {| SatisfactionAnalyzer.Report.egalitarianCost := 2;
                     SatisfactionAnalyzer.Report.sexEquality := Finite (0 # 1) |} |}.
Proof. split_and!; reflexivity. Qed.

(** C5: with one participant a side the score is not 100. The division
    [rank / (n - 1)] is [0 / 0], so the score of the only participant and the
    satisfaction of both sides are [NaN], and so is [sexEquality]. *)
Theorem satisfaction_single_participant :
  let matching := [(Some 0, Some 0)] in
  let analyzer := SatisfactionAnalyzer.constructor matching [[0]] [[0]] in
  SMA.solveStudentsPropose 2 one_by_one
    = Some (SMA.set_proposalCounts one_by_one [Count 1],
            Normal {| SMA.sp_matching := matching;
                      SMA.sp_proposalCounts := [Count 1] |}) ∧
  SatisfactionAnalyzer.score analyzer 0 = NaN ∧
  SatisfactionAnalyzer.satisfactionScore analyzer [[0]] matching true = Normal NaN ∧
  SatisfactionAnalyzer.satisfactionScore analyzer [[0]] matching false = Normal NaN ∧
  SatisfactionAnalyzer.sexEquality analyzer matching = Normal NaN.
Proof. split_and!; reflexivity. Qed.


(** * Generation, metrics and the experiment *)

(** ** [shuffle] and [generateRandomPreferences] *)







(** ** The metrics never throw on a perfect matching *)

Lemma for_loop_total {A} (body : nat → A → completion A) lo count acc :
  (∀ i a, lo ≤ i < lo + count → ∃ a', body i a = Normal a') →
  ∃ acc', for_loop body lo count acc = Normal acc'.
Proof.
  revert lo acc. induction count as [|count IH]; intros lo acc Hbody; simpl.
  - by exists acc.
  - destruct (Hbody lo acc) as [a ->]; [lia|]. simpl.
    apply IH. intros i a' Hi. apply Hbody. lia.
Qed.

Section analyzer_total.
Context (this : SatisfactionAnalyzer.t) (prefs : list (list nat)).
Context (matching : list (value * value)) (isStudent : bool).
Context (Hprefs : SatisfactionAnalyzer.n this ≤ length prefs).

Lemma rank_of_total i :
  i < SatisfactionAnalyzer.n this →
  ∃ r, SatisfactionAnalyzer.rank_of prefs matching isStudent i = Normal r.
Proof.
  intros Hi. unfold SatisfactionAnalyzer.rank_of.
  destruct (lookup_lt_is_Some_2 prefs i) as [l ->]; [lia|]. by eexists.
Qed.

Lemma averageRank_total :
  ∃ a, SatisfactionAnalyzer.averageRank this prefs matching isStudent = Normal a.
Proof.
  unfold SatisfactionAnalyzer.averageRank.
  edestruct (for_loop_total (A:=Z)) as [t ->]; [|by eexists].
  intros i a Hi. destruct (rank_of_total i) as [r ->]; [lia|]. by eexists.
Qed.

Lemma topKPercentage_total k :
  ∃ a, SatisfactionAnalyzer.topKPercentage this prefs matching k isStudent = Normal a.
Proof.
  unfold SatisfactionAnalyzer.topKPercentage.
  edestruct (for_loop_total (A:=Z)) as [t ->]; [|by eexists].
  intros i a Hi. destruct (rank_of_total i) as [r ->]; [lia|]. by eexists.
Qed.

Lemma satisfactionScore_total :
  ∃ a, SatisfactionAnalyzer.satisfactionScore this prefs matching isStudent = Normal a.
Proof.
  unfold SatisfactionAnalyzer.satisfactionScore.
  edestruct (for_loop_total (A:=number)) as [t ->]; [|by eexists].
  intros i a Hi. destruct (rank_of_total i) as [r ->]; [lia|]. by eexists.
Qed.

Lemma side_report_total :
  ∃ a, SatisfactionAnalyzer.side_report this prefs matching isStudent = Normal a.
Proof.
  unfold SatisfactionAnalyzer.side_report.
  destruct averageRank_total as [? ->]. simpl.
  destruct (topKPercentage_total 1) as [? ->]. simpl.
  destruct (topKPercentage_total 3) as [? ->]. simpl.
  destruct satisfactionScore_total as [? ->]. by eexists.
Qed.
End analyzer_total.

(** ** Sums of ranks *)

Lemma Zsum_S f lo count : Zsum f lo (S count) = (f lo + Zsum f (S lo) count)%Z.
Proof. done. Qed.

Lemma for_loop_Zsum (f : nat → Z) (body : nat → Z → completion Z) lo count acc :
  (∀ i a, lo ≤ i < lo + count → body i a = Normal (a + f i)%Z) →
  for_loop body lo count acc = Normal (acc + Zsum f lo count)%Z.
Proof.
  revert lo acc. induction count as [|count IH]; intros lo acc Hbody.
  - simpl. f_equal. unfold Zsum. simpl. lia.
  - simpl. rewrite Hbody by lia. simpl. rewrite IH.
    + f_equal. rewrite Zsum_S. lia.
    + intros i a Hi. apply Hbody. lia.
Qed.

Lemma Zsum_ext f g lo count :
  (∀ i, lo ≤ i < lo + count → f i = g i) → Zsum f lo count = Zsum g lo count.
Proof.
  revert lo. induction count as [|count IH]; intros lo Hfg; [done|].
  rewrite !Zsum_S, Hfg by lia. f_equal. apply IH. intros i Hi. apply Hfg. lia.
Qed.

Lemma Zsum_le f g lo count :
  (∀ i, lo ≤ i < lo + count → (f i ≤ g i)%Z) →
  (Zsum f lo count ≤ Zsum g lo count)%Z.
Proof.
  revert lo. induction count as [|count IH]; intros lo Hfg; [done|].
  rewrite !Zsum_S. pose proof (Hfg lo ltac:(lia)).
  assert (Zsum f (S lo) count ≤ Zsum g (S lo) count)%Z; [|lia].
  apply IH. intros i Hi. apply Hfg. lia.
Qed.

Lemma Zsum_const c lo count : Zsum (λ _, c) lo count = (Z.of_nat count * c)%Z.
Proof.
  revert lo. induction count as [|count IH]; intros lo; [done|].
  rewrite Zsum_S, IH. lia.
Qed.

Lemma Zsum_add f g lo count :
  Zsum (λ i, f i + g i)%Z lo count = (Zsum f lo count + Zsum g lo count)%Z.
Proof.
  revert lo. induction count as [|count IH]; intros lo; [done|].
  rewrite !Zsum_S, IH. lia.
Qed.

Lemma foldr_Zadd_Permutation (l1 l2 : list Z) :
  l1 ≡ₚ l2 → foldr Z.add 0%Z l1 = foldr Z.add 0%Z l2.
Proof. induction 1; simpl; lia. Qed.

Lemma Zsum_fmap {A} (g : A → Z) (h : nat → A) lo count :
  Zsum (λ i, g (h i)) lo count = foldr Z.add 0%Z (g <$> (h <$> seq lo count)).
Proof. unfold Zsum. by rewrite <- list_fmap_compose. Qed.

Section perfect_entries.
Context (n : nat) (M : list (value * value)) (HM : perfect n M).

Lemma entries_by_student :
  (λ s, (Some s, mjoin (JsMap.get M (Some s)))) <$> seq 0 n ≡ₚ M.
Proof.
  assert (M = (λ k, (k, mjoin (JsMap.get M k))) <$> M.*1) as HMk.
  { rewrite <- list_fmap_compose. rewrite <- (list_fmap_id M) at 1.
    apply list_fmap_ext. intros i [k v] Hi. simpl.
    apply list_elem_of_lookup_2 in Hi.
    by rewrite (elem_of_get M k v (perfect_NoDup_keys _ _ HM) Hi). }
  transitivity ((λ k, (k, mjoin (JsMap.get M k))) <$> M.*1); [|by rewrite <- HMk].
  destruct HM as [Hk _]. rewrite Hk. by rewrite <- list_fmap_compose.
Qed.

Lemma entries_by_establishment :
  (λ e, (JsMap.find_key M (Some e), Some e)) <$> seq 0 n ≡ₚ M.
Proof.
  assert (M = (λ v, (JsMap.find_key M v, v)) <$> M.*2) as HMv.
  { rewrite <- list_fmap_compose. rewrite <- (list_fmap_id M) at 1.
    apply list_fmap_ext. intros i [k v] Hi. simpl.
    apply list_elem_of_lookup_2 in Hi.
    by rewrite (find_key_elem_of M k v (perfect_NoDup_values _ _ HM) Hi). }
  transitivity ((λ v, (JsMap.find_key M v, v)) <$> M.*2); [|by rewrite <- HMv].
  destruct HM as [_ Hv]. rewrite Hv. by rewrite <- list_fmap_compose.
Qed.
End perfect_entries.

(** ** The metrics of a perfect matching on a valid instance *)

Section metrics_on_perfect.
Context (this : SMA.t) (Hvalid : valid this).
Context (M : list (value * value)) (HM : perfect (SMA.n this) M).

Local Abbreviation analyzer :=
  (SatisfactionAnalyzer.constructor M
     (SMA.studentPrefs this) (SMA.establishmentPrefs this)).
Local Abbreviation side_prefs isStudent :=
  (if isStudent : bool then SMA.studentPrefs this else SMA.establishmentPrefs this).

Lemma analyzer_n : SatisfactionAnalyzer.n analyzer = SMA.n this.
Proof. simpl. by destruct Hvalid as (_ & _ & ? & _). Qed.

Lemma rank_of_rank_at (isStudent : bool) i :
  i < SMA.n this →
  SatisfactionAnalyzer.rank_of (side_prefs isStudent) M isStudent i
    = Normal (rank_at (side_prefs isStudent) M isStudent i) ∧
  (0 ≤ rank_at (side_prefs isStudent) M isStudent i ≤ Z.of_nat (SMA.n this) - 1)%Z.
Proof.
  intros Hi. destruct (rank_of_range this M isStudent i Hvalid HM Hi) as (r & Hr & ?).
  unfold rank_at. by rewrite Hr.
Qed.

Lemma averageRank_perfect (isStudent : bool) :
  SatisfactionAnalyzer.averageRank analyzer (side_prefs isStudent) M isStudent
    = Normal (Number.div
                (Number.of_Z (Zsum (rank_at (side_prefs isStudent) M isStudent)
                                0 (SMA.n this)))
                (Number.of_Z (Z.of_nat (SMA.n this)))).
Proof.
  unfold SatisfactionAnalyzer.averageRank. rewrite analyzer_n.
  rewrite (for_loop_Zsum (rank_at (side_prefs isStudent) M isStudent)); [done|].
  intros i a Hi. destruct (rank_of_rank_at isStudent i) as [-> _]; [lia|done].
Qed.

Lemma Zsum_entry_rank :
  Zsum (λ s, entry_rank (SMA.establishmentPrefs this)
               (Some s, mjoin (JsMap.get M (Some s)))) 0 (SMA.n this)
    = Zsum (rank_at (SMA.establishmentPrefs this) M false) 0 (SMA.n this).
Proof.
  rewrite (Zsum_fmap (entry_rank (SMA.establishmentPrefs this))
             (λ s, (Some s, mjoin (JsMap.get M (Some s))))).
  rewrite (foldr_Zadd_Permutation _
             (entry_rank (SMA.establishmentPrefs this) <$>
                ((λ e, (JsMap.find_key M (Some e), Some e)) <$> seq 0 (SMA.n this)))).
  - rewrite <- Zsum_fmap. apply Zsum_ext. intros e He.
    unfold entry_rank, rank_at, SatisfactionAnalyzer.rank_of,
      SatisfactionAnalyzer.partner_of. simpl.
    destruct (valid_proposer_prefs _ Hvalid e) as (l & -> & _); [lia|]. done.
  - by rewrite (entries_by_student _ _ HM), (entries_by_establishment _ _ HM).
Qed.

Lemma egalitarianCost_perfect :
  SatisfactionAnalyzer.egalitarianCost analyzer M
    = Normal (Zsum (rank_at (SMA.studentPrefs this) M true) 0 (SMA.n this)
              + Zsum (rank_at (SMA.establishmentPrefs this) M false) 0 (SMA.n this))%Z.
Proof.
  unfold SatisfactionAnalyzer.egalitarianCost. rewrite analyzer_n.
  rewrite (for_loop_Zsum (λ s,
    rank_at (SMA.studentPrefs this) M true s
    + entry_rank (SMA.establishmentPrefs this)
        (Some s, mjoin (JsMap.get M (Some s))))%Z).
  - by rewrite Zsum_add, Zsum_entry_rank.
  - intros s a Hs. simpl.
    destruct (perfect_student _ _ HM s) as (e & He & Hin); [lia|].
    rewrite (perfect_get _ _ HM _ _ Hin).
    destruct (valid_receiver_prefs _ Hvalid s) as (l & Hl & _); [lia|].
    destruct (valid_proposer_prefs _ Hvalid e He) as (ranking & Hranking & _).
    unfold rank_at, SatisfactionAnalyzer.rank_of, SatisfactionAnalyzer.partner_of,
      entry_rank.
    rewrite (perfect_get _ _ HM _ _ Hin), Hl. simpl. by rewrite Hranking.
Qed.

Lemma Zsum_rank_at_bounds (isStudent : bool) :
  (0 ≤ Zsum (rank_at (side_prefs isStudent) M isStudent) 0 (SMA.n this)
     ≤ Z.of_nat (SMA.n this) * (Z.of_nat (SMA.n this) - 1))%Z.
Proof.
  split.
  - rewrite <- (Z.mul_0_r (Z.of_nat (SMA.n this))), <- (Zsum_const 0 0).
    apply Zsum_le. intros i Hi. apply rank_of_rank_at. lia.
  - rewrite <- (Zsum_const _ 0). apply Zsum_le. intros i Hi.
    apply rank_of_rank_at. lia.
Qed.

Lemma egalitarianCost_total_any :
  ∃ c, SatisfactionAnalyzer.egalitarianCost analyzer M = Normal c.
Proof. rewrite egalitarianCost_perfect. by eexists. Qed.

Lemma fullAnalysis_total :
  ∃ report, SatisfactionAnalyzer.fullAnalysis analyzer M = Normal report.
Proof.
  assert (SatisfactionAnalyzer.n analyzer ≤ length (SMA.studentPrefs this)) as Hs
    by done.
  assert (SatisfactionAnalyzer.n analyzer ≤ length (SMA.establishmentPrefs this))
    as He.
  { rewrite analyzer_n. by destruct Hvalid as (_ & _ & _ & _ & -> & _). }
  unfold SatisfactionAnalyzer.fullAnalysis, SatisfactionAnalyzer.sexEquality.
  change (SatisfactionAnalyzer.studentPrefs analyzer) with (SMA.studentPrefs this).
  change (SatisfactionAnalyzer.establishmentPrefs analyzer)
    with (SMA.establishmentPrefs this).
  destruct (side_report_total analyzer _ M true Hs) as [? ->]. simpl.
  destruct (side_report_total analyzer _ M false He) as [? ->]. simpl.
  rewrite egalitarianCost_perfect. simpl.
  destruct (satisfactionScore_total analyzer _ M true Hs) as [? ->]. simpl.
  destruct (satisfactionScore_total analyzer _ M false He) as [? ->]. simpl.
  by eexists.
Qed.
End metrics_on_perfect.

(** What the fields of a report are. *)
Lemma fullAnalysis_inv this matching report :
  SatisfactionAnalyzer.fullAnalysis this matching = Normal report →
  let students := SatisfactionAnalyzer.Report.students report in
  let establishments := SatisfactionAnalyzer.Report.establishments report in
  let overall := SatisfactionAnalyzer.Report.overall report in
  let sprefs := SatisfactionAnalyzer.studentPrefs this in
  let eprefs := SatisfactionAnalyzer.establishmentPrefs this in
  SatisfactionAnalyzer.averageRank this sprefs matching true
    = Normal (SatisfactionAnalyzer.Report.avgRank students) ∧
  SatisfactionAnalyzer.topKPercentage this sprefs matching 1 true
    = Normal (SatisfactionAnalyzer.Report.top1 students) ∧
  SatisfactionAnalyzer.topKPercentage this sprefs matching 3 true
    = Normal (SatisfactionAnalyzer.Report.top3 students) ∧
  SatisfactionAnalyzer.satisfactionScore this sprefs matching true
    = Normal (SatisfactionAnalyzer.Report.satisfaction students) ∧
  SatisfactionAnalyzer.averageRank this eprefs matching false
    = Normal (SatisfactionAnalyzer.Report.avgRank establishments) ∧
  SatisfactionAnalyzer.topKPercentage this eprefs matching 1 false
    = Normal (SatisfactionAnalyzer.Report.top1 establishments) ∧
  SatisfactionAnalyzer.topKPercentage this eprefs matching 3 false
    = Normal (SatisfactionAnalyzer.Report.top3 establishments) ∧
  SatisfactionAnalyzer.satisfactionScore this eprefs matching false
    = Normal (SatisfactionAnalyzer.Report.satisfaction establishments) ∧
  SatisfactionAnalyzer.egalitarianCost this matching
    = Normal (SatisfactionAnalyzer.Report.egalitarianCost overall) ∧
  SatisfactionAnalyzer.sexEquality this matching
    = Normal (SatisfactionAnalyzer.Report.sexEquality overall).
Proof.
  unfold SatisfactionAnalyzer.fullAnalysis, SatisfactionAnalyzer.side_report.
  destruct (SatisfactionAnalyzer.averageRank this _ matching true); [|done].
  destruct (SatisfactionAnalyzer.topKPercentage this _ matching 1 true); [|done].
  destruct (SatisfactionAnalyzer.topKPercentage this _ matching 3 true); [|done].
  destruct (SatisfactionAnalyzer.satisfactionScore this _ matching true); [|done].
  destruct (SatisfactionAnalyzer.averageRank this _ matching false); [|done].
  destruct (SatisfactionAnalyzer.topKPercentage this _ matching 1 false); [|done].
  destruct (SatisfactionAnalyzer.topKPercentage this _ matching 3 false); [|done].
  destruct (SatisfactionAnalyzer.satisfactionScore this _ matching false); [|done].
  destruct (SatisfactionAnalyzer.egalitarianCost this matching); [|done].
  destruct (SatisfactionAnalyzer.sexEquality this matching); [|done].
  simpl. intros [= <-]. simpl. by split_and!.
Qed.

(** ** [runExperiment] *)


(** ** The loops end on every instance *)

Lemma length_add_le (s : list nat) x : length (JsSet.add x s) ≤ S (length s).
Proof. unfold JsSet.add. case_decide; [lia|]. rewrite length_app. simpl. lia. Qed.

Lemma length_delete_lt (s : list nat) x :
  x ∈ s → length (JsSet.delete x s) < length s.
Proof. intros Hx. apply (length_filter_lt _ _ x); [done|]. by intros ?. Qed.

Lemma slack_set_zero n (m : list (nat * nat)) x :
  slack n (JsMap.set x 0 m) ≤ slack n m + n.
Proof.
  unfold slack. induction m as [|[k0 c0] m IH]; csimpl; [lia|].
  case_decide; csimpl; lia.
Qed.

Lemma turns_left_initial n xs : turns_left n (SMA.initial xs) ≤ length xs * (n + 1).
Proof.
  unfold turns_left, SMA.initial, SMA.zero_cursors, JsSet.of_array. simpl.
  assert (∀ m, slack n (foldl (λ m x, JsMap.set x 0 m) m xs)
               ≤ slack n m + length xs * n) as Hslack.
  { induction xs as [|x xs IH]; intros m; simpl; [lia|].
    specialize (IH (JsMap.set x 0 m)). pose proof (slack_set_zero n m x). lia. }
  assert (∀ s : list nat, length (foldl (λ s x, JsSet.add x s) s xs)
               ≤ length s + length xs) as Hfree.
  { clear Hslack. induction xs as [|x xs IH]; intros s; simpl; [lia|].
    specialize (IH (JsSet.add x s)). pose proof (length_add_le s x). lia. }
  specialize (Hslack []). specialize (Hfree []). unfold slack in Hslack at 2.
  simpl in *. lia.
Qed.

Lemma ep_body_turns_left this st p rest st' :
  has_cursors st → SMA.free st = p :: rest →
  SMA.ep_body this st p = Normal st' →
  turns_left (SMA.n this) st' < turns_left (SMA.n this) st.
Proof.
  intros [Hcur _] Hfree. unfold SMA.ep_body, turns_left.
  assert (p ∈ SMA.free st) as Hp by (rewrite Hfree; left).
  destruct (Hcur p Hp) as [c Hc]. unfold cursor in Hc. rewrite Hc.
  pose proof (length_delete_lt _ _ Hp) as Hdel.
  case_decide as Hn.
  - intros [= <-]. simpl. lia.
  - pose proof (slack_set (SMA.n this) _ p c Hc ltac:(lia)) as Hslack.
    repeat case_match; try done; intros [= <-]; simpl;
      try match goal with
          | |- context [JsSet.add ?q (JsSet.delete p (SMA.free st))] =>
              pose proof (length_add_le (JsSet.delete p (SMA.free st)) q)
          end; lia.
Qed.

Lemma ep_while_terminates this fuel st :
  has_cursors st → turns_left (SMA.n this) st < fuel →
  ∃ outcome, SMA.ep_while fuel this st = Some outcome ∧
    ((∃ st', outcome = Normal st') ∨ outcome = Throw TypeError).
Proof.
  revert st. induction fuel as [|fuel IH]; intros st Hst Hfuel; [lia|].
  pose proof (ep_while_cursor this (S fuel) st Hst) as Hno.
  simpl in *. destruct (SMA.free st) as [|p rest] eqn:Hfree.
  - eexists. split; [done|]. left. by eexists.
  - destruct (SMA.ep_body this st p) as [st'|e] eqn:Hbody.
    + apply IH.
      * eapply ep_body_has_cursors; [done| |done]. rewrite Hfree. left.
      * pose proof (ep_body_turns_left this st p rest st' Hst Hfree Hbody). lia.
    + eexists. split; [done|]. right. destruct e; [done|]. by destruct Hno.
Qed.

Lemma solveEstablishmentsPropose_terminates this fuel :
  length (SMA.establishments this) * (SMA.n this + 1) < fuel →
  ∃ outcome, SMA.solveEstablishmentsPropose fuel this = Some outcome ∧
    ((∃ result, outcome = Normal result) ∨ outcome = Throw TypeError).
Proof.
  intros Hfuel.
  destruct (ep_while_terminates this fuel (SMA.initial (SMA.establishments this)))
    as (outcome & Hw & Hout); [apply has_cursors_initial| |].
  { pose proof (turns_left_initial (SMA.n this) (SMA.establishments this)). lia. }
  unfold SMA.solveEstablishmentsPropose. rewrite Hw.
  destruct Hout as [[st' ->] | ->]; eexists; (split; [done|]); eauto.
Qed.

Lemma solveStudentsPropose_terminates this fuel :
  length (SMA.students this) * (SMA.n this + 1) < fuel →
  ∃ this' outcome, SMA.solveStudentsPropose fuel this = Some (this', outcome) ∧
    ((∃ result, outcome = Normal result) ∨ outcome = Throw TypeError).
Proof.
  intros Hfuel.
  destruct (ep_while_terminates (mirror this) fuel (SMA.initial (SMA.students this)))
    as (outcome & Hw & Hout); [apply has_cursors_initial| |].
  { pose proof (turns_left_initial (SMA.n this) (SMA.students this)).
    simpl. lia. }
  rewrite <- sp_while_mirror in Hw. unfold SMA.solveStudentsPropose.
  destruct (SMA.sp_while fuel this (SMA.initial (SMA.students this)))
    as [[this' c]|]; [|done].
  simpl in Hw. injection Hw as ->.
  destruct Hout as [[st' ->] | ->]; eexists _, _; (split; [done|]); eauto.
Qed.

(** ** Both ends of the stable matchings *)

Lemma rank_of_perfect this M s e :
  valid this → perfect (SMA.n this) M → (Some s, Some e) ∈ M →
  SatisfactionAnalyzer.rank_of (SMA.studentPrefs this) M true s
    = Normal (rank this s e) ∧
  SatisfactionAnalyzer.rank_of (SMA.establishmentPrefs this) M false e
    = Normal (rank (mirror this) e s) ∧
  (0 ≤ rank this s e)%Z ∧ (0 ≤ rank (mirror this) e s)%Z.
Proof.
  intros Hvalid HM Hin.
  destruct (perfect_entry _ _ HM _ _ Hin) as (? & ? & [= <-] & [= <-] & Hs & He).
  unfold SatisfactionAnalyzer.rank_of, SatisfactionAnalyzer.partner_of, rank.
  rewrite (perfect_get _ _ HM _ _ Hin), (perfect_find_key _ _ HM _ _ Hin). simpl.
  destruct (valid_receiver_prefs _ Hvalid s Hs) as (l & -> & Hord).
  destruct (valid_proposer_prefs _ Hvalid e He) as (l' & -> & Hord'). simpl.
  destruct (total_order_position _ _ Hord e He) as (j & _ & Hj).
  destruct (total_order_position _ _ Hord' s Hs) as (j' & _ & Hj').
  rewrite (total_order_indexOf _ _ Hord j e Hj).
  rewrite (total_order_indexOf _ _ Hord' j' s Hj'). split_and!; [done..|lia|lia].
Qed.

(** The matching of [solveEstablishmentsPropose], against a perfect matching
    [M'] that [verifyStability] accepts: every establishment is at least as
    well off as in [M'], every student at most as well off. *)
Lemma ep_extremal this fuel M' :
  valid this → SMA.n this * SMA.n this < fuel →
  perfect (SMA.n this) M' → SMA.verifyStability this M' = stable_verdict →
  ∃ result,
    SMA.solveEstablishmentsPropose fuel this = Some (Normal result) ∧
    perfect (SMA.n this) (SMA.ep_matching result) ∧
    SMA.verifyStability this (SMA.ep_matching result) = stable_verdict ∧
    (∀ s s0 e, (Some s, Some e) ∈ SMA.ep_matching result → (Some s0, Some e) ∈ M' →
       (rank (mirror this) e s ≤ rank (mirror this) e s0)%Z) ∧
    (∀ s e e0, (Some s, Some e) ∈ SMA.ep_matching result → (Some s, Some e0) ∈ M' →
       (rank this s e0 ≤ rank this s e)%Z).
Proof.
  intros Hvalid Hfuel HM' Hstable.
  set (M := λ p r : nat, (Some r, Some p) ∈ M').
  assert (∀ p r, M p r → r < SMA.n this) as Hrange.
  { intros p r Hin. by destruct (perfect_entry _ _ HM' _ _ Hin)
      as (? & ? & [= <-] & _ & ? & _). }
  assert (∀ p, p < SMA.n this → ∃ r, M p r) as Htotal.
  { intros p Hp. destruct (perfect_establishment _ _ HM' p Hp) as (r & _ & Hr).
    by exists r. }
  assert (∀ p p' r, M p r → M p' r → p = p') as Hfun.
  { intros p p' r. apply (perfect_same_student _ _ HM'). }
  assert (∀ p r p' r', M p r' → M p' r →
    (rank (mirror this) p r < rank (mirror this) p r')%Z →
    (rank this r p < rank this r p')%Z → False) as Hblock.
  { intros p r p' r' Hp Hp' H1 H2.
    by apply (verifyStability_no_blocking this M' r p r' p'). }
  destruct (solveEstablishmentsPropose_final this Hvalid (never_refused this M) fuel)
    as (st & HI & Hfree & HO & Hsolve); [| |done|].
  { apply never_refused_initial. destruct Hvalid as (_ & -> & _). apply NoDup_seq. }
  { by apply never_refused_proposed. }
  pose proof (perfect_ep_matching this st Hvalid HI Hfree) as HM.
  assert (∀ s s0 e, (Some s, Some e) ∈ prod_map id Some <$> SMA.engaged st →
            (Some s0, Some e) ∈ M' →
            (rank (mirror this) e s ≤ rank (mirror this) e s0)%Z) as Hbest.
  { intros s s0 e Hin Hin'.
    destruct (perfect_entry _ _ HM _ _ Hin) as (? & ? & [= <-] & [= <-] & Hs & He).
    destruct (final_engaged this st HI Hfree e He) as (s' & c & Hs' & Hc & Hch).
    assert ((Some s', Some e) ∈ prod_map id Some <$> SMA.engaged st) as Hin1.
    { apply list_elem_of_fmap. exists (Some s', e). split; [done|].
      by apply get_Some_elem_of. }
    pose proof (perfect_same_establishment _ _ HM _ _ _ Hin Hin1) as ->.
    exact (never_refused_final this Hvalid M Hrange st e c s' s0
             HI HO Hs' Hc Hch Hin'). }
  eexists. split; [exact Hsolve|]. simpl. split_and!; [done| |done|].
  { by apply ep_final_stable. }
  intros s e e0 Hin Hin0.
  destruct (decide (rank this s e0 ≤ rank this s e)%Z) as [|Hlt]; [done|]. exfalso.
  destruct (perfect_entry _ _ HM _ _ Hin) as (? & ? & [= <-] & [= <-] & Hs & He).
  destruct (perfect_establishment _ _ HM' e He) as (s0 & Hs0 & Hin1).
  assert (s0 ≠ s) as Hne.
  { intros ->. pose proof (perfect_same_student _ _ HM' _ _ _ Hin0 Hin1) as ->. lia. }
  pose proof (Hbest s s0 e Hin Hin1) as Hle.
  apply (verifyStability_no_blocking this M' s e s0 e0); [done..|lia|].
  assert (rank (mirror this) e s ≠ rank (mirror this) e s0); [|lia].
  intros Heq. apply Hne. symmetry.
  exact (rank_inj (mirror this) (valid_mirror _ Hvalid) e s s0 He Hs Heq).
Qed.

(** The same for [solveStudentsPropose], with the sides exchanged. *)
Lemma sp_extremal this fuel M' :
  valid this → SMA.n this * SMA.n this < fuel →
  perfect (SMA.n this) M' → SMA.verifyStability this M' = stable_verdict →
  ∃ this' result,
    SMA.solveStudentsPropose fuel this = Some (this', Normal result) ∧
    perfect (SMA.n this) (SMA.sp_matching result) ∧
    SMA.verifyStability this (SMA.sp_matching result) = stable_verdict ∧
    (∀ s e e0, (Some s, Some e) ∈ SMA.sp_matching result → (Some s, Some e0) ∈ M' →
       (rank this s e ≤ rank this s e0)%Z) ∧
    (∀ s s0 e, (Some s, Some e) ∈ SMA.sp_matching result → (Some s0, Some e) ∈ M' →
       (rank (mirror this) e s0 ≤ rank (mirror this) e s)%Z).
Proof.
  intros Hvalid Hfuel HM' Hstable.
  pose proof (valid_mirror _ Hvalid) as Hvalid'.
  set (M := λ p r : nat, (Some p, Some r) ∈ M').
  assert (∀ p r, M p r → r < SMA.n (mirror this)) as Hrange.
  { intros p r Hin. by destruct (perfect_entry _ _ HM' _ _ Hin)
      as (? & ? & _ & [= <-] & _ & ?). }
  assert (∀ p, p < SMA.n (mirror this) → ∃ r, M p r) as Htotal.
  { intros p Hp. destruct (perfect_student _ _ HM' p Hp) as (e & _ & He). by exists e. }
  assert (∀ p p' r, M p r → M p' r → p = p') as Hfun.
  { intros p p' r. apply (perfect_same_establishment _ _ HM'). }
  assert (∀ p r p' r', M p r' → M p' r →
    (rank (mirror (mirror this)) p r < rank (mirror (mirror this)) p r')%Z →
    (rank (mirror this) r p < rank (mirror this) r p')%Z → False) as Hblock.
  { intros p r p' r' Hp Hp'. by apply (verifyStability_no_blocking this M'). }
  destruct (solveStudentsPropose_final this (never_refused (mirror this) M) fuel)
    as (this' & st & HI & Hfree & HO & _ & _ & Hsolve); [done| | |done|].
  { apply never_refused_initial. destruct Hvalid as (-> & _). apply NoDup_seq. }
  { by apply never_refused_proposed. }
  pose proof (perfect_sp_matching (mirror this) st Hvalid' HI Hfree) as HM.
  simpl in HM.
  assert (∀ s e e0, (Some s, Some e) ∈ flip <$> SMA.engaged st →
            (Some s, Some e0) ∈ M' → (rank this s e ≤ rank this s e0)%Z) as Hbest.
  { intros s e e0 Hin Hin'.
    destruct (perfect_entry _ _ HM _ _ Hin) as (? & ? & [= <-] & [= <-] & Hs & He).
    destruct (final_engaged (mirror this) st HI Hfree s Hs) as (e' & c & He' & Hc & Hch).
    assert ((Some s, Some e') ∈ flip <$> SMA.engaged st) as Hin1.
    { apply list_elem_of_fmap. exists (Some e', s). split; [done|].
      by apply get_Some_elem_of. }
    pose proof (perfect_same_student _ _ HM _ _ _ Hin Hin1) as ->.
    exact (never_refused_final (mirror this) Hvalid' M Hrange st s c e' e0
             HI HO He' Hc Hch Hin'). }
  eexists _, _. split; [exact Hsolve|]. simpl. split_and!; [done| |done|].
  { by apply sp_final_stable. }
  intros s s0 e Hin Hin0.
  destruct (decide (rank (mirror this) e s0 ≤ rank (mirror this) e s)%Z)
    as [|Hlt]; [done|]. exfalso.
  destruct (perfect_entry _ _ HM _ _ Hin) as (? & ? & [= <-] & [= <-] & Hs & He).
  destruct (perfect_student _ _ HM' s Hs) as (e0 & He0 & Hin1).
  assert (e0 ≠ e) as Hne.
  { intros ->. pose proof (perfect_same_establishment _ _ HM' _ _ _ Hin0 Hin1) as ->.
    lia. }
  pose proof (Hbest s e e0 Hin Hin1) as Hle.
  apply (verifyStability_no_blocking this M' s e s0 e0); [done..| |lia].
  assert (rank this s e ≠ rank this s e0); [|lia].
  intros Heq. apply Hne. symmetry.
  exact (rank_inj this Hvalid s e e0 Hs He Heq).
Qed.

(** ** What [verifyStability] reports *)

Lemma for_loop_elem_of {B} (Q : nat → B → Prop)
    (body : nat → list B → completion (list B)) lo count acc :
  (∀ i a, lo ≤ i < lo + count →
     ∃ new, body i a = Normal (a ++ new) ∧ ∀ x, x ∈ new ↔ Q i x) →
  ∃ new, for_loop body lo count acc = Normal (acc ++ new) ∧
    ∀ x, x ∈ new ↔ ∃ i, lo ≤ i < lo + count ∧ Q i x.
Proof.
  revert lo acc. induction count as [|count IH]; intros lo acc Hbody; simpl.
  - exists []. rewrite app_nil_r. split; [done|]. intros x. split.
    + by intros ?%elem_of_nil.
    + intros (i & ? & _). lia.
  - destruct (Hbody lo acc) as (new & -> & Hnew); [lia|]. simpl.
    destruct (IH (S lo) (acc ++ new)) as (rest & -> & Hrest).
    { intros i a Hi. apply Hbody. lia. }
    exists (new ++ rest). rewrite <- (assoc_L (++)). split; [done|].
    intros x. rewrite elem_of_app, Hnew, Hrest. split.
    + intros [HQ | (i & Hi & HQ)]; [exists lo | exists i]; (split; [lia|done]).
    + intros (i & Hi & HQ). destruct (decide (i = lo)) as [->|]; [by left|].
      right. exists i. split; [lia|done].
Qed.

Section verifyStability_reports.
Context (this : SMA.t) (Hvalid : valid this) (matching : list (value * value)).

Lemma check_preferred_reports prefs s i e a :
  prefs !! i = Some e → e < SMA.n this →
  ∃ new, SMA.check_preferred this matching prefs s i a = Normal (a ++ new) ∧
    ∀ x, x ∈ new ↔
      x = {| SMA.student := s; SMA.establishment := Some e |} ∧
      ∃ ranking matchedS,
        SMA.establishmentPrefs this !! e = Some ranking ∧
        JsMap.find_key matching (Some e) = Some matchedS ∧
        (indexOf ranking (Some s) < indexOf ranking (Some matchedS))%Z.
Proof.
  intros Hi He. unfold SMA.check_preferred. rewrite Hi.
  destruct (valid_proposer_prefs this Hvalid e He) as (ranking & Hranking & _).
  destruct (JsMap.find_key matching (Some e)) as [matchedS|].
  - simpl. rewrite Hranking. simpl. case_decide as Hlt.
    + eexists. split; [done|]. intros x. rewrite list_elem_of_singleton. split.
      * intros ->. split; [done|]. by exists ranking, matchedS.
      * by intros [-> _].
    + exists []. rewrite app_nil_r. split; [done|]. intros x. split.
      * by intros ?%elem_of_nil.
      * intros (_ & ranking' & matchedS' & Hr & [= <-] & Hlt').
        injection Hr as <-. done.
  - exists []. rewrite app_nil_r. split; [done|]. intros x. split.
    + by intros ?%elem_of_nil.
    + by intros (_ & ? & ? & _ & ? & _).
Qed.

Lemma check_student_reports s a :
  s < SMA.n this →
  ∃ new, SMA.check_student this matching s a = Normal (a ++ new) ∧
    ∀ x, x ∈ new ↔
      SMA.student x = s ∧
      ∃ e, SMA.establishment x = Some e ∧ blocking this matching s e.
Proof.
  intros Hs. unfold SMA.check_student.
  destruct (valid_receiver_prefs this Hvalid s Hs) as (prefs & Hprefs & Hord).
  rewrite Hprefs. simpl.
  set (currentE := mjoin (JsMap.get matching (Some s))).
  pose proof (indexOf_bounds prefs currentE) as Hbound.
  rewrite (total_order_length _ _ Hord) in Hbound.
  edestruct (for_loop_elem_of
    (λ i x, ∃ e, prefs !! i = Some e ∧
       x = {| SMA.student := s; SMA.establishment := Some e |} ∧
       ∃ ranking matchedS,
         SMA.establishmentPrefs this !! e = Some ranking ∧
         JsMap.find_key matching (Some e) = Some matchedS ∧
         (indexOf ranking (Some s) < indexOf ranking (Some matchedS))%Z)
    (SMA.check_preferred this matching prefs s) 0
    (Z.to_nat (indexOf prefs currentE)) a) as (new & Hloop & Hnew).
  { intros i a' Hi.
    destruct (total_order_lookup _ _ Hord i) as (e & He & HeN); [lia|].
    destruct (check_preferred_reports prefs s i e a' He HeN) as (new & -> & Hnew).
    exists new. split; [done|]. intros x. rewrite Hnew. split.
    - intros [-> ?]. by exists e.
    - intros (e' & He' & -> & ?). rewrite He in He'. injection He' as <-. done. }
  exists new. split; [done|]. intros x. rewrite Hnew. split.
  - intros (i & Hi & e & He & -> & ranking & matchedS & Hr & Hm & Hlt).
    split; [done|]. exists e. split; [done|].
    exists prefs, ranking, matchedS. split_and!; try done.
    + rewrite (total_order_indexOf _ _ Hord i e He). lia.
    + rewrite (total_order_indexOf _ _ Hord i e He). fold currentE. lia.
  - intros (Hx & e & Hxe & prefs' & ranking & matchedS & Hp & Hr & Hrank & Hm & Hlt).
    rewrite Hprefs in Hp. injection Hp as <-. fold currentE in Hrank.
    destruct (indexOf_nonneg prefs (Some e)) as (e' & [= <-] & He); [lia|].
    exists (Z.to_nat (indexOf prefs (Some e))). split; [lia|].
    exists e. split; [done|]. split; [destruct x; simpl in *; congruence|].
    by exists ranking, matchedS.
Qed.

Lemma verifyStability_reports :
  ∃ v, SMA.verifyStability this matching = Normal v ∧
    (∀ x, x ∈ SMA.blockingPairs v ↔
       SMA.student x < SMA.n this ∧
       ∃ e, SMA.establishment x = Some e ∧
            blocking this matching (SMA.student x) e) ∧
    (SMA.stable v = true ↔
       ∀ s e, s < SMA.n this → ¬ blocking this matching s e).
Proof.
  unfold SMA.verifyStability.
  edestruct (for_loop_elem_of
    (λ s x, SMA.student x = s ∧
       ∃ e, SMA.establishment x = Some e ∧ blocking this matching s e)
    (SMA.check_student this matching) 0 (SMA.n this) []) as (new & -> & Hnew).
  { intros s a Hs. apply check_student_reports. lia. }
  simpl. eexists. split; [done|]. simpl.
  assert (∀ x, x ∈ new ↔ SMA.student x < SMA.n this ∧
            ∃ e, SMA.establishment x = Some e ∧
                 blocking this matching (SMA.student x) e) as Hin.
  { intros x. rewrite Hnew. split.
    - intros (s & Hs & <- & He). split; [lia|done].
    - intros [Hs He]. exists (SMA.student x). split; [lia|done]. }
  split; [done|]. rewrite bool_decide_eq_true. split.
  - intros Hlen s e Hs Hb. destruct new; [|done].
    apply (elem_of_nil {| SMA.student := s; SMA.establishment := Some e |}).
    apply Hin. simpl. split; [done|]. by exists e.
  - intros Hnone. destruct new as [|x new]; [done|]. exfalso.
    destruct (proj1 (Hin x)) as (Hs & e & _ & Hb); [left|]. by apply (Hnone _ e Hs).
Qed.
End verifyStability_reports.

(** ** The two directions on the same instance *)

Lemma sp_perfect_stable this fuel :
  valid this → SMA.n this * SMA.n this < fuel →
  ∃ this' result,
    SMA.solveStudentsPropose fuel this = Some (this', Normal result) ∧
    perfect (SMA.n this) (SMA.sp_matching result) ∧
    SMA.verifyStability this (SMA.sp_matching result) = stable_verdict.
Proof.
  intros Hvalid Hfuel.
  destruct (solveStudentsPropose_final this (λ _, True) fuel)
    as (this' & st & HI & Hfree & _ & _ & _ & Hsolve); [done..|].
  eexists _, _. split; [exact Hsolve|]. simpl. split.
  - exact (perfect_sp_matching (mirror this) st (valid_mirror _ Hvalid) HI Hfree).
  - by apply sp_final_stable.
Qed.

Lemma ep_perfect_stable this fuel :
  valid this → SMA.n this * SMA.n this < fuel →
  ∃ result,
    SMA.solveEstablishmentsPropose fuel this = Some (Normal result) ∧
    perfect (SMA.n this) (SMA.ep_matching result) ∧
    SMA.verifyStability this (SMA.ep_matching result) = stable_verdict.
Proof.
  intros Hvalid Hfuel.
  destruct (solveEstablishmentsPropose_final this Hvalid (λ _, True) fuel)
    as (st & HI & Hfree & _ & Hsolve); [done..|].
  eexists. split; [exact Hsolve|]. simpl. split.
  - by apply perfect_ep_matching.
  - by apply ep_final_stable.
Qed.

(** Ranks compared entry by entry are ranks compared by [rank_of]. *)
Lemma rank_of_le_students this M1 M2 :
  valid this → perfect (SMA.n this) M1 → perfect (SMA.n this) M2 →
  (∀ s e e0, (Some s, Some e) ∈ M1 → (Some s, Some e0) ∈ M2 →
     (rank this s e ≤ rank this s e0)%Z) →
  ∀ s, s < SMA.n this → ∃ a b,
    SatisfactionAnalyzer.rank_of (SMA.studentPrefs this) M1 true s = Normal a ∧
    SatisfactionAnalyzer.rank_of (SMA.studentPrefs this) M2 true s = Normal b ∧
    (0 ≤ a ≤ b)%Z.
Proof.
  intros Hvalid HM1 HM2 Hle s Hs.
  destruct (perfect_student _ _ HM1 s Hs) as (e & _ & Hin1).
  destruct (perfect_student _ _ HM2 s Hs) as (e0 & _ & Hin2).
  destruct (rank_of_perfect this M1 s e Hvalid HM1 Hin1) as (-> & _ & H0 & _).
  destruct (rank_of_perfect this M2 s e0 Hvalid HM2 Hin2) as (-> & _).
  eexists _, _. split_and!; [done..|by eapply Hle].
Qed.

Lemma rank_of_le_establishments this M1 M2 :
  valid this → perfect (SMA.n this) M1 → perfect (SMA.n this) M2 →
  (∀ s s0 e, (Some s, Some e) ∈ M1 → (Some s0, Some e) ∈ M2 →
     (rank (mirror this) e s ≤ rank (mirror this) e s0)%Z) →
  ∀ e, e < SMA.n this → ∃ a b,
    SatisfactionAnalyzer.rank_of (SMA.establishmentPrefs this) M1 false e = Normal a ∧
    SatisfactionAnalyzer.rank_of (SMA.establishmentPrefs this) M2 false e = Normal b ∧
    (0 ≤ a ≤ b)%Z.
Proof.
  intros Hvalid HM1 HM2 Hle e He.
  destruct (perfect_establishment _ _ HM1 e He) as (s & _ & Hin1).
  destruct (perfect_establishment _ _ HM2 e He) as (s0 & _ & Hin2).
  destruct (rank_of_perfect this M1 s e Hvalid HM1 Hin1) as (_ & -> & _ & H0).
  destruct (rank_of_perfect this M2 s0 e Hvalid HM2 Hin2) as (_ & -> & _).
  eexists _, _. split_and!; [done..|by eapply Hle].
Qed.

(** Two perfect matchings that give every student the same establishment
    have the same entries. *)
Lemma perfect_Permutation n M1 M2 :
  perfect n M1 → perfect n M2 →
  (∀ s e e0, (Some s, Some e) ∈ M1 → (Some s, Some e0) ∈ M2 → e = e0) →
  M1 ≡ₚ M2.
Proof.
  intros HM1 HM2 Hsame.
  apply NoDup_Permutation.
  - eapply NoDup_fmap_1, (perfect_NoDup_keys _ _ HM1).
  - eapply NoDup_fmap_1, (perfect_NoDup_keys _ _ HM2).
  - intros [k v]. split; intros Hin.
    + destruct (perfect_entry _ _ HM1 _ _ Hin) as (s & e & -> & -> & Hs & _).
      destruct (perfect_student _ _ HM2 s Hs) as (e0 & _ & Hin2).
      by rewrite (Hsame s e e0 Hin Hin2).
    + destruct (perfect_entry _ _ HM2 _ _ Hin) as (s & e0 & -> & -> & Hs & _).
      destruct (perfect_student _ _ HM1 s Hs) as (e & _ & Hin1).
      by rewrite <- (Hsame s e e0 Hin1 Hin).
Qed.

Lemma rank_same_establishment this s e e0 :
  valid this → s < SMA.n this → e < SMA.n this →
  (rank this s e ≤ rank this s e0)%Z → (rank this s e0 ≤ rank this s e)%Z → e = e0.
Proof.
  intros Hvalid Hs He H1 H2. apply (rank_inj this Hvalid s e e0 Hs He). lia.
Qed.

(** ** The order in which the participants are listed *)

Lemma verifyStability_ext this this2 matching :
  SMA.n this2 = SMA.n this →
  SMA.studentPrefs this2 = SMA.studentPrefs this →
  SMA.establishmentPrefs this2 = SMA.establishmentPrefs this →
  SMA.verifyStability this2 matching = SMA.verifyStability this matching.
Proof.
  destruct this, this2. simpl. by intros -> -> ->.
Qed.

Lemma rank_ext this this2 r q :
  SMA.studentPrefs this2 = SMA.studentPrefs this → rank this2 r q = rank this r q.
Proof. unfold rank. by intros ->. Qed.

Lemma sp_order_independent this this2 fuel :
  valid this → valid this2 →
  SMA.n this2 = SMA.n this →
  SMA.studentPrefs this2 = SMA.studentPrefs this →
  SMA.establishmentPrefs this2 = SMA.establishmentPrefs this →
  SMA.n this * SMA.n this < fuel →
  ∃ this' result this2' result2,
    SMA.solveStudentsPropose fuel this = Some (this', Normal result) ∧
    SMA.solveStudentsPropose fuel this2 = Some (this2', Normal result2) ∧
    SMA.sp_matching result ≡ₚ SMA.sp_matching result2.
Proof.
  intros Hvalid Hvalid2 Hn Hsp Hep Hfuel.
  destruct (sp_perfect_stable this2 fuel Hvalid2) as (t2 & r2 & Hsolve2 & HM2 & Hst2);
    [by rewrite Hn|].
  rewrite Hn in HM2. rewrite (verifyStability_ext this this2) in Hst2 by done.
  destruct (sp_extremal this fuel _ Hvalid Hfuel HM2 Hst2)
    as (t1 & r1 & Hsolve1 & HM1 & Hst1 & Hbest1 & _).
  rewrite <- Hn in HM1, Hfuel.
  rewrite <- (verifyStability_ext this this2) in Hst1 by done.
  destruct (sp_extremal this2 fuel _ Hvalid2 Hfuel HM1 Hst1)
    as (t2' & r2' & Hsolve2' & _ & _ & Hbest2 & _).
  rewrite Hsolve2 in Hsolve2'. injection Hsolve2' as <- <-.
  exists t1, r1, t2, r2. split_and!; [done..|].
  rewrite Hn in HM1.
  apply (perfect_Permutation (SMA.n this)); [done..|].
  intros s e e0 Hin Hin0.
  destruct (perfect_entry _ _ HM1 _ _ Hin) as (? & ? & [= <-] & [= <-] & Hs & He).
  apply (rank_same_establishment this s e e0 Hvalid Hs He).
  - by apply Hbest1.
  - rewrite <- !(rank_ext this this2) by done. by apply Hbest2.
Qed.

Lemma ep_order_independent this this2 fuel :
  valid this → valid this2 →
  SMA.n this2 = SMA.n this →
  SMA.studentPrefs this2 = SMA.studentPrefs this →
  SMA.establishmentPrefs this2 = SMA.establishmentPrefs this →
  SMA.n this * SMA.n this < fuel →
  ∃ result result2,
    SMA.solveEstablishmentsPropose fuel this = Some (Normal result) ∧
    SMA.solveEstablishmentsPropose fuel this2 = Some (Normal result2) ∧
    SMA.ep_matching result ≡ₚ SMA.ep_matching result2.
Proof.
  intros Hvalid Hvalid2 Hn Hsp Hep Hfuel.
  destruct (ep_perfect_stable this2 fuel Hvalid2) as (r2 & Hsolve2 & HM2 & Hst2);
    [by rewrite Hn|].
  rewrite Hn in HM2. rewrite (verifyStability_ext this this2) in Hst2 by done.
  destruct (ep_extremal this fuel _ Hvalid Hfuel HM2 Hst2)
    as (r1 & Hsolve1 & HM1 & Hst1 & _ & Hworst1).
  rewrite <- Hn in HM1, Hfuel.
  rewrite <- (verifyStability_ext this this2) in Hst1 by done.
  destruct (ep_extremal this2 fuel _ Hvalid2 Hfuel HM1 Hst1)
    as (r2' & Hsolve2' & _ & _ & _ & Hworst2).
  rewrite Hsolve2 in Hsolve2'. injection Hsolve2' as <-.
  exists r1, r2. split_and!; [done..|].
  rewrite Hn in HM1.
  apply (perfect_Permutation (SMA.n this)); [done..|].
  intros s e e0 Hin Hin0.
  destruct (perfect_entry _ _ HM1 _ _ Hin) as (? & ? & [= <-] & [= <-] & Hs & He).
  apply (rank_same_establishment this s e e0 Hvalid Hs He).
  - rewrite <- !(rank_ext this this2) by done. by apply Hworst2.
  - by apply Hworst1.
Qed.

(** ** One loop, two directions *)

Lemma mirror_mirror this : mirror (mirror this) = this.
Proof. by destruct this. Qed.

(** ** Ranges of the ratios *)

Lemma ratio_finite (c : Z) (n : nat) :
  0 < n →
  ∃ q, Number.div (Number.of_Z c) (Number.of_Z (Z.of_nat n)) = Finite q ∧
    (q == inject_Z c / inject_Z (Z.of_nat n))%Q.
Proof.
  intros Hn. unfold Number.div, Number.of_Z.
  assert (0 < inject_Z (Z.of_nat n))%Q as Hpos.
  { change 0%Q with (inject_Z 0). rewrite <- Zlt_Qlt. lia. }
  apply Qgt_alt in Hpos. rewrite Hpos.
  eexists. split; [reflexivity|]. apply Qred_correct.
Qed.


Lemma ratio_same (n : nat) :
  0 < n → (inject_Z (Z.of_nat n) / inject_Z (Z.of_nat n) == 1)%Q.
Proof.
  intros Hn. apply Qmult_inv_r. intros Heq.
  assert (0 < inject_Z (Z.of_nat n))%Q as Hpos.
  { change 0%Q with (inject_Z 0). rewrite <- Zlt_Qlt. lia. }
  rewrite Heq in Hpos. by apply Qlt_irrefl in Hpos.
Qed.


Lemma percent_finite (c : Z) (n : nat) :
  0 < n →
  ∃ q, Number.mul (Number.div (Number.of_Z c) (Number.of_Z (Z.of_nat n)))
         (Number.of_Z 100) = Finite q ∧
    (q == inject_Z c / inject_Z (Z.of_nat n) * 100)%Q.
Proof.
  intros Hn. destruct (ratio_finite c n Hn) as (q & -> & Hq).
  eexists. split; [reflexivity|]. rewrite Qred_correct, Hq. reflexivity.
Qed.

Section ratios_on_perfect.
Context (this : SMA.t) (Hvalid : valid this) (Hn : 0 < SMA.n this).
Context (M : list (value * value)) (HM : perfect (SMA.n this) M).
Context (isStudent : bool).

Local Abbreviation the_analyzer :=
  (SatisfactionAnalyzer.constructor M
     (SMA.studentPrefs this) (SMA.establishmentPrefs this)).
Local Abbreviation the_prefs :=
  (if isStudent then SMA.studentPrefs this else SMA.establishmentPrefs this).



End ratios_on_perfect.

(** ** The gap between the two sides *)


(** ** Participants without a partner *)

Lemma for_loop_throws {A} (body : nat → A → completion A) lo count acc i0 :
  (∀ i a e, body i a = Throw e → e = TypeError) →
  lo ≤ i0 < lo + count →
  (∀ a, body i0 a = Throw TypeError) →
  for_loop body lo count acc = Throw TypeError.
Proof.
  intros Hkind. revert lo acc.
  induction count as [|count IH]; intros lo acc Hi Hthrow; simpl; [lia|].
  destruct (decide (i0 = lo)) as [->|Hne].
  - by rewrite Hthrow.
  - destruct (body lo acc) as [a|e] eqn:Hb; simpl.
    + apply IH; [lia|done].
    + by rewrite (Hkind _ _ _ Hb).
Qed.

Lemma for_loop_throw_kind {A} (body : nat → A → completion A) lo count acc e :
  (∀ i a e, body i a = Throw e → e = TypeError) →
  for_loop body lo count acc = Throw e → e = TypeError.
Proof.
  intros Hkind. revert lo acc.
  induction count as [|count IH]; intros lo acc; simpl; [done|].
  destruct (body lo acc) as [a|e'] eqn:Hb; simpl.
  - apply IH.
  - intros [= <-]. by eapply Hkind.
Qed.

Lemma property_throw_kind {A} (o : option A) e : property o = Throw e → e = TypeError.
Proof. destruct o; [done|]. by intros [= <-]. Qed.

Lemma bind_throw_kind {A B} (c : completion A) (k : A → completion B) e :
  (∀ e, c = Throw e → e = TypeError) →
  (∀ a e, k a = Throw e → e = TypeError) →
  c ≫= k = Throw e → e = TypeError.
Proof.
  intros Hc Hk. destruct c as [a|e']; simpl.
  - apply Hk.
  - intros [= <-]. by apply Hc.
Qed.

(** The analyzer throws nothing but a [TypeError]. *)
Ltac throw_kind :=
  repeat first
    [ apply bind_throw_kind; [intros ? | intros ? ?]
    | apply for_loop_throw_kind; intros ? ? ?
    | apply property_throw_kind
    | progress cbv zeta
    | (let H := fresh in intros H; discriminate H) ].

Lemma rank_of_throw_kind prefs matching isStudent i e :
  SatisfactionAnalyzer.rank_of prefs matching isStudent i = Throw e → e = TypeError.
Proof. unfold SatisfactionAnalyzer.rank_of. throw_kind. Qed.

Lemma side_report_throw_kind this prefs matching isStudent e :
  SatisfactionAnalyzer.side_report this prefs matching isStudent = Throw e →
  e = TypeError.
Proof.
  unfold SatisfactionAnalyzer.side_report, SatisfactionAnalyzer.averageRank,
    SatisfactionAnalyzer.topKPercentage, SatisfactionAnalyzer.satisfactionScore,
    SatisfactionAnalyzer.rank_of.
  throw_kind.
Qed.

Lemma egalitarianCost_unmatched this matching s :
  s < SatisfactionAnalyzer.n this →
  mjoin (JsMap.get matching (Some s)) = None →
  SatisfactionAnalyzer.egalitarianCost this matching = Throw TypeError.
Proof.
  intros Hs Hget. unfold SatisfactionAnalyzer.egalitarianCost.
  apply (for_loop_throws _ _ _ _ s); [|lia|].
  - intros i a e'. throw_kind.
  - intros a. rewrite Hget.
    destruct (property (SatisfactionAnalyzer.studentPrefs this !! s)) eqn:H; simpl;
      [done|]. by rewrite (property_throw_kind _ _ H).
Qed.

Lemma fullAnalysis_unmatched this matching s :
  s < SatisfactionAnalyzer.n this →
  mjoin (JsMap.get matching (Some s)) = None →
  SatisfactionAnalyzer.fullAnalysis this matching = Throw TypeError.
Proof.
  intros Hs Hget. unfold SatisfactionAnalyzer.fullAnalysis.
  destruct (SatisfactionAnalyzer.side_report this _ matching true) eqn:H1; simpl.
  - destruct (SatisfactionAnalyzer.side_report this _ matching false) eqn:H2; simpl.
    + by rewrite (egalitarianCost_unmatched this matching s).
    + by rewrite (side_report_throw_kind _ _ _ _ _ H2).
  - by rewrite (side_report_throw_kind _ _ _ _ _ H1).
Qed.

(** Without a partner [indexOf] answers [-1], which is below every [k]. *)
Lemma rank_of_unmatched prefs matching isStudent i :
  i < length prefs →
  SatisfactionAnalyzer.partner_of matching isStudent i = None →
  SatisfactionAnalyzer.rank_of prefs matching isStudent i = Normal (-1)%Z.
Proof.
  intros Hi Hp. unfold SatisfactionAnalyzer.rank_of. rewrite Hp.
  destruct (lookup_lt_is_Some_2 prefs i Hi) as [l ->]. simpl.
  by rewrite indexOf_undefined.
Qed.

(** * Further properties of the code *)

Lemma unit_interval_half : unit_interval (λ _, (1 # 2)%Q).
Proof. intros k. split; [unfold Qle | unfold Qlt]; simpl; lia. Qed.









(** X5. Both [solve] loops end on every instance, valid or not: within
    [length proposers * (n + 1)] turns they return a result or throw a
    [TypeError]; they never spin and never read a missing cursor. *)
Theorem solve_terminates this fuel :
  length (SMA.students this) * (SMA.n this + 1) < fuel →
  length (SMA.establishments this) * (SMA.n this + 1) < fuel →
  (∃ this' outcome,
     SMA.solveStudentsPropose fuel this = Some (this', outcome) ∧
     ((∃ result, outcome = Normal result) ∨ outcome = Throw TypeError)) ∧
  (∃ outcome,
     SMA.solveEstablishmentsPropose fuel this = Some outcome ∧
     ((∃ result, outcome = Normal result) ∨ outcome = Throw TypeError)).
Proof.
  intros Hsp Hep. split.
  - by apply solveStudentsPropose_terminates.
  - by apply solveEstablishmentsPropose_terminates.
Qed.

Lemma solve_terminates_witness :
  (∃ this' outcome,
     SMA.solveStudentsPropose 7 repeated_entry = Some (this', outcome) ∧
     ((∃ result, outcome = Normal result) ∨ outcome = Throw TypeError)) ∧
  (∃ outcome,
     SMA.solveEstablishmentsPropose 7 repeated_entry = Some outcome ∧
     ((∃ result, outcome = Normal result) ∨ outcome = Throw TypeError)).
Proof. apply (solve_terminates repeated_entry 7); simpl; lia. Defined.

(** X6. Receiver pessimality. On a valid instance, let [M'] be any perfect
    matching that [verifyStability] accepts.  The side that receives the
    proposals ranks its partner in [M'] at least as well as the partner
    [solve] gave it: establishments under [solveStudentsPropose], students
    under [solveEstablishmentsPropose]. *)
Theorem receiver_pessimal this fuel M' :
  valid this → SMA.n this * SMA.n this < fuel →
  perfect (SMA.n this) M' →
  SMA.verifyStability this M' = stable_verdict →
  (∃ this' result,
     SMA.solveStudentsPropose fuel this = Some (this', Normal result) ∧
     ∀ e, e < SMA.n this → ∃ a b,
       SatisfactionAnalyzer.rank_of (SMA.establishmentPrefs this) M' false e
         = Normal a ∧
       SatisfactionAnalyzer.rank_of (SMA.establishmentPrefs this)
         (SMA.sp_matching result) false e = Normal b ∧
       (0 ≤ a ≤ b)%Z) ∧
  (∃ result,
     SMA.solveEstablishmentsPropose fuel this = Some (Normal result) ∧
     ∀ s, s < SMA.n this → ∃ a b,
       SatisfactionAnalyzer.rank_of (SMA.studentPrefs this) M' true s = Normal a ∧
       SatisfactionAnalyzer.rank_of (SMA.studentPrefs this)
         (SMA.ep_matching result) true s = Normal b ∧
       (0 ≤ a ≤ b)%Z).
Proof.
  intros Hvalid Hfuel HM' Hstable. split.
  - destruct (sp_extremal this fuel M' Hvalid Hfuel HM' Hstable)
      as (this' & result & Hsolve & HM & _ & _ & Hworst).
    exists this', result. split; [done|].
    apply rank_of_le_establishments; [done..|].
    intros s s0 e Hin Hin0. by apply (Hworst s0 s e).
  - destruct (ep_extremal this fuel M' Hvalid Hfuel HM' Hstable)
      as (result & Hsolve & HM & _ & _ & Hworst).
    exists result. split; [done|].
    apply rank_of_le_students; [done..|].
    intros s e e0 Hin Hin0. by apply (Hworst s e0 e).
Qed.

Lemma receiver_pessimal_witness :
  (∃ this' result,
     SMA.solveStudentsPropose 10 three_cycle = Some (this', Normal result) ∧
     ∀ e, e < 3 → ∃ a b,
       SatisfactionAnalyzer.rank_of (SMA.establishmentPrefs three_cycle)
         [(Some 1, Some 0); (Some 2, Some 1); (Some 0, Some 2)] false e
         = Normal a ∧
       SatisfactionAnalyzer.rank_of (SMA.establishmentPrefs three_cycle)
         (SMA.sp_matching result) false e = Normal b ∧
       (0 ≤ a ≤ b)%Z) ∧
  (∃ result,
     SMA.solveEstablishmentsPropose 10 three_cycle = Some (Normal result) ∧
     ∀ s, s < 3 → ∃ a b,
       SatisfactionAnalyzer.rank_of (SMA.studentPrefs three_cycle)
         [(Some 1, Some 0); (Some 2, Some 1); (Some 0, Some 2)] true s = Normal a ∧
       SatisfactionAnalyzer.rank_of (SMA.studentPrefs three_cycle)
         (SMA.ep_matching result) true s = Normal b ∧
       (0 ≤ a ≤ b)%Z).
Proof.
  apply (receiver_pessimal three_cycle 10
           [(Some 1, Some 0); (Some 2, Some 1); (Some 0, Some 2)]).
  - by_evaluation.
  - simpl. lia.
  - by_evaluation.
  - reflexivity.
Defined.

(** X7. The two directions compared on one valid instance: every student
    ranks its partner under [solveStudentsPropose] at least as well as its
    partner under [solveEstablishmentsPropose], and every establishment the
    other way round. *)
Theorem directions_compared this fuel :
  valid this → SMA.n this * SMA.n this < fuel →
  ∃ this' rs re,
    SMA.solveStudentsPropose fuel this = Some (this', Normal rs) ∧
    SMA.solveEstablishmentsPropose fuel this = Some (Normal re) ∧
    (∀ s, s < SMA.n this → ∃ a b,
       SatisfactionAnalyzer.rank_of (SMA.studentPrefs this)
         (SMA.sp_matching rs) true s = Normal a ∧
       SatisfactionAnalyzer.rank_of (SMA.studentPrefs this)
         (SMA.ep_matching re) true s = Normal b ∧
       (0 ≤ a ≤ b)%Z) ∧
    (∀ e, e < SMA.n this → ∃ a b,
       SatisfactionAnalyzer.rank_of (SMA.establishmentPrefs this)
         (SMA.ep_matching re) false e = Normal a ∧
       SatisfactionAnalyzer.rank_of (SMA.establishmentPrefs this)
         (SMA.sp_matching rs) false e = Normal b ∧
       (0 ≤ a ≤ b)%Z).
Proof.
  intros Hvalid Hfuel.
  destruct (ep_perfect_stable this fuel Hvalid Hfuel) as (re & Hep & HMep & Hstable).
  destruct (sp_extremal this fuel _ Hvalid Hfuel HMep Hstable)
    as (this' & rs & Hsp & HMsp & _ & Hbest & Hworst).
  exists this', rs, re. split_and!; [done..| |].
  - by apply rank_of_le_students.
  - apply rank_of_le_establishments; [done..|].
    intros s s0 e Hin Hin0. by apply (Hworst s0 s e).
Qed.

Lemma directions_compared_witness :
  ∃ this' rs re,
    SMA.solveStudentsPropose 10 three_cycle = Some (this', Normal rs) ∧
    SMA.solveEstablishmentsPropose 10 three_cycle = Some (Normal re) ∧
    (∀ s, s < 3 → ∃ a b,
       SatisfactionAnalyzer.rank_of (SMA.studentPrefs three_cycle)
         (SMA.sp_matching rs) true s = Normal a ∧
       SatisfactionAnalyzer.rank_of (SMA.studentPrefs three_cycle)
         (SMA.ep_matching re) true s = Normal b ∧
       (0 ≤ a ≤ b)%Z) ∧
    (∀ e, e < 3 → ∃ a b,
       SatisfactionAnalyzer.rank_of (SMA.establishmentPrefs three_cycle)
         (SMA.ep_matching re) false e = Normal a ∧
       SatisfactionAnalyzer.rank_of (SMA.establishmentPrefs three_cycle)
         (SMA.sp_matching rs) false e = Normal b ∧
       (0 ≤ a ≤ b)%Z).
Proof.
  apply (directions_compared three_cycle 10).
  - by_evaluation.
  - simpl. lia.
Defined.

(** X8. When the two directions return the same entries on a valid
    instance, that matching is the only perfect matching that
    [verifyStability] accepts. *)
Theorem stable_unique_when_directions_agree this fuel this' rs re M' :
  valid this → SMA.n this * SMA.n this < fuel →
  SMA.solveStudentsPropose fuel this = Some (this', Normal rs) →
  SMA.solveEstablishmentsPropose fuel this = Some (Normal re) →
  SMA.sp_matching rs ≡ₚ SMA.ep_matching re →
  perfect (SMA.n this) M' → SMA.verifyStability this M' = stable_verdict →
  M' ≡ₚ SMA.sp_matching rs.
Proof.
  intros Hvalid Hfuel Hsp Hep Hagree HM' Hstable.
  destruct (sp_extremal this fuel M' Hvalid Hfuel HM' Hstable)
    as (this1 & rs1 & Hsp1 & HMsp & _ & Hbest & _).
  destruct (ep_extremal this fuel M' Hvalid Hfuel HM' Hstable)
    as (re1 & Hep1 & HMep & _ & _ & Hworst).
  rewrite Hsp in Hsp1. injection Hsp1 as <- <-.
  rewrite Hep in Hep1. injection Hep1 as <-.
  symmetry. apply (perfect_Permutation (SMA.n this)); [done..|].
  intros s e e0 Hin Hin0.
  destruct (perfect_entry _ _ HMsp _ _ Hin) as (? & ? & [= <-] & [= <-] & Hs & He).
  apply (rank_same_establishment this s e e0 Hvalid Hs He).
  - by apply Hbest.
  - apply Hworst; [|done]. by rewrite <- Hagree.
Qed.

Lemma stable_unique_when_directions_agree_witness :
  ∃ this' rs re,
    SMA.solveStudentsPropose 10 two_by_two = Some (this', Normal rs) ∧
    SMA.solveEstablishmentsPropose 10 two_by_two = Some (Normal re) ∧
    [(Some 0, Some 1); (Some 1, Some 0)] ≡ₚ SMA.sp_matching rs.
Proof.
  eexists _, _, _. split; [reflexivity|]. split; [reflexivity|].
  eapply (stable_unique_when_directions_agree two_by_two 10).
  - by_evaluation.
  - simpl. lia.
  - reflexivity.
  - reflexivity.
  - by_evaluation.
  - by_evaluation.
  - reflexivity.
Defined.

(** X9. The order in which [this.students] and [this.establishments] list
    the participants does not matter: two valid engines with the same
    preference arrays return matchings with the same entries, in either
    direction. *)
Theorem listing_order_irrelevant this this2 fuel :
  valid this → valid this2 →
  SMA.n this2 = SMA.n this →
  SMA.studentPrefs this2 = SMA.studentPrefs this →
  SMA.establishmentPrefs this2 = SMA.establishmentPrefs this →
  SMA.n this * SMA.n this < fuel →
  (∃ this' result this2' result2,
     SMA.solveStudentsPropose fuel this = Some (this', Normal result) ∧
     SMA.solveStudentsPropose fuel this2 = Some (this2', Normal result2) ∧
     SMA.sp_matching result ≡ₚ SMA.sp_matching result2) ∧
  (∃ result result2,
     SMA.solveEstablishmentsPropose fuel this = Some (Normal result) ∧
     SMA.solveEstablishmentsPropose fuel this2 = Some (Normal result2) ∧
     SMA.ep_matching result ≡ₚ SMA.ep_matching result2).
Proof.
  intros Hvalid Hvalid2 Hn Hsp Hep Hfuel. split.
  - by apply sp_order_independent.
  - by apply ep_order_independent.
Qed.

Lemma listing_order_irrelevant_witness :
  (∃ this' result this2' result2,
     SMA.solveStudentsPropose 10 three_cycle = Some (this', Normal result) ∧
     SMA.solveStudentsPropose 10
       (instance [2; 0; 1] [1; 2; 0]
          [[0; 1; 2]; [1; 2; 0]; [2; 0; 1]] [[1; 2; 0]; [2; 0; 1]; [0; 1; 2]])
       = Some (this2', Normal result2) ∧
     SMA.sp_matching result ≡ₚ SMA.sp_matching result2) ∧
  (∃ result result2,
     SMA.solveEstablishmentsPropose 10 three_cycle = Some (Normal result) ∧
     SMA.solveEstablishmentsPropose 10
       (instance [2; 0; 1] [1; 2; 0]
          [[0; 1; 2]; [1; 2; 0]; [2; 0; 1]] [[1; 2; 0]; [2; 0; 1]; [0; 1; 2]])
       = Some (Normal result2) ∧
     SMA.ep_matching result ≡ₚ SMA.ep_matching result2).
Proof.
  apply (listing_order_irrelevant three_cycle
           (instance [2; 0; 1] [1; 2; 0]
              [[0; 1; 2]; [1; 2; 0]; [2; 0; 1]] [[1; 2; 0]; [2; 0; 1]; [0; 1; 2]]) 10).
  - by_evaluation.
  - by_evaluation.
  - reflexivity.
  - reflexivity.
  - reflexivity.
  - simpl. lia.
Defined.

(** X10. On a valid instance [verifyStability] never throws, whatever map it
    is given, and it reports exactly the blocking pairs: a pair is in
    [blockingPairs] when and only when its student [s] is below [n], its
    establishment [e] is defined, [s] ranks [e] ahead of [matching.get(s)],
    and [e] ranks [s] ahead of the student found with [e].  [stable] is true
    when and only when there is no such pair. *)
Theorem verifyStability_exact this matching :
  valid this →
  ∃ v, SMA.verifyStability this matching = Normal v ∧
    (∀ x, x ∈ SMA.blockingPairs v ↔
       SMA.student x < SMA.n this ∧
       ∃ e, SMA.establishment x = Some e ∧
            blocking this matching (SMA.student x) e) ∧
    (SMA.stable v = true ↔
       ∀ s e, s < SMA.n this → ¬ blocking this matching s e).
Proof. intros Hvalid. by apply verifyStability_reports. Qed.

Lemma verifyStability_exact_witness :
  ∃ v, SMA.verifyStability two_by_two [(Some 0, Some 0); (Some 1, Some 1)] = Normal v ∧
    (∀ x, x ∈ SMA.blockingPairs v ↔
       SMA.student x < SMA.n two_by_two ∧
       ∃ e, SMA.establishment x = Some e ∧
            blocking two_by_two [(Some 0, Some 0); (Some 1, Some 1)]
              (SMA.student x) e) ∧
    (SMA.stable v = true ↔
       ∀ s e, s < SMA.n two_by_two →
         ¬ blocking two_by_two [(Some 0, Some 0); (Some 1, Some 1)] s e).
Proof.
  apply (verifyStability_exact two_by_two [(Some 0, Some 0); (Some 1, Some 1)]).
  by_evaluation.
Defined.

(** X11. On a valid engine whose [proposalCounts] are still zero,
    [solveStudentsPropose] reports for every student one proposal more than
    the rank of the establishment it ends with: between 1 and [n]. *)
Theorem students_counts_are_ranks this fuel :
  valid this →
  SMA.proposalCounts this = replicate (SMA.n this) (Count 0) →
  SMA.n this * SMA.n this < fuel →
  ∃ this' result,
    SMA.solveStudentsPropose fuel this = Some (this', Normal result) ∧
    ∀ s, s < SMA.n this → ∃ r,
      SatisfactionAnalyzer.rank_of (SMA.studentPrefs this)
        (SMA.sp_matching result) true s = Normal r ∧
      (0 ≤ r < Z.of_nat (SMA.n this))%Z ∧
      SMA.sp_proposalCounts result !! s = Some (Count (Z.to_nat r + 1)).
Proof.
  intros Hvalid Hfresh Hfuel. pose proof (valid_mirror _ Hvalid) as Hvalid'.
  destruct (solveStudentsPropose_fresh this fuel Hvalid Hfresh Hfuel)
    as (st & HI & Hfree & _ & Hsolve).
  eexists _, _. split; [exact Hsolve|]. simpl. intros s Hs.
  pose proof (perfect_sp_matching (mirror this) st Hvalid' HI Hfree) as HM.
  simpl in HM.
  destruct (final_engaged (mirror this) st HI Hfree s Hs) as (e & c & He & Hc & Hch).
  assert ((Some s, Some e) ∈ flip <$> SMA.engaged st) as Hin.
  { apply list_elem_of_fmap. exists (Some e, s). split; [done|].
    by apply get_Some_elem_of. }
  destruct (rank_of_perfect this _ s e Hvalid HM Hin) as (-> & _).
  destruct (valid_receiver_prefs _ Hvalid s Hs) as (prefs & Hprefs & _).
  pose proof (choice_indexOf (mirror this) s c e prefs Hvalid' Hch Hprefs) as Hrank.
  destruct (choice_Some _ Hvalid' _ _ _ Hch) as (_ & HcN & _). simpl in HcN.
  exists (Z.of_nat c). split_and!.
  - unfold rank. by rewrite Hprefs, Hrank.
  - lia.
  - lia.
  - unfold cursors. rewrite !list_lookup_fmap, lookup_seq_lt by done. simpl.
    rewrite Hc. simpl. do 2 f_equal. lia.
Qed.

Lemma students_counts_are_ranks_witness :
  ∃ this' result,
    SMA.solveStudentsPropose 10 two_by_two = Some (this', Normal result) ∧
    ∀ s, s < SMA.n two_by_two → ∃ r,
      SatisfactionAnalyzer.rank_of (SMA.studentPrefs two_by_two)
        (SMA.sp_matching result) true s = Normal r ∧
      (0 ≤ r < Z.of_nat (SMA.n two_by_two))%Z ∧
      SMA.sp_proposalCounts result !! s = Some (Count (Z.to_nat r + 1)).
Proof.
  apply (students_counts_are_ranks two_by_two 10).
  - by_evaluation.
  - reflexivity.
  - simpl. lia.
Defined.

(** X12. On a valid instance the [proposalCounts] map that
    [solveEstablishmentsPropose] returns gives every establishment one
    proposal more than the rank of the student it ends with. *)
Theorem establishments_counts_are_ranks this fuel :
  valid this → SMA.n this * SMA.n this < fuel →
  ∃ result,
    SMA.solveEstablishmentsPropose fuel this = Some (Normal result) ∧
    ∀ e, e < SMA.n this → ∃ r,
      SatisfactionAnalyzer.rank_of (SMA.establishmentPrefs this)
        (SMA.ep_matching result) false e = Normal r ∧
      (0 ≤ r < Z.of_nat (SMA.n this))%Z ∧
      JsMap.get (SMA.ep_proposalCounts result) e = Some (Z.to_nat r + 1).
Proof.
  intros Hvalid Hfuel.
  destruct (solveEstablishmentsPropose_final this Hvalid (λ _, True) fuel)
    as (st & HI & Hfree & _ & Hsolve); [done..|].
  eexists. split; [exact Hsolve|]. simpl. intros e He.
  pose proof (perfect_ep_matching this st Hvalid HI Hfree) as HM.
  destruct (final_engaged this st HI Hfree e He) as (s & c & Hs & Hc & Hch).
  assert ((Some s, Some e) ∈ prod_map id Some <$> SMA.engaged st) as Hin.
  { apply list_elem_of_fmap. exists (Some s, e). split; [done|].
    by apply get_Some_elem_of. }
  destruct (rank_of_perfect this _ s e Hvalid HM Hin) as (_ & -> & _).
  destruct (valid_proposer_prefs _ Hvalid e He) as (prefs & Hprefs & _).
  pose proof (choice_indexOf this e c s prefs Hvalid Hch Hprefs) as Hrank.
  destruct (choice_Some _ Hvalid _ _ _ Hch) as (_ & HcN & _).
  exists (Z.of_nat c). split_and!.
  - unfold rank. simpl. by rewrite Hprefs, Hrank.
  - lia.
  - lia.
  - unfold cursor in Hc. rewrite Hc. f_equal. lia.
Qed.

Lemma establishments_counts_are_ranks_witness :
  ∃ result,
    SMA.solveEstablishmentsPropose 10 two_by_two = Some (Normal result) ∧
    ∀ e, e < SMA.n two_by_two → ∃ r,
      SatisfactionAnalyzer.rank_of (SMA.establishmentPrefs two_by_two)
        (SMA.ep_matching result) false e = Normal r ∧
      (0 ≤ r < Z.of_nat (SMA.n two_by_two))%Z ∧
      JsMap.get (SMA.ep_proposalCounts result) e = Some (Z.to_nat r + 1).
Proof.
  apply (establishments_counts_are_ranks two_by_two 10).
  - by_evaluation.
  - simpl. lia.
Defined.

(** X13. The two [solve] methods are one algorithm with the sides
    exchanged: on a valid instance, [solveEstablishmentsPropose] returns the
    entries that [solveStudentsPropose] returns on the instance with students
    and establishments swapped, each entry turned round. *)
Theorem directions_mirror this fuel :
  valid this → SMA.n this * SMA.n this < fuel →
  ∃ this' rs re,
    SMA.solveStudentsPropose fuel (mirror this) = Some (this', Normal rs) ∧
    SMA.solveEstablishmentsPropose fuel this = Some (Normal re) ∧
    SMA.sp_matching rs = (λ kv, (kv.2, kv.1)) <$> SMA.ep_matching re.
Proof.
  intros Hvalid Hfuel.
  destruct (solveStudentsPropose_final (mirror this) (λ _, True) fuel)
    as (this' & st & HI & Hfree & _ & _ & Hw & Hsolve);
    [by apply valid_mirror|done..|].
  pose proof (sp_while_mirror fuel (mirror this)
                (SMA.initial (SMA.students (mirror this)))) as Hep.
  rewrite Hw, mirror_mirror in Hep. simpl in Hep.
  eexists _, _, _. split; [exact Hsolve|]. split.
  { unfold SMA.solveEstablishmentsPropose. by rewrite <- Hep. }
  simpl. rewrite <- list_fmap_compose. apply list_fmap_ext. by intros ? [].
Qed.

Lemma directions_mirror_witness :
  ∃ this' rs re,
    SMA.solveStudentsPropose 10 (mirror three_cycle) = Some (this', Normal rs) ∧
    SMA.solveEstablishmentsPropose 10 three_cycle = Some (Normal re) ∧
    SMA.sp_matching rs = (λ kv, (kv.2, kv.1)) <$> SMA.ep_matching re.
Proof.
  apply (directions_mirror three_cycle 10).
  - by_evaluation.
  - simpl. lia.
Defined.

(** X14. On a perfect matching of a valid instance [egalitarianCost] is the
    sum of the two totals that [averageRank] divides by [n]: the students'
    ranks plus the establishments' ranks, each total between 0 and
    [n * (n - 1)]. *)
Theorem egalitarianCost_is_rank_sum this M :
  valid this → perfect (SMA.n this) M →
  let analyzer := SatisfactionAnalyzer.constructor M
                    (SMA.studentPrefs this) (SMA.establishmentPrefs this) in
  ∃ a b,
    SatisfactionAnalyzer.averageRank analyzer (SMA.studentPrefs this) M true
      = Normal (Number.div (Number.of_Z a) (Number.of_Z (Z.of_nat (SMA.n this)))) ∧
    SatisfactionAnalyzer.averageRank analyzer (SMA.establishmentPrefs this) M false
      = Normal (Number.div (Number.of_Z b) (Number.of_Z (Z.of_nat (SMA.n this)))) ∧
    SatisfactionAnalyzer.egalitarianCost analyzer M = Normal (a + b)%Z ∧
    (0 ≤ a ≤ Z.of_nat (SMA.n this) * (Z.of_nat (SMA.n this) - 1))%Z ∧
    (0 ≤ b ≤ Z.of_nat (SMA.n this) * (Z.of_nat (SMA.n this) - 1))%Z.
Proof.
  intros Hvalid HM analyzer.
  exists (Zsum (rank_at (SMA.studentPrefs this) M true) 0 (SMA.n this)),
         (Zsum (rank_at (SMA.establishmentPrefs this) M false) 0 (SMA.n this)).
  split_and!.
  - exact (averageRank_perfect this Hvalid M HM true).
  - exact (averageRank_perfect this Hvalid M HM false).
  - exact (egalitarianCost_perfect this Hvalid M HM).
  - apply (Zsum_rank_at_bounds this Hvalid M HM true).
  - apply (Zsum_rank_at_bounds this Hvalid M HM true).
  - apply (Zsum_rank_at_bounds this Hvalid M HM false).
  - apply (Zsum_rank_at_bounds this Hvalid M HM false).
Qed.

Lemma egalitarianCost_is_rank_sum_witness :
  let M := [(Some 1, Some 0); (Some 2, Some 1); (Some 0, Some 2)] in
  let analyzer := SatisfactionAnalyzer.constructor M
                    (SMA.studentPrefs three_cycle)
                    (SMA.establishmentPrefs three_cycle) in
  ∃ a b,
    SatisfactionAnalyzer.averageRank analyzer (SMA.studentPrefs three_cycle) M true
      = Normal (Number.div (Number.of_Z a)
                  (Number.of_Z (Z.of_nat (SMA.n three_cycle)))) ∧
    SatisfactionAnalyzer.averageRank analyzer
      (SMA.establishmentPrefs three_cycle) M false
      = Normal (Number.div (Number.of_Z b)
                  (Number.of_Z (Z.of_nat (SMA.n three_cycle)))) ∧
    SatisfactionAnalyzer.egalitarianCost analyzer M = Normal (a + b)%Z ∧
    (0 ≤ a ≤ Z.of_nat (SMA.n three_cycle) * (Z.of_nat (SMA.n three_cycle) - 1))%Z ∧
    (0 ≤ b ≤ Z.of_nat (SMA.n three_cycle) * (Z.of_nat (SMA.n three_cycle) - 1))%Z.
Proof.
  apply (egalitarianCost_is_rank_sum three_cycle
           [(Some 1, Some 0); (Some 2, Some 1); (Some 0, Some 2)]).
  - by_evaluation.
  - by_evaluation.
Defined.









(** X19. [fullAnalysis] never throws on a perfect matching of a valid
    instance, and the cost it reports is between 0 and [2 * n * (n - 1)]. *)
Theorem fullAnalysis_completes this M :
  valid this → perfect (SMA.n this) M →
  ∃ report,
    SatisfactionAnalyzer.fullAnalysis
      (SatisfactionAnalyzer.constructor M
         (SMA.studentPrefs this) (SMA.establishmentPrefs this)) M
      = Normal report ∧
    (0 ≤ SatisfactionAnalyzer.Report.egalitarianCost
           (SatisfactionAnalyzer.Report.overall report)
       ≤ 2 * (Z.of_nat (SMA.n this) * (Z.of_nat (SMA.n this) - 1)))%Z.
Proof.
  intros Hvalid HM.
  destruct (fullAnalysis_total this Hvalid M HM) as [report Hreport].
  exists report. split; [done|].
  destruct (fullAnalysis_inv _ _ _ Hreport) as (_ & _ & _ & _ & _ & _ & _ & _ & Hcost & _).
  rewrite (egalitarianCost_perfect this Hvalid M HM) in Hcost.
  injection Hcost as <-.
  pose proof (Zsum_rank_at_bounds this Hvalid M HM true).
  pose proof (Zsum_rank_at_bounds this Hvalid M HM false). lia.
Qed.

Lemma fullAnalysis_completes_witness :
  ∃ report,
    SatisfactionAnalyzer.fullAnalysis
      (SatisfactionAnalyzer.constructor
         [(Some 1, Some 0); (Some 2, Some 1); (Some 0, Some 2)]
         (SMA.studentPrefs three_cycle) (SMA.establishmentPrefs three_cycle))
      [(Some 1, Some 0); (Some 2, Some 1); (Some 0, Some 2)]
      = Normal report ∧
    (0 ≤ SatisfactionAnalyzer.Report.egalitarianCost
           (SatisfactionAnalyzer.Report.overall report)
       ≤ 2 * (Z.of_nat (SMA.n three_cycle) * (Z.of_nat (SMA.n three_cycle) - 1)))%Z.
Proof.
  apply (fullAnalysis_completes three_cycle
           [(Some 1, Some 0); (Some 2, Some 1); (Some 0, Some 2)]).
  - by_evaluation.
  - by_evaluation.
Defined.

(** X20. With no students ([studentPrefs] empty, so [n = 0]) [fullAnalysis]
    completes on every map and every [establishmentPrefs]; every average and
    percentage it reports is [NaN], from [0 / 0], and the cost is 0. *)
Theorem fullAnalysis_no_students matching establishmentPrefs matching' :
  SatisfactionAnalyzer.fullAnalysis
    (SatisfactionAnalyzer.constructor matching [] establishmentPrefs) matching'
  = Normal
      {| SatisfactionAnalyzer.Report.students :=
           {| SatisfactionAnalyzer.Report.avgRank := NaN;
              SatisfactionAnalyzer.Report.top1 := NaN;
              SatisfactionAnalyzer.Report.top3 := NaN;
              SatisfactionAnalyzer.Report.satisfaction := NaN |};
         SatisfactionAnalyzer.Report.establishments :=
           {| SatisfactionAnalyzer.Report.avgRank := NaN;
              SatisfactionAnalyzer.Report.top1 := NaN;
              SatisfactionAnalyzer.Report.top3 := NaN;
              SatisfactionAnalyzer.Report.satisfaction := NaN |};
         SatisfactionAnalyzer.Report.overall :=
           {| SatisfactionAnalyzer.Report.egalitarianCost := 0;
              SatisfactionAnalyzer.Report.sexEquality := NaN |} |}.
Proof. reflexivity. Qed.

(** X21. A student without an entry in the matching makes [egalitarianCost]
    throw a [TypeError] ([this.establishmentPrefs[undefined].indexOf]), and
    with it [fullAnalysis], whatever the rest of the matching is. *)
Theorem fullAnalysis_unmatched_throws this matching s :
  s < SatisfactionAnalyzer.n this →
  mjoin (JsMap.get matching (Some s)) = None →
  SatisfactionAnalyzer.egalitarianCost this matching = Throw TypeError ∧
  SatisfactionAnalyzer.fullAnalysis this matching = Throw TypeError.
Proof.
  intros Hs Hget. split.
  - by apply (egalitarianCost_unmatched this matching s).
  - by apply (fullAnalysis_unmatched this matching s).
Qed.

Lemma fullAnalysis_unmatched_throws_witness :
  SatisfactionAnalyzer.egalitarianCost
    (SatisfactionAnalyzer.constructor [(Some 0, Some 1)]
       [[0; 1]; [0; 1]] [[1; 0]; [1; 0]])
    [(Some 0, Some 1)] = Throw TypeError ∧
  SatisfactionAnalyzer.fullAnalysis
    (SatisfactionAnalyzer.constructor [(Some 0, Some 1)]
       [[0; 1]; [0; 1]] [[1; 0]; [1; 0]])
    [(Some 0, Some 1)] = Throw TypeError.
Proof.
  apply (fullAnalysis_unmatched_throws
           (SatisfactionAnalyzer.constructor [(Some 0, Some 1)]
              [[0; 1]; [0; 1]] [[1; 0]; [1; 0]])
           [(Some 0, Some 1)] 1).
  - simpl. lia.
  - reflexivity.
Defined.

(** X22. Participants without a partner count as best served: when no
    participant of a side has a partner in the matching, [indexOf] answers
    [-1] for each, so [averageRank] is [-1] and [topKPercentage] is 100 for
    every [k ≥ 0]. *)
Theorem unmatched_counts_as_top this prefs matching (isStudent : bool) k :
  0 < SatisfactionAnalyzer.n this →
  SatisfactionAnalyzer.n this ≤ length prefs →
  (∀ i, i < SatisfactionAnalyzer.n this →
     SatisfactionAnalyzer.partner_of matching isStudent i = None) →
  (0 ≤ k)%Z →
  ∃ a b,
    SatisfactionAnalyzer.averageRank this prefs matching isStudent
      = Normal (Finite a) ∧ (a == -1)%Q ∧
    SatisfactionAnalyzer.topKPercentage this prefs matching k isStudent
      = Normal (Finite b) ∧ (b == 100)%Q.
Proof.
  intros Hn Hlen Hnone Hk.
  assert (SatisfactionAnalyzer.averageRank this prefs matching isStudent
          = Normal (Number.div
                      (Number.of_Z (Z.of_nat (SatisfactionAnalyzer.n this) * -1))
                      (Number.of_Z (Z.of_nat (SatisfactionAnalyzer.n this))))) as ->.
  { unfold SatisfactionAnalyzer.averageRank.
    rewrite (for_loop_Zsum (λ _, -1)%Z).
    - by rewrite Zsum_const, Z.add_0_l.
    - intros i a Hi. rewrite rank_of_unmatched; [done|lia|apply Hnone; lia]. }
  assert (SatisfactionAnalyzer.topKPercentage this prefs matching k isStudent
          = Normal (Number.mul
                      (Number.div
                         (Number.of_Z (Z.of_nat (SatisfactionAnalyzer.n this) * 1))
                         (Number.of_Z (Z.of_nat (SatisfactionAnalyzer.n this))))
                      (Number.of_Z 100))) as ->.
  { unfold SatisfactionAnalyzer.topKPercentage.
    rewrite (for_loop_Zsum (λ _, 1)%Z).
    - by rewrite Zsum_const, Z.add_0_l.
    - intros i a Hi. rewrite rank_of_unmatched; [|lia|apply Hnone; lia].
      simpl. by rewrite decide_True by lia. }
  destruct (ratio_finite (Z.of_nat (SatisfactionAnalyzer.n this) * -1)
              (SatisfactionAnalyzer.n this) Hn) as (a & -> & Ha).
  destruct (percent_finite (Z.of_nat (SatisfactionAnalyzer.n this) * 1)
              (SatisfactionAnalyzer.n this) Hn) as (b & -> & Hb).
  exists a, b. split_and!; [done| |done|].
  - rewrite Ha, inject_Z_mult. unfold Qdiv.
    rewrite (Qmult_comm (inject_Z (Z.of_nat _))), <- Qmult_assoc.
    change (inject_Z (Z.of_nat (SatisfactionAnalyzer.n this)) *
            / inject_Z (Z.of_nat (SatisfactionAnalyzer.n this)))%Q
      with (inject_Z (Z.of_nat (SatisfactionAnalyzer.n this))
            / inject_Z (Z.of_nat (SatisfactionAnalyzer.n this)))%Q.
    rewrite ratio_same by done. reflexivity.
  - rewrite Hb, Z.mul_1_r, ratio_same by done. reflexivity.
Qed.

Lemma unmatched_counts_as_top_witness :
  ∃ a b,
    SatisfactionAnalyzer.averageRank
      (SatisfactionAnalyzer.constructor [] [[0; 1]; [0; 1]] [[1; 0]; [1; 0]])
      [[0; 1]; [0; 1]] [] true
      = Normal (Finite a) ∧ (a == -1)%Q ∧
    SatisfactionAnalyzer.topKPercentage
      (SatisfactionAnalyzer.constructor [] [[0; 1]; [0; 1]] [[1; 0]; [1; 0]])
      [[0; 1]; [0; 1]] [] 1 true
      = Normal (Finite b) ∧ (b == 100)%Q.
Proof.
  apply (unmatched_counts_as_top
           (SatisfactionAnalyzer.constructor [] [[0; 1]; [0; 1]] [[1; 0]; [1; 0]])
           [[0; 1]; [0; 1]] [] true 1).
  - simpl. lia.
  - simpl. lia.
  - intros i _. reflexivity.
  - lia.
Defined.
